(** * Event platform: verification of the Mongoose models and the
      connection cache

    Shallow embedding of
    - [src/database/event.model.ts]   ([slugify], [normalizeDate],
      [normalizeTime], the Event pre-save hook),
    - [src/database/booking.model.ts] ([emailRegex], the Booking pre-save
      hook),
    - the connection module ([connectToDatabase] and its cache).

    JavaScript strings are modelled as lists of code units restricted to
    the range U+0000..U+00FF, one [ascii] per code unit.  On that range
    [String.prototype.trim], [toLowerCase] and the character classes [\s],
    [\d], [[a-z0-9]] are the ones written below.  Above that range
    [toLowerCase] is not character-wise (U+0130 becomes two code units,
    U+212A becomes the letter k), so what is stated about a slug is
    stated on the lower-cased title, and never on the length or the
    letters of the title as it was given. *)

From Stdlib Require Import Ascii String.
From Stdlib Require Import List ZArith NArith Lia Bool Arith.
Import ListNotations.
#[local] Open Scope list_scope.

Set Implicit Arguments.

(* ================================================================== *)
(** * JavaScript strings                                               *)
(* ================================================================== *)

Definition jsstring := list ascii.

Definition str (s : string) : jsstring := list_ascii_of_string s.

Definition code (c : ascii) : N := N_of_ascii c.

Definition char_eqb (a b : ascii) : bool := Ascii.eqb a b.

Definition between (lo hi : N) (c : ascii) : bool :=
  (lo <=? code c)%N && (code c <=? hi)%N.

(** [\s] below U+0100: TAB, LF, VT, FF, CR, SPACE and NO-BREAK SPACE.
    [trim] strips the same set. *)
Definition isWhiteSpace (c : ascii) : bool :=
  between 9 13 c || (code c =? 32)%N || (code c =? 160)%N.

Definition noSpace (c : ascii) : bool := negb (isWhiteSpace c).

(** [\d] *)
Definition isDigit (c : ascii) : bool := between 48 57 c.

(** [[a-z]] and [[A-Z]] *)
Definition isLower (c : ascii) : bool := between 97 122 c.
Definition isUpper (c : ascii) : bool := between 65 90 c.

Definition hyphen : ascii := "-"%char.
Definition isHyphen (c : ascii) : bool := char_eqb c hyphen.

(** [toLowerCase] on one code unit below U+0100, where it maps code
    unit to code unit: A-Z, and the Latin-1 capitals U+00C0..U+00DE
    except the multiplication sign U+00D7. *)
Definition toLowerChar (c : ascii) : ascii :=
  if isUpper c || (between 192 222 c && negb (code c =? 215)%N)
  then ascii_of_N (code c + 32)
  else c.

Definition toLowerCase (s : jsstring) : jsstring := map toLowerChar s.

Section DropWhile.
Variable A : Type.
Variable p : A -> bool.

Fixpoint dropWhile (s : list A) : list A :=
  match s with
  | [] => []
  | c :: r => if p c then dropWhile r else s
  end.

Definition dropWhileEnd (s : list A) : list A :=
  rev (dropWhile (rev s)).
End DropWhile.

(** [String.prototype.trim] *)
Definition trim (s : jsstring) : jsstring :=
  dropWhileEnd isWhiteSpace (dropWhile isWhiteSpace s).

(** Truthiness of a string: non-empty. *)
Definition truthy (s : jsstring) : bool :=
  match s with [] => false | _ => true end.

(* ================================================================== *)
(** * Regular expressions                                              *)
(* ================================================================== *)

(** The patterns of the source are built from character classes,
    sequencing, alternation and repetition.  [test] on a pattern anchored
    with [^] and [$] (no [m] flag) is a match of the whole string, decided
    here with derivatives. *)

Inductive regex : Type :=
| Void
| Eps
| Class (p : ascii -> bool)
| Seq (r1 r2 : regex)
| Alt (r1 r2 : regex)
| Star (r : regex).

Definition Lit (c : ascii) : regex := Class (char_eqb c).
Definition Plus (r : regex) : regex := Seq r (Star r).
Definition Opt (r : regex) : regex := Alt Eps r.

Fixpoint Rep (n : nat) (r : regex) : regex :=
  match n with
  | O => Eps
  | S k => Seq r (Rep k r)
  end.

Fixpoint nullable (r : regex) : bool :=
  match r with
  | Void => false
  | Eps => true
  | Class _ => false
  | Seq r1 r2 => nullable r1 && nullable r2
  | Alt r1 r2 => nullable r1 || nullable r2
  | Star _ => true
  end.

Fixpoint deriv (c : ascii) (r : regex) : regex :=
  match r with
  | Void => Void
  | Eps => Void
  | Class p => if p c then Eps else Void
  | Seq r1 r2 =>
      if nullable r1
      then Alt (Seq (deriv c r1) r2) (deriv c r2)
      else Seq (deriv c r1) r2
  | Alt r1 r2 => Alt (deriv c r1) (deriv c r2)
  | Star r1 => Seq (deriv c r1) (Star r1)
  end.

Fixpoint matches (r : regex) (s : jsstring) : bool :=
  match s with
  | [] => nullable r
  | c :: s' => matches (deriv c r) s'
  end.

(** [/^r$/.test(s)] *)
Definition test (r : regex) (s : jsstring) : bool := matches r s.

(** The strings a pattern denotes. *)
Inductive lang : regex -> jsstring -> Prop :=
| lang_eps : lang Eps []
| lang_class p c : p c = true -> lang (Class p) [c]
| lang_seq r1 r2 s1 s2 :
    lang r1 s1 -> lang r2 s2 -> lang (Seq r1 r2) (s1 ++ s2)
| lang_alt_l r1 r2 s : lang r1 s -> lang (Alt r1 r2) s
| lang_alt_r r1 r2 s : lang r2 s -> lang (Alt r1 r2) s
| lang_star_nil r : lang (Star r) []
| lang_star_app r s1 s2 :
    lang r s1 -> lang (Star r) s2 -> lang (Star r) (s1 ++ s2).

#[local] Hint Constructors lang : core.

(** A character-wise map that respects every class of a pattern does not
    change whether a string matches. *)
Fixpoint respects (f : ascii -> ascii) (r : regex) : Prop :=
  match r with
  | Void | Eps => True
  | Class p => forall c, p (f c) = p c
  | Seq r1 r2 | Alt r1 r2 => respects f r1 /\ respects f r2
  | Star r1 => respects f r1
  end.

(* ================================================================== *)
(** * slugify                                                          *)
(* ================================================================== *)

(** [[a-z0-9]] *)
Definition isSlugChar (c : ascii) : bool := isLower c || isDigit c.

(** [[^a-z0-9]] *)
Definition notSlugChar (c : ascii) : bool := negb (isSlugChar c).

Section ReplaceRuns.
Variable p : ascii -> bool.
Variable sep : ascii.

(** [s.replace(/[p]+/g, sep)]: the leftmost-longest matches of a
    one-class pattern under [+] are the maximal runs of class
    characters; [in_run] records that the previous character belonged to
    the run being replaced. *)
Fixpoint replaceRuns (in_run : bool) (s : jsstring) : jsstring :=
  match s with
  | [] => []
  | c :: r =>
      if p c
      then (if in_run then replaceRuns true r else sep :: replaceRuns true r)
      else c :: replaceRuns false r
  end.
End ReplaceRuns.

Section RunShape.
Variable p : ascii -> bool.

(** Whether the scan of [x], entered with flag [b], ends inside a run. *)
Definition endsInRun (b : bool) (x : jsstring) : bool :=
  fold_left (fun _ c => p c) x b.

(** The shape of what the scan produces: class characters only occur
    as single hyphens, never two in a row, and not first after a run. *)
Fixpoint hyphenated (b : bool) (s : jsstring) : bool :=
  match s with
  | [] => true
  | c :: r =>
      if p c then isHyphen c && negb b && hyphenated true r
      else hyphenated false r
  end.
End RunShape.

(** [s.replace(/^-+|-+$/g, '')]: the first alternative removes the
    leading run of hyphens, the second the trailing run of what is left. *)
Definition stripHyphens (s : jsstring) : jsstring :=
  dropWhileEnd isHyphen (dropWhile isHyphen s).

(** event.model.ts, [slugify]; [toString] of a string is the string. *)
Definition slugify (title : jsstring) : jsstring :=
  stripHyphens
    (replaceRuns notSlugChar hyphen false
       (toLowerCase (trim title))).

(** The letters A-Z and a-z and the digits 0-9. *)
Definition isAlphanumeric (c : ascii) : bool :=
  isLower c || isUpper c || isDigit c.

(** The specification's wording of the slug, on its own terms: "lower-case
    the title, replace every run of one-or-more non-alphanumeric
    characters with a single hyphen, strip leading/trailing hyphens".
    Each of the three steps is stated as a relation between the text
    before and after it; nothing here is shared with [slugify]. *)
Module SlugReference.

(** Alphanumeric: a digit 0-9 or a letter A-Z or a-z, the characters of
    an URL-safe identifier. *)
Definition alphanumeric (c : ascii) : bool :=
  let n := N_of_ascii c in
  ((48 <=? n) && (n <=? 57) || (65 <=? n) && (n <=? 90)
   || (97 <=? n) && (n <=? 122))%N.

(** The capital letters below U+0100: A-Z, and U+00C0..U+00DE without
    the multiplication sign U+00D7. *)
Definition capital (c : ascii) : bool :=
  let n := N_of_ascii c in
  ((65 <=? n) && (n <=? 90)
   || (192 <=? n) && (n <=? 222) && negb (n =? 215))%N.

(** Lower-casing: the small letter of a capital lies 32 code points
    above it; every other character is kept. *)
Definition lowerCased (c : ascii) : ascii :=
  if capital c then ascii_of_N (N_of_ascii c + 32) else c.

(** A run of one or more non-alphanumeric characters. *)
Definition isRun (run : jsstring) : Prop :=
  run <> [] /\ Forall (fun c => alphanumeric c = false) run.

(** The text after a run does not continue it. *)
Definition endsRun (rest : jsstring) : Prop :=
  match rest with
  | [] => True
  | c :: _ => alphanumeric c = true
  end.

(** [RunsReplaced s u]: [u] is [s] with every run of one or more
    non-alphanumeric characters replaced by a single hyphen, and the
    alphanumeric characters kept. *)
Inductive RunsReplaced : jsstring -> jsstring -> Prop :=
| replaced_nil : RunsReplaced [] []
| replaced_keep (c : ascii) (s u : jsstring) :
    alphanumeric c = true ->
    RunsReplaced s u -> RunsReplaced (c :: s) (c :: u)
| replaced_run (run rest u : jsstring) :
    isRun run -> endsRun rest ->
    RunsReplaced rest u -> RunsReplaced (run ++ rest) ("-"%char :: u).

Definition hyphens (s : jsstring) : Prop :=
  Forall (fun c => c = "-"%char) s.

(** [Stripped s slug]: [slug] is [s] without its leading and trailing
    hyphens. *)
Definition Stripped (s slug : jsstring) : Prop :=
  exists leading trailing,
    s = leading ++ slug ++ trailing
    /\ hyphens leading /\ hyphens trailing
    /\ (forall r, slug <> "-"%char :: r)
    /\ (forall r, slug <> r ++ ["-"%char]).

(** The reference definition of the slug of a title. *)
Definition slugify_reference (title slug : jsstring) : Prop :=
  exists replaced,
    RunsReplaced (map lowerCased title) replaced
    /\ Stripped replaced slug.

End SlugReference.

(** On a lower-cased text the class [[^a-z0-9]] of the code is the
    class of the non-alphanumeric characters. *)
Definition classesAgree (s : jsstring) : Prop :=
  Forall (fun c => notSlugChar c = negb (SlugReference.alphanumeric c)) s.

(* ================================================================== *)
(** * Numbers and their decimal rendering                              *)
(* ================================================================== *)

(** The numbers handled by the source are integers; they are modelled
    in [Z]. *)

Definition digitChar (d : Z) : ascii := ascii_of_N (Z.to_N (48 + d)).
Definition digitVal (c : ascii) : Z := Z.of_N (code c) - 48.

(** [Number(s)] for a string of decimal digits. *)
Definition Number (s : jsstring) : Z :=
  fold_left (fun acc c => acc * 10 + digitVal c)%Z s 0%Z.

(** Always true on the integers of this model. *)
Definition Number_isInteger (n : Z) : bool := true.

Fixpoint toDigits (fuel : nat) (n : Z) (acc : jsstring) : jsstring :=
  match fuel with
  | O => acc
  | S f =>
      let acc' := digitChar (n mod 10) :: acc in
      if (n / 10 =? 0)%Z then acc' else toDigits f (n / 10) acc'
  end.

(** [Number.prototype.toString()] on an integer. *)
Definition toString (n : Z) : jsstring :=
  if (n <? 0)%Z
  then hyphen :: toDigits (S (Z.to_nat (Z.log2 (- n)))) (- n) []
  else toDigits (S (Z.to_nat (Z.log2 n))) n [].

(** [String.prototype.padStart(w, fill)] with a one-character filler. *)
Definition padStart (w : nat) (fill : ascii) (s : jsstring) : jsstring :=
  repeat fill (w - length s) ++ s.

Definition zero : ascii := "0"%char.
Definition dquote : ascii := ascii_of_N 34.
Definition quoted (s : jsstring) : jsstring := dquote :: s ++ [dquote].

(* ================================================================== *)
(** * Errors                                                           *)
(* ================================================================== *)

(** [new Error(message)] *)
Inductive Error : Type := MkError (message : jsstring).

Inductive result (A : Type) : Type :=
| Ok (a : A)
| Throw (e : Error).

Arguments Ok {A} a.
Arguments Throw {A} e.

Definition isOk {A} (r : result A) : bool :=
  match r with Ok _ => true | Throw _ => false end.

(* ================================================================== *)
(** * normalizeTime                                                    *)
(* ================================================================== *)

Definition colon : ascii := ":"%char.

(** [/^(\d{1,2}):(\d{2})$/] *)
Definition timePattern : regex :=
  Seq (Seq (Class isDigit) (Opt (Class isDigit)))
      (Seq (Lit colon) (Rep 2 (Class isDigit))).

Section Span.
Variable p : ascii -> bool.

Fixpoint takeWhile (s : jsstring) : jsstring :=
  match s with
  | [] => []
  | c :: r => if p c then c :: takeWhile r else []
  end.
End Span.

(** [timePattern.exec(s)]: on a match the two groups are the digits on
    either side of the colon. *)
Definition exec_timePattern (s : jsstring) : option (jsstring * jsstring) :=
  if test timePattern s
  then
    let g1 := takeWhile isDigit s in
    Some (g1, skipn (S (length g1)) s)
  else None.

(** The specification's reading of a time: an hour of one or two digits,
    a colon, a minute of exactly two digits. *)
Definition TimeShape (t hs ms : jsstring) : Prop :=
  t = hs ++ colon :: ms
  /\ (length hs = 1 \/ length hs = 2)
  /\ length ms = 2
  /\ forallb isDigit hs = true
  /\ forallb isDigit ms = true.

(** The zero-padded rendering [HH:mm] of an hour and a minute. *)
Definition HHmm (h m : Z) : jsstring :=
  [digitChar (h / 10); digitChar (h mod 10); colon;
   digitChar (m / 10); digitChar (m mod 10)]%Z.

(** event.model.ts, [normalizeTime] *)
Definition normalizeTime (value : jsstring) : result jsstring :=
  let trimmed := trim value in
  if negb (truthy trimmed) then
    Throw (MkError (str "Time is required and cannot be empty."))
  else
    match exec_timePattern trimmed with
    | None =>
        Throw (MkError (str "Invalid time format (expected HH:mm): "
                          ++ quoted value ++ str "."))
    | Some (m1, m2) =>
        let hours := Number m1 in
        let minutes := Number m2 in
        if negb (Number_isInteger hours)
           || negb (Number_isInteger minutes)
           || (hours <? 0)%Z
           || (hours >? 23)%Z
           || (minutes <? 0)%Z
           || (minutes >? 59)%Z
        then
          Throw (MkError (str "Invalid time value: " ++ quoted value ++ str "."))
        else
          let hh := padStart 2 zero (toString hours) in
          let mm := padStart 2 zero (toString minutes) in
          Ok (hh ++ [colon] ++ mm)
    end.

(* ================================================================== *)
(** * Dates                                                            *)
(* ================================================================== *)

Open Scope Z_scope.

(** A time value is a number of milliseconds since the epoch. *)
Definition msPerDay : Z := 86400000.

Definition Day (t : Z) : Z := t / msPerDay.
Definition TimeWithinDay (t : Z) : Z := t mod msPerDay.

(** Within a 400-year era that starts on 1 March: the year of the era a
    day falls in, the day a year starts on, and the month and day of the
    month of a day of the year. *)
Definition yearOfEra (doe : Z) : Z :=
  (doe - doe / 1460 + doe / 36524 - doe / 146096) / 365.

Definition yearStart (yoe : Z) : Z := 365 * yoe + yoe / 4 - yoe / 100.

Definition monthDay (doy : Z) : Z * Z :=
  let mp := (5 * doy + 2) / 153 in
  (if mp <? 10 then mp + 3 else mp - 9, doy - (153 * mp + 2) / 5 + 1).

(** Proleptic Gregorian date of a day number (days since 1970-01-01):
    year, month 1..12, day 1..31.  [YearFromTime], [MonthFromTime] (from 1
    here) and [DateFromTime] of a time value are read off it. *)
Definition civilFromDays (z : Z) : Z * Z * Z :=
  let z := z + 719468 in
  let era := z / 146097 in
  let doe := z mod 146097 in
  let yoe := yearOfEra doe in
  let '(m, d) := monthDay (doe - yearStart yoe) in
  (yoe + era * 400 + (if m <=? 2 then 1 else 0), m, d).

(** Day number of a proleptic Gregorian date. *)
Definition daysFromCivil (y m d : Z) : Z :=
  let y := if m <=? 2 then y - 1 else y in
  let era := y / 400 in
  let yoe := y mod 400 in
  let doy := (153 * (if 2 <? m then m - 3 else m + 9) + 2) / 5 + d - 1 in
  let doe := yoe * 365 + yoe / 4 - yoe / 100 + doy in
  era * 146097 + doe - 719468.

Definition YearFromTime (t : Z) : Z := fst (fst (civilFromDays (Day t))).
Definition MonthFromTime (t : Z) : Z := snd (fst (civilFromDays (Day t))).
Definition DateFromTime (t : Z) : Z := snd (civilFromDays (Day t)).
Definition HourFromTime (t : Z) : Z := TimeWithinDay t / 3600000.
Definition MinFromTime (t : Z) : Z := (TimeWithinDay t / 60000) mod 60.
Definition SecFromTime (t : Z) : Z := (TimeWithinDay t / 1000) mod 60.
Definition msFromTime (t : Z) : Z := TimeWithinDay t mod 1000.

Definition pad (w : nat) (n : Z) : jsstring := padStart w zero (toString n).

(** The year of an ISO timestamp: four digits for 0..9999, otherwise a
    sign and six digits. *)
Definition isoYear (y : Z) : jsstring :=
  if (0 <=? y) && (y <=? 9999) then pad 4 y
  else (if y <? 0 then "-"%char else "+"%char) :: pad 6 (Z.abs y).

(** [Date.prototype.toISOString] of a valid time value. *)
Definition toISOString (t : Z) : jsstring :=
  (isoYear (YearFromTime t) ++ [hyphen] ++ pad 2 (MonthFromTime t)
    ++ [hyphen] ++ pad 2 (DateFromTime t)
    ++ str "T" ++ pad 2 (HourFromTime t)
    ++ [colon] ++ pad 2 (MinFromTime t)
    ++ [colon] ++ pad 2 (SecFromTime t)
    ++ str "." ++ pad 3 (msFromTime t) ++ str "Z")%list.

(** [s.slice(0, n)] for [0 <= n] *)
Definition slice0 (n : nat) (s : jsstring) : jsstring := firstn n s.

(** [/^\d{4}-\d{2}-\d{2}$/] *)
Definition isoDatePattern : regex :=
  Seq (Rep 4 (Class isDigit))
      (Seq (Lit hyphen)
           (Seq (Rep 2 (Class isDigit))
                (Seq (Lit hyphen) (Rep 2 (Class isDigit))))).

(** [p] holds on the [n] integers from [z] on; used to check
    calendar facts over one 400-year era. *)
Fixpoint holdsFrom (p : Z -> bool) (n : nat) (z : Z) : bool :=
  match n with
  | O => true
  | S k => p z && holdsFrom p k (z + 1)
  end.

(** The specification's reading of [YYYY-MM-DD]: four digits, a hyphen,
    two digits, a hyphen, two digits. *)
Definition IsoDateShape (t : jsstring) : Prop :=
  exists y m d,
    t = y ++ hyphen :: m ++ hyphen :: d
    /\ length y = 4%nat /\ length m = 2%nat /\ length d = 2%nat
    /\ forallb isDigit y = true
    /\ forallb isDigit m = true
    /\ forallb isDigit d = true.

(** The UTC calendar date of a time value, written [YYYY-MM-DD]. *)
Definition utcDate (t : Z) : jsstring :=
  (pad 4 (YearFromTime t) ++ [hyphen] ++ pad 2 (MonthFromTime t)
    ++ [hyphen] ++ pad 2 (DateFromTime t))%list.

Section NormalizeDate.
(** [new Date(s).getTime()]: the host's date parser, [None] for NaN.
    What it accepts beyond the ISO format, and the zone it reads a
    zoneless date in, depend on the host. *)
Variable Date_parse : jsstring -> option Z.

(** event.model.ts, [normalizeDate] *)
Definition normalizeDate (value : jsstring) : result jsstring :=
  let trimmed := trim value in
  if negb (truthy trimmed) then
    Throw (MkError (str "Date is required and cannot be empty."))
  else if test isoDatePattern trimmed then
    Ok trimmed
  else
    match Date_parse trimmed with
    | None =>
        Throw (MkError (str "Invalid date format: " ++ quoted value ++ str "."))
    | Some parsed => Ok (slice0 10 (toISOString parsed))
    end.
End NormalizeDate.

Definition isLetter (c : ascii) : bool := isLower c || isUpper c.

Fixpoint jsstring_eqb (a b : jsstring) : bool :=
  match a, b with
  | [], [] => true
  | x :: a', y :: b' => char_eqb x y && jsstring_eqb a' b'
  | _, _ => false
  end.

Definition monthNames : list jsstring :=
  map str ["jan"; "feb"; "mar"; "apr"; "may"; "jun";
           "jul"; "aug"; "sep"; "oct"; "nov"; "dec"]%string.

Fixpoint indexFrom (i : Z) (x : jsstring) (l : list jsstring) : option Z :=
  match l with
  | [] => None
  | y :: r => if jsstring_eqb x y then Some i else indexFrom (i + 1) x r
  end.

Definition maxTimeValue : Z := 8640000000000000.

Definition TimeClip (t : Z) : option Z :=
  if Z.abs t <=? maxTimeValue then Some t else None.

(** A host date parser in the style of the V8 engine, restricted to
    dates written [Mon D, YYYY]: the month is recognised by its first
    three letters, the date is read as midnight local time, and
    [offsetMinutes] is the local zone's offset east of UTC.  It stands for
    [Date_parse] where [normalizeDate] is evaluated on a concrete host. *)
Definition hostDateParse (offsetMinutes : Z) (s : jsstring) : option Z :=
  let name := takeWhile isLetter s in
  match indexFrom 1 (toLowerCase (firstn 3 name)) monthNames with
  | None => None
  | Some m =>
      match skipn (length name) s with
      | sp :: r1 =>
          let ds := takeWhile isDigit r1 in
          match ds, skipn (length ds) r1 with
          | _ :: _, comma :: sp' :: r2 =>
              let ys := takeWhile isDigit r2 in
              match ys, skipn (length ys) r2 with
              | _ :: _, [] =>
                  let d := Number ds in
                  if char_eqb sp " " && char_eqb comma "," && char_eqb sp' " "
                     && (1 <=? d) && (d <=? 31)
                  then TimeClip (daysFromCivil (Number ys) m d * msPerDay
                                 - offsetMinutes * 60000)
                  else None
              | _, _ => None
              end
          | _, _ => None
          end
      | [] => None
      end
  end.

Close Scope Z_scope.

(* ================================================================== *)
(** * The Event model                                                  *)
(* ================================================================== *)

(** event.model.ts, [interface Event] *)
Record Event : Type := {
  title : jsstring;
  slug : jsstring;
  description : jsstring;
  overview : jsstring;
  image : jsstring;
  venue : jsstring;
  location : jsstring;
  date : jsstring;
  time : jsstring;
  mode : jsstring;
  audience : jsstring;
  agenda : list jsstring;
  organizer : jsstring;
  tags : list jsstring;
  createdAt : Z;
  updatedAt : Z
}.

(** A hydrated document: the field values and the paths modified since
    the document was loaded or last saved ([isModified]). *)
Record EventDocument : Type := {
  doc : Event;
  modifiedPaths : list string
}.

Definition isModified (path : string) (this : EventDocument) : bool :=
  existsb (String.eqb path) (modifiedPaths this).

Definition with_slug (v : jsstring) (e : Event) : Event :=
  {| title := title e; slug := v; description := description e;
     overview := overview e; image := image e; venue := venue e;
     location := location e; date := date e; time := time e;
     mode := mode e; audience := audience e; agenda := agenda e;
     organizer := organizer e; tags := tags e;
     createdAt := createdAt e; updatedAt := updatedAt e |}.

Definition with_date (v : jsstring) (e : Event) : Event :=
  {| title := title e; slug := slug e; description := description e;
     overview := overview e; image := image e; venue := venue e;
     location := location e; date := v; time := time e;
     mode := mode e; audience := audience e; agenda := agenda e;
     organizer := organizer e; tags := tags e;
     createdAt := createdAt e; updatedAt := updatedAt e |}.

Definition with_time (v : jsstring) (e : Event) : Event :=
  {| title := title e; slug := slug e; description := description e;
     overview := overview e; image := image e; venue := venue e;
     location := location e; date := date e; time := v;
     mode := mode e; audience := audience e; agenda := agenda e;
     organizer := organizer e; tags := tags e;
     createdAt := createdAt e; updatedAt := updatedAt e |}.

(** Assignment to a path of the document.  The three paths assigned by
    the hook are declared [trim: true], so the schema's setter trims the
    value; the path is marked modified when the stored value changes. *)
Definition assign (path : string) (get : Event -> jsstring)
    (put : jsstring -> Event -> Event) (v : jsstring)
    (this : EventDocument) : EventDocument :=
  let v' := trim v in
  {| doc := put v' (doc this);
     modifiedPaths :=
       if jsstring_eqb v' (get (doc this)) then modifiedPaths this
       else path :: modifiedPaths this |}.

Definition set_slug := assign "slug" slug with_slug.
Definition set_date := assign "date" date with_date.
Definition set_time := assign "time" time with_time.

Section EventPreSave.
Variable Date_parse : jsstring -> option Z.

(** event.model.ts, [eventSchema.pre('save')]: the document as the hook
    leaves it, and what is passed to [next]. *)
Definition event_pre_save (this : EventDocument)
  : EventDocument * result unit :=
  let this1 :=
    if isModified "title" this
    then set_slug (slugify (title (doc this))) this
    else this in
  match normalizeDate Date_parse (date (doc this1)) with
  | Throw error => (this1, Throw error)
  | Ok d =>
      let this2 := set_date d this1 in
      match normalizeTime (time (doc this2)) with
      | Throw error => (this2, Throw error)
      | Ok t => (set_time t this2, Ok tt)
      end
  end.
End EventPreSave.

(* ================================================================== *)
(** * The Booking model                                                *)
(* ================================================================== *)

Module BookingModel.

Definition ObjectId : Type := N.

(** booking.model.ts, [interface Booking] *)
Record Booking : Type := {
  eventId : ObjectId;
  email : jsstring;
  createdAt : Z;
  updatedAt : Z
}.

Record BookingDocument : Type := {
  doc : Booking;
  modifiedPaths : list string
}.

Definition isModified (path : string) (this : BookingDocument) : bool :=
  existsb (String.eqb path) (modifiedPaths this).

Definition at_sign : ascii := "@"%char.
Definition dot : ascii := "."%char.

(** [[^\s@]] *)
Definition notSpaceAt (c : ascii) : bool :=
  negb (isWhiteSpace c || char_eqb c at_sign).

(** [/^[^\s@]+@[^\s@]+\.[^\s@]+$/] *)
Definition emailRegex : regex :=
  Seq (Plus (Class notSpaceAt))
      (Seq (Lit at_sign)
           (Seq (Plus (Class notSpaceAt))
                (Seq (Lit dot) (Plus (Class notSpaceAt))))).

(** The specification's reading of an address: a non-empty local part,
    an at sign, a domain, a dot and a suffix, none of them holding white
    space or a further at sign. *)
Definition EmailShape (s : jsstring) : Prop :=
  exists local domain suffix,
    s = local ++ at_sign :: domain ++ dot :: suffix
    /\ local <> [] /\ domain <> [] /\ suffix <> []
    /\ forallb notSpaceAt local = true
    /\ forallb notSpaceAt domain = true
    /\ forallb notSpaceAt suffix = true.

(** The [email] path is declared [trim: true, lowercase: true]: both
    setters run when a value is assigned, the later declared first. *)
Definition email_setter (value : jsstring) : jsstring :=
  trim (toLowerCase value).

(** Validation of the stored [email]: [required: true], then the
    declared validator [emailRegex.test(value)]. *)
Definition email_validate (value : jsstring) : result unit :=
  if negb (truthy value) then
    Throw (MkError (str "Path `email` is required."))
  else if test emailRegex value then Ok tt
  else Throw (MkError (str "Invalid email address.")).

(** What the model stores for a submitted email, or the validation
    failure. *)
Definition email_accept (input : jsstring) : result jsstring :=
  let value := email_setter input in
  match email_validate value with
  | Ok _ => Ok value
  | Throw error => Throw error
  end.

(** The Event collection as the hook sees it: the identities of the
    stored events, and whether queries can be served ([bufferCommands]
    is off, so a query on a closed connection fails at once). *)
Record Storage : Type := {
  connected : bool;
  events : list ObjectId
}.

(** Stands for the driver's error on a query without a connection. *)
Definition notConnected : Error :=
  MkError (str "Cannot query before initial connection is complete.").

(** [EventModel.exists({ _id })] *)
Definition EventModel_exists (db : Storage) (id : ObjectId) : result bool :=
  if connected db then Ok (existsb (N.eqb id) (events db))
  else Throw notConnected.

Definition deleteEvent (id : ObjectId) (db : Storage) : Storage :=
  {| connected := connected db;
     events := filter (fun e => negb (N.eqb id e)) (events db) |}.

(** The failure the specification calls [ReferenceNotFound]. *)
Definition ReferenceNotFound : Error :=
  MkError (str "Cannot create booking: referenced event does not exist.").

(** booking.model.ts, [bookingSchema.pre('save')]: what is passed to
    [next]. *)
Definition booking_pre_save (db : Storage) (this : BookingDocument)
  : result unit :=
  if negb (isModified "eventId" this) then Ok tt
  else
    match EventModel_exists db (eventId (doc this)) with
    | Throw error => Throw error
    | Ok eventExists =>
        if negb eventExists then Throw ReferenceNotFound
        else Ok tt
    end.

(** [new BookingModel({ eventId, email })]: every given path is new. *)
Definition create (id : ObjectId) (input : jsstring) : BookingDocument :=
  {| doc := {| eventId := id; email := email_setter input;
               createdAt := 0; updatedAt := 0 |};
     modifiedPaths := ["eventId"; "email"]%string |}.

Definition set_email (input : jsstring) (this : BookingDocument)
  : BookingDocument :=
  let v := email_setter input in
  {| doc := {| eventId := eventId (doc this); email := v;
               createdAt := createdAt (doc this);
               updatedAt := updatedAt (doc this) |};
     modifiedPaths :=
       if jsstring_eqb v (email (doc this)) then modifiedPaths this
       else "email"%string :: modifiedPaths this |}.

Definition set_eventId (id : ObjectId) (this : BookingDocument)
  : BookingDocument :=
  {| doc := {| eventId := id; email := email (doc this);
               createdAt := createdAt (doc this);
               updatedAt := updatedAt (doc this) |};
     modifiedPaths :=
       if N.eqb id (eventId (doc this)) then modifiedPaths this
       else "eventId"%string :: modifiedPaths this |}.

(** [booking.save()]: validation, then the pre-save hook, then the
    write; a saved document has no modified path left.  Timestamps
    are left out of the model. *)
Definition save (db : Storage) (this : BookingDocument)
  : result BookingDocument :=
  match email_validate (email (doc this)) with
  | Throw error => Throw error
  | Ok _ =>
      match booking_pre_save db this with
      | Throw error => Throw error
      | Ok _ =>
          if connected db
          then Ok {| doc := doc this; modifiedPaths := [] |}
          else Throw notConnected
      end
  end.

End BookingModel.

(* ================================================================== *)
(** * The connection cache                                             *)
(* ================================================================== *)

(** [connectToDatabase] is an async function with one [await].  An
    activation runs from the call to the [await] without interruption,
    is suspended until the awaited promise is settled, and then runs to
    its end; in between, other activations and the driver run.  The two
    parts are the functions [connectToDatabase_call] and
    [connectToDatabase_resume] on the shared state; [fire] lets calls,
    settlements and resumptions happen in any order, which covers every
    order the event loop can produce. *)

Module Connection.
Section Cache.

(** [typeof mongoose], and the imported [mongoose] instance: what the
    promise of [mongoose.connect] resolves to when the attempt succeeds. *)
Variable Mongoose : Type.
Variable mongoose : Mongoose.

(** Promises returned by [mongoose.connect(MONGODB_URI, ...)], numbered
    in the order of the calls. *)
Definition PromiseId : Type := nat.

Inductive PromiseState : Type :=
| Pending
| Fulfilled (m : Mongoose)
| Rejected (error : Error).

(** [type MongooseCache] *)
Record MongooseCache : Type := {
  conn : option Mongoose;
  promise : option PromiseId
}.

(** The process-wide state: [cached] and the promises of the attempts
    made so far. *)
Record Heap : Type := {
  cached : MongooseCache;
  promises : list PromiseState
}.

Definition initial : Heap :=
  {| cached := {| conn := None; promise := None |}; promises := [] |}.

(** Number of calls of [mongoose.connect] so far. *)
Definition attempts (h : Heap) : nat := length (promises h).

(** An activation of [connectToDatabase]: suspended at the [await],
    or finished. *)
Inductive Caller : Type :=
| Awaiting (p : PromiseId)
| Returned (m : Mongoose)
| Threw (error : Error).

(** [connectToDatabase], from the call to the [await] (lines 55-71):
    the synchronous part of the activation. *)
Definition connectToDatabase_call (h : Heap) : Heap * Caller :=
  match conn (cached h) with
  | Some c => (h, Returned c)
  | None =>
      match promise (cached h) with
      | Some p => (h, Awaiting p)
      | None =>
          let p := length (promises h) in
          ({| cached := {| conn := None; promise := Some p |};
              promises := promises h ++ [Pending] |},
           Awaiting p)
      end
  end.

(** [connectToDatabase], from the [await] on (lines 71-78): runs once
    the awaited promise is settled; [None] while it is pending. *)
Definition connectToDatabase_resume (h : Heap) (p : PromiseId)
  : option (Heap * Caller) :=
  match nth_error (promises h) p with
  | Some (Fulfilled m) =>
      Some ({| cached := {| conn := Some m; promise := promise (cached h) |};
               promises := promises h |},
            Returned m)
  | Some (Rejected error) =>
      Some ({| cached := {| conn := conn (cached h); promise := None |};
               promises := promises h |},
            Threw error)
  | Some Pending | None => None
  end.

Fixpoint update {A : Type} (i : nat) (x : A) (l : list A) : list A :=
  match l, i with
  | [], _ => []
  | _ :: r, O => x :: r
  | y :: r, S k => y :: update k x r
  end.

Inductive Outcome : Type :=
| Success
| Failure (error : Error).

Definition settled (o : Outcome) : PromiseState :=
  match o with
  | Success => Fulfilled mongoose
  | Failure error => Rejected error
  end.

(** What can happen next in the process: a new call, the driver
    settling a pending attempt, a suspended caller resuming. *)
Inductive action : Type :=
| Call
| Settle (p : PromiseId) (o : Outcome)
| Resume (i : nat).

Record System : Type := {
  heap : Heap;
  callers : list Caller
}.

Definition start : System := {| heap := initial; callers := [] |}.

Definition fire (s : System) (a : action) : option System :=
  match a with
  | Call =>
      let (h, c) := connectToDatabase_call (heap s) in
      Some {| heap := h; callers := callers s ++ [c] |}
  | Settle p o =>
      match nth_error (promises (heap s)) p with
      | Some Pending =>
          Some {| heap := {| cached := cached (heap s);
                             promises := update p (settled o)
                                                (promises (heap s)) |};
                  callers := callers s |}
      | _ => None
      end
  | Resume i =>
      match nth_error (callers s) i with
      | Some (Awaiting p) =>
          match connectToDatabase_resume (heap s) p with
          | Some (h, c) =>
              Some {| heap := h; callers := update i c (callers s) |}
          | None => None
          end
      | _ => None
      end
  end.

Fixpoint run (s : System) (l : list action) : option System :=
  match l with
  | [] => Some s
  | a :: r =>
      match fire s a with
      | Some s' => run s' r
      | None => None
      end
  end.

(** Every fulfilled attempt delivered the [mongoose] instance, and so
    did whatever [cached.conn] holds. *)
Definition delivered (h : Heap) : Prop :=
  (forall p m, nth_error (promises h) p = Some (Fulfilled m) -> m = mongoose)
  /\ (forall m, conn (cached h) = Some m -> m = mongoose).

(** Without a successful attempt there is no connection. *)
Definition neverSucceeded (s : System) : Prop :=
  conn (cached (heap s)) = None
  /\ forall p m, nth_error (promises (heap s)) p <> Some (Fulfilled m).

Definition isSuccess (a : action) : bool :=
  match a with
  | Settle _ Success => true
  | _ => false
  end.

End Cache.
End Connection.

(* ================================================================== *)
(** * Validators of the Event schema                                   *)
(* ================================================================== *)

(** The values a validator can be handed: a string, an array, or
    anything else ([undefined], a number, an object).  A slot of an array
    holds a string or another value, or is empty (a hole of a sparse
    array, which [every] skips without calling its test). *)
Inductive JsItem : Type :=
| IString (s : jsstring)
| IOther
| IHole.

Inductive JsValue : Type :=
| JString (s : jsstring)
| JArray (items : list JsItem)
| JOther.

(** event.model.ts, [nonEmptyStringValidator.validator]:
    [typeof value === 'string' && value.trim().length > 0] *)
Definition nonEmptyStringValidator (value : JsValue) : bool :=
  match value with
  | JString s => 0 <? length (trim s)
  | _ => false
  end.

(** event.model.ts, the [validate.validator] of [agenda]:
    [Array.isArray(value) && value.length > 0 && value.every(...)],
    where the test of an item is the one of a string field. *)
Definition agendaValidator (value : JsValue) : bool :=
  match value with
  | JArray items =>
      (0 <? length items)
      && forallb
           (fun item =>
              match item with
              | IString s => 0 <? length (trim s)
              | IOther => false
              | IHole => true
              end)
           items
  | _ => false
  end.

(** event.model.ts, the [validate.validator] of [tags]: the same test. *)
Definition tagsValidator (value : JsValue) : bool :=
  match value with
  | JArray items =>
      (0 <? length items)
      && forallb
           (fun item =>
              match item with
              | IString s => 0 <? length (trim s)
              | IOther => false
              | IHole => true
              end)
           items
  | _ => false
  end.

(** A new event document as a form would submit it, for evaluating the
    hook: every given path is new. *)
Definition sampleEvent (dateInput timeInput : jsstring) : EventDocument :=
  {| doc := {| title := str "React Conf 2024"; slug := [];
               description := str "A conference";
               overview := str "Talks and workshops";
               image := str "/images/react.png";
               venue := str "Main hall"; location := str "Dakar";
               date := dateInput; time := timeInput;
               mode := str "offline"; audience := str "developers";
               agenda := [str "Keynote"]; organizer := str "DevEvent";
               tags := [str "react"]; createdAt := 0; updatedAt := 0 |};
     modifiedPaths := ["title"; "description"; "overview"; "image"; "venue";
                       "location"; "date"; "time"; "mode"; "audience";
                       "agenda"; "organizer"; "tags"]%string |}.

(** The fields of an event other than [slug], [date] and [time]. *)
Definition sameOtherFields (e e' : Event) : Prop :=
  title e' = title e
  /\ description e' = description e
  /\ overview e' = overview e
  /\ image e' = image e
  /\ venue e' = venue e
  /\ location e' = location e
  /\ mode e' = mode e
  /\ audience e' = audience e
  /\ agenda e' = agenda e
  /\ organizer e' = organizer e
  /\ tags e' = tags e
  /\ createdAt e' = createdAt e
  /\ updatedAt e' = updatedAt e.

(* ================================================================== *)
(** * Counting along a trace of the connection cache                   *)
(* ================================================================== *)

(** An activation that has ended by throwing. *)
Definition hasThrown {Mongoose : Type} (c : Connection.Caller Mongoose)
  : bool :=
  match c with
  | Connection.Threw _ _ => true
  | _ => false
  end.

(** Number of activations that have thrown so far. *)
Definition failures {Mongoose : Type} (s : Connection.System Mongoose)
  : nat :=
  length (filter hasThrown (Connection.callers s)).

Definition isCall (a : Connection.action) : bool :=
  match a with
  | Connection.Call => true
  | _ => false
  end.

Definition isFailure (a : Connection.action) : bool :=
  match a with
  | Connection.Settle _ (Connection.Failure _) => true
  | _ => false
  end.

(** The attempts made so far, counting the one the next call would
    start when the slot is empty, are at most one more than the
    activations that have thrown. *)
Definition attemptBudget {Mongoose : Type} (s : Connection.System Mongoose)
  : Prop :=
  Connection.attempts (Connection.heap s)
  + match Connection.promise (Connection.cached (Connection.heap s)) with
    | None => 1
    | Some _ => 0
    end
  <= 1 + failures s.

(** What the callers hold is what the attempts gave: a caller that
    returned holds the [mongoose] instance, which is then cached; a
    caller that threw holds the rejection of an attempt; a suspended
    caller and the slot [cached.promise] refer to attempts that were
    made; and [cached.conn] is set only after an attempt was fulfilled. *)
Definition faithful {Mongoose : Type} (mongoose : Mongoose)
    (s : Connection.System Mongoose) : Prop :=
  let h := Connection.heap s in
  (forall i m,
      nth_error (Connection.callers s) i = Some (Connection.Returned m) ->
      m = mongoose
      /\ Connection.conn (Connection.cached h) = Some mongoose)
  /\ (forall i e,
        nth_error (Connection.callers s) i
        = Some (Connection.Threw Mongoose e) ->
        exists p, nth_error (Connection.promises h) p
                  = Some (Connection.Rejected Mongoose e))
  /\ (forall i p,
        nth_error (Connection.callers s) i
        = Some (Connection.Awaiting Mongoose p) ->
        p < Connection.attempts h)
  /\ (forall p,
        Connection.promise (Connection.cached h) = Some p ->
        p < Connection.attempts h)
  /\ (forall m,
        Connection.conn (Connection.cached h) = Some m ->
        m = mongoose
        /\ exists p, nth_error (Connection.promises h) p
                     = Some (Connection.Fulfilled mongoose))
  /\ (forall p m,
        nth_error (Connection.promises h) p = Some (Connection.Fulfilled m) ->
        m = mongoose).

(* ================================================================== *)
(** * Callers of the first attempt                                     *)
(* ================================================================== *)

(** What a caller ends with when the attempt it awaited is settled. *)
Definition outcomeOf {Mongoose : Type} (mongoose : Mongoose)
    (o : Connection.Outcome) : Connection.Caller Mongoose :=
  match o with
  | Connection.Success => Connection.Returned mongoose
  | Connection.Failure error => Connection.Threw Mongoose error
  end.

(** The cache once the first attempt is settled with [o] and the callers
    [resumed] have resumed: untouched while nobody has, and from the
    first resumption on holding the connection, or cleared. *)
Definition cacheAfter {Mongoose : Type} (mongoose : Mongoose)
    (o : Connection.Outcome) (resumed : list nat)
  : Connection.MongooseCache Mongoose :=
  match resumed, o with
  | [], _ => {| Connection.conn := None; Connection.promise := Some 0 |}
  | _ :: _, Connection.Success =>
      {| Connection.conn := Some mongoose; Connection.promise := Some 0 |}
  | _ :: _, Connection.Failure _ =>
      {| Connection.conn := None; Connection.promise := None |}
  end.

(** [S n] callers have called before the first attempt was settled with
    [o], and those of [resumed] have resumed since: one attempt has been
    made, every caller that has resumed holds its outcome, and the others
    still await it. *)
Definition firstCallers {Mongoose : Type} (mongoose : Mongoose) (n : nat)
    (o : Connection.Outcome) (resumed : list nat)
    (s : Connection.System Mongoose) : Prop :=
  Connection.promises (Connection.heap s) = [Connection.settled mongoose o]
  /\ Connection.cached (Connection.heap s) = cacheAfter mongoose o resumed
  /\ length (Connection.callers s) = S n
  /\ (forall i, In i resumed ->
        nth_error (Connection.callers s) i = Some (outcomeOf mongoose o))
  /\ (forall i, i < S n -> ~ In i resumed ->
        nth_error (Connection.callers s) i
        = Some (Connection.Awaiting Mongoose 0)).
(* ================================================================== *)
(** * Properties                                                       *)
(* ================================================================== *)

Unset Implicit Arguments.

(* ================================================================== *)
(** * Characters                                                       *)
(* ================================================================== *)

(** A statement about one character is settled on the 256 of them. *)
Ltac all_chars c :=
  destruct c as [[] [] [] [] [] [] [] []];
  vm_compute; try reflexivity; try discriminate; auto.

Lemma lower_alnum_is_slug (c : ascii) :
  isAlphanumeric (toLowerChar c) = isSlugChar (toLowerChar c).
Proof. all_chars c. Qed.

Lemma lower_ws (c : ascii) : isWhiteSpace (toLowerChar c) = isWhiteSpace c.
Proof. all_chars c. Qed.

Lemma ws_not_slug (c : ascii) : isWhiteSpace c = true -> notSlugChar c = true.
Proof. all_chars c. Qed.

Lemma hyphen_not_slug (c : ascii) : isHyphen c = true -> notSlugChar c = true.
Proof. all_chars c. Qed.

Lemma slug_lower_fixed (c : ascii) :
  notSlugChar c = false -> toLowerChar c = c.
Proof. all_chars c. Qed.

Lemma hyphen_lower_fixed (c : ascii) : isHyphen c = true -> toLowerChar c = c.
Proof. all_chars c. Qed.

Lemma hyphen_not_ws (c : ascii) : isHyphen c = true -> isWhiteSpace c = false.
Proof. all_chars c. Qed.

Lemma slug_not_ws (c : ascii) : notSlugChar c = false -> isWhiteSpace c = false.
Proof. all_chars c. Qed.

Lemma isHyphen_eq (c : ascii) : isHyphen c = true -> c = hyphen.
Proof. all_chars c. Qed.

(* ================================================================== *)
(** * The definitions on concrete inputs                               *)
(* ================================================================== *)

Example slugify_title : slugify (str "Re-Act Conf!") = str "re-act-conf".
Proof. reflexivity. Qed.

Example slugify_blanks_and_case :
  slugify (str "  React   CONF 2024?? ") = str "react-conf-2024".
Proof. reflexivity. Qed.

Example slugify_punctuation_only : slugify (str "--- !!! ---") = [].
Proof. reflexivity. Qed.

Example normalizeTime_pads_hour :
  normalizeTime (str " 9:05 ") = Ok (str "09:05").
Proof. reflexivity. Qed.

Example normalizeTime_empty_input :
  normalizeTime (str "   ")
  = Throw (MkError (str "Time is required and cannot be empty.")).
Proof. reflexivity. Qed.

Example toISOString_epoch : toISOString 0 = str "1970-01-01T00:00:00.000Z".
Proof. reflexivity. Qed.

Example toISOString_before_epoch :
  toISOString (-1) = str "1969-12-31T23:59:59.999Z".
Proof. reflexivity. Qed.

Example toISOString_leap_day :
  toISOString 951782400000 = str "2000-02-29T00:00:00.000Z".
Proof. reflexivity. Qed.

Example toISOString_last_instant :
  toISOString maxTimeValue = str "+275760-09-13T00:00:00.000Z".
Proof. reflexivity. Qed.

Example civil_date_of_day :
  civilFromDays (daysFromCivil 2024 5 1) = (2024, 5, 1)%Z
  /\ (daysFromCivil 2024 5 1 * msPerDay = 1714521600000)%Z.
Proof. split; reflexivity. Qed.

Example normalizeDate_not_a_date :
  normalizeDate (hostDateParse 0) (str "not-a-date")
  = Throw (MkError (str "Invalid date format: " ++ quoted (str "not-a-date")
                      ++ str ".")).
Proof. reflexivity. Qed.

Example normalizeDate_empty_input :
  normalizeDate (hostDateParse 0) (str "")
  = Throw (MkError (str "Date is required and cannot be empty.")).
Proof. reflexivity. Qed.

(** Past the year 9999 the ISO rendering starts with a sign and six
    digits, and its first ten characters are no longer a date. *)
Example normalizeDate_year_10000 :
  normalizeDate (hostDateParse 0) (str "Jan 1, 10000") = Ok (str "+010000-01").
Proof. reflexivity. Qed.

(* ================================================================== *)
(** * Dropping from either end                                         *)
(* ================================================================== *)

Section DropLemmas.
Context {A : Type} (p : A -> bool).

Lemma dropWhile_all (s : list A) :
  forallb p s = true -> dropWhile p s = [].
Proof.
  induction s as [|c r IH]; simpl; auto.
  destruct (p c); simpl; auto; discriminate.
Qed.

Lemma dropWhile_nil_all (s : list A) :
  dropWhile p s = [] -> forallb p s = true.
Proof.
  induction s as [|c r IH]; simpl; auto.
  destruct (p c); simpl; auto; discriminate.
Qed.

Lemma dropWhile_app_keep (u v : list A) :
  forallb p u = false -> dropWhile p (u ++ v) = dropWhile p u ++ v.
Proof.
  induction u as [|c r IH]; simpl; [discriminate|].
  destruct (p c); simpl; auto.
Qed.

Lemma dropWhile_app_all (u v : list A) :
  forallb p u = true -> dropWhile p (u ++ v) = dropWhile p v.
Proof.
  induction u as [|c r IH]; simpl; auto.
  destruct (p c); simpl; auto; discriminate.
Qed.

Lemma dropWhile_split (s : list A) :
  exists a, s = a ++ dropWhile p s /\ forallb p a = true.
Proof.
  induction s as [|c r [a [E F]]]; simpl.
  - exists []; auto.
  - destruct (p c) eqn:Pc.
    + exists (c :: a); simpl; rewrite Pc, F; split; [congruence | auto].
    + exists []; auto.
Qed.

Lemma dropWhile_head (s : list A) (c : A) (r : list A) :
  dropWhile p s = c :: r -> p c = false.
Proof.
  induction s as [|x t IH]; simpl; [discriminate|].
  destruct (p x) eqn:Px; auto.
  intros E; injection E as -> _; exact Px.
Qed.

Lemma dropWhile_idem (s : list A) :
  dropWhile p (dropWhile p s) = dropWhile p s.
Proof.
  destruct (dropWhile p s) as [|c r] eqn:E; auto.
  simpl; rewrite (dropWhile_head _ _ _ E); reflexivity.
Qed.

Lemma forallb_rev (s : list A) : forallb p (rev s) = forallb p s.
Proof.
  induction s as [|c r IH]; simpl; auto.
  rewrite forallb_app, IH; simpl. rewrite andb_true_r, andb_comm; reflexivity.
Qed.

(** The equation by which [dropWhileEnd] could have been defined. *)
Lemma dropWhileEnd_cons (c : A) (s : list A) :
  dropWhileEnd p (c :: s) =
  if p c && forallb p s then [] else c :: dropWhileEnd p s.
Proof.
  unfold dropWhileEnd; simpl.
  destruct (forallb p s) eqn:F.
  - rewrite dropWhile_app_all by (rewrite forallb_rev; exact F).
    rewrite (dropWhile_all (rev s)) by (rewrite forallb_rev; exact F).
    simpl. destruct (p c); reflexivity.
  - rewrite dropWhile_app_keep by (rewrite forallb_rev; exact F).
    rewrite rev_app_distr, andb_false_r; reflexivity.
Qed.

Lemma dropWhileEnd_nil : dropWhileEnd p [] = [].
Proof. reflexivity. Qed.

Lemma dropWhileEnd_all (s : list A) :
  forallb p s = true -> dropWhileEnd p s = [].
Proof.
  intros F; unfold dropWhileEnd.
  rewrite dropWhile_all; [reflexivity | rewrite forallb_rev; exact F].
Qed.

Lemma dropWhileEnd_split (s : list A) :
  exists b, s = dropWhileEnd p s ++ b /\ forallb p b = true.
Proof.
  destruct (dropWhile_split (rev s)) as [a [E F]].
  exists (rev a); split.
  - unfold dropWhileEnd. rewrite <- rev_app_distr, <- E, rev_involutive.
    reflexivity.
  - rewrite forallb_rev; exact F.
Qed.

Lemma dropWhileEnd_app_all (u v : list A) :
  forallb p v = true -> dropWhileEnd p (u ++ v) = dropWhileEnd p u.
Proof.
  intros F; unfold dropWhileEnd.
  rewrite rev_app_distr, dropWhile_app_all; [reflexivity|].
  rewrite forallb_rev; exact F.
Qed.

Lemma dropWhileEnd_idem (s : list A) :
  dropWhileEnd p (dropWhileEnd p s) = dropWhileEnd p s.
Proof.
  unfold dropWhileEnd. rewrite rev_involutive, dropWhile_idem; reflexivity.
Qed.

Lemma drop_ends_comm (s : list A) :
  dropWhileEnd p (dropWhile p s) = dropWhile p (dropWhileEnd p s).
Proof.
  induction s as [|c r IH]; [reflexivity|].
  rewrite dropWhileEnd_cons; simpl.
  destruct (p c) eqn:Pc; simpl.
  - rewrite IH. destruct (forallb p r) eqn:F.
    + rewrite dropWhileEnd_all by exact F. reflexivity.
    + simpl; rewrite Pc; reflexivity.
  - rewrite Pc, dropWhileEnd_cons, Pc; reflexivity.
Qed.

(** A string whose two ends are kept is left alone. *)
Lemma dropWhile_keep (s : list A) :
  (forall c r, s = c :: r -> p c = false) -> dropWhile p s = s.
Proof.
  destruct s as [|c r]; simpl; auto.
  intros H; rewrite (H c r eq_refl); reflexivity.
Qed.

Lemma dropWhile_none (s : list A) :
  Forall (fun c => p c = false) s -> dropWhile p s = s.
Proof.
  intros F; apply dropWhile_keep; intros c r ->.
  inversion F; assumption.
Qed.

Lemma dropWhileEnd_none (s : list A) :
  Forall (fun c => p c = false) s -> dropWhileEnd p s = s.
Proof.
  intros F; unfold dropWhileEnd.
  rewrite dropWhile_none, rev_involutive; [reflexivity|].
  apply Forall_rev; exact F.
Qed.

Lemma Forall_dropWhile (Q : A -> Prop) (s : list A) :
  Forall Q s -> Forall Q (dropWhile p s).
Proof.
  induction 1 as [|c r Qc Qr IH]; simpl; auto.
  destruct (p c); auto.
Qed.

Lemma Forall_dropWhileEnd (Q : A -> Prop) (s : list A) :
  Forall Q s -> Forall Q (dropWhileEnd p s).
Proof.
  intros F; unfold dropWhileEnd.
  apply Forall_rev, Forall_dropWhile, Forall_rev; exact F.
Qed.
End DropLemmas.

(* ================================================================== *)
(** * Regular expressions: the matcher decides the denoted language    *)
(* ================================================================== *)

Lemma lang_inv (r : regex) (s : jsstring) :
  lang r s ->
  match r with
  | Void => False
  | Eps => s = []
  | Class p => exists c, s = [c] /\ p c = true
  | Seq r1 r2 => exists s1 s2, s = s1 ++ s2 /\ lang r1 s1 /\ lang r2 s2
  | Alt r1 r2 => lang r1 s \/ lang r2 s
  | Star r1 =>
      s = [] \/ exists s1 s2, s = s1 ++ s2 /\ lang r1 s1 /\ lang (Star r1) s2
  end.
Proof. destruct 1; eauto 10. Qed.

Ltac lang_inv H := apply lang_inv in H; simpl in H.

Lemma nullable_lang (r : regex) : nullable r = true <-> lang r [].
Proof.
  induction r as [| |p|r1 IH1 r2 IH2|r1 IH1 r2 IH2|r1 IH1]; simpl; split;
    intros H; try discriminate; auto.
  - lang_inv H; contradiction.
  - lang_inv H. destruct H as [c [E _]]; discriminate.
  - apply andb_prop in H as [H1 H2].
    change (@nil ascii) with (@nil ascii ++ []). apply lang_seq; tauto.
  - lang_inv H. destruct H as [s1 [s2 [E [L1 L2]]]].
    symmetry in E. apply app_eq_nil in E as [-> ->].
    apply andb_true_intro; tauto.
  - apply orb_prop in H as [H|H]; [apply lang_alt_l | apply lang_alt_r]; tauto.
  - lang_inv H. apply orb_true_intro; tauto.
Qed.

Lemma lang_star_cons (r : regex) (c : ascii) (s : jsstring) :
  lang (Star r) (c :: s) ->
  exists s1 s2, s = s1 ++ s2 /\ lang r (c :: s1) /\ lang (Star r) s2.
Proof.
  intros H. remember (Star r) as r' eqn:Er. remember (c :: s) as t eqn:Et.
  revert s Et. induction H as [| | | | | |r0 s1 s2 L1 _ L2 IH2]; intros u Et;
    try discriminate.
  injection Er as ->. destruct s1 as [|x s1]; simpl in Et.
  - apply IH2; auto.
  - injection Et as -> <-. exists s1, s2; auto.
Qed.

Lemma lang_cons_seq (r1 r2 : regex) (c : ascii) (s1 s2 : jsstring) :
  lang r1 (c :: s1) -> lang r2 s2 -> lang (Seq r1 r2) (c :: s1 ++ s2).
Proof. intros; change (c :: s1 ++ s2) with ((c :: s1) ++ s2); auto. Qed.

Lemma lang_cons_star (r : regex) (c : ascii) (s1 s2 : jsstring) :
  lang r (c :: s1) -> lang (Star r) s2 -> lang (Star r) (c :: s1 ++ s2).
Proof. intros; change (c :: s1 ++ s2) with ((c :: s1) ++ s2); auto. Qed.

Lemma deriv_sound (c : ascii) (r : regex) :
  forall s, lang (deriv c r) s -> lang r (c :: s).
Proof.
  induction r as [| |p|r1 IH1 r2 IH2|r1 IH1 r2 IH2|r1 IH1]; simpl; intros s H.
  - lang_inv H; contradiction.
  - lang_inv H; contradiction.
  - destruct (p c) eqn:Pc; lang_inv H; [subst; auto | contradiction].
  - destruct (nullable r1) eqn:N.
    + lang_inv H. destruct H as [H|H].
      * lang_inv H. destruct H as [s1 [s2 [-> [L1 L2]]]].
        apply lang_cons_seq; auto.
      * change (c :: s) with ([] ++ c :: s).
        apply lang_seq; [apply nullable_lang; exact N | auto].
    + lang_inv H. destruct H as [s1 [s2 [-> [L1 L2]]]].
      apply lang_cons_seq; auto.
  - lang_inv H. destruct H; auto.
  - lang_inv H. destruct H as [s1 [s2 [-> [L1 L2]]]].
    apply lang_cons_star; auto.
Qed.

Lemma deriv_complete (c : ascii) (r : regex) :
  forall s, lang r (c :: s) -> lang (deriv c r) s.
Proof.
  induction r as [| |p|r1 IH1 r2 IH2|r1 IH1 r2 IH2|r1 IH1]; simpl; intros s H.
  - lang_inv H; contradiction.
  - lang_inv H; discriminate.
  - lang_inv H. destruct H as [x [E Px]]. injection E as -> ->.
    rewrite Px. auto.
  - lang_inv H. destruct H as [s1 [s2 [E [L1 L2]]]].
    destruct s1 as [|x s1]; simpl in E.
    + subst s2. apply nullable_lang in L1. rewrite L1. auto.
    + injection E as <- ->.
      destruct (nullable r1); [apply lang_alt_l|]; auto.
  - lang_inv H. destruct H; auto.
  - apply lang_star_cons in H as [s1 [s2 [-> [L1 L2]]]]. auto.
Qed.

Theorem matches_lang (r : regex) (s : jsstring) :
  matches r s = true <-> lang r s.
Proof.
  revert r; induction s as [|c s IH]; intros r; simpl.
  - apply nullable_lang.
  - rewrite IH. split; [apply deriv_sound | apply deriv_complete].
Qed.

Lemma test_lang (r : regex) (s : jsstring) : test r s = true <-> lang r s.
Proof. apply matches_lang. Qed.

(** What the pattern constructors denote. *)
Lemma lang_Seq (r1 r2 : regex) (s : jsstring) :
  lang (Seq r1 r2) s <->
  exists s1 s2, s = s1 ++ s2 /\ lang r1 s1 /\ lang r2 s2.
Proof.
  split.
  - intros H; lang_inv H; exact H.
  - intros [s1 [s2 [-> [H1 H2]]]]; auto.
Qed.

Lemma lang_Class (p : ascii -> bool) (s : jsstring) :
  lang (Class p) s <-> exists c, s = [c] /\ p c = true.
Proof.
  split.
  - intros H; lang_inv H; exact H.
  - intros [c [-> H]]; auto.
Qed.

Lemma lang_Lit (c : ascii) (s : jsstring) : lang (Lit c) s <-> s = [c].
Proof.
  unfold Lit. rewrite lang_Class. unfold char_eqb. split.
  - intros [x [-> E]]. apply Ascii.eqb_eq in E. subst; reflexivity.
  - intros ->. exists c; split; auto. apply Ascii.eqb_refl.
Qed.

Lemma lang_Opt (r : regex) (s : jsstring) :
  lang (Opt r) s <-> s = [] \/ lang r s.
Proof.
  unfold Opt; split.
  - intros H; lang_inv H. destruct H as [H|H]; auto.
    lang_inv H; auto.
  - intros [->|H]; auto.
Qed.

Lemma lang_Star_Class (p : ascii -> bool) (s : jsstring) :
  lang (Star (Class p)) s <-> forallb p s = true.
Proof.
  split.
  - intros H. remember (Star (Class p)) as r eqn:Er.
    induction H as [| | | | | |r0 s1 s2 L1 _ L2 IH2]; try discriminate; auto.
    injection Er as ->. lang_inv L1. destruct L1 as [c [-> Pc]]. simpl.
    apply andb_true_intro; auto.
  - induction s as [|c s IH]; simpl; intros H; auto.
    apply andb_prop in H as [Pc H].
    change (c :: s) with ([c] ++ s). auto.
Qed.

Lemma lang_Plus_Class (p : ascii -> bool) (s : jsstring) :
  lang (Plus (Class p)) s <-> s <> [] /\ forallb p s = true.
Proof.
  unfold Plus. rewrite lang_Seq. split.
  - intros [s1 [s2 [-> [H1 H2]]]].
    apply lang_Class in H1 as [c [-> Pc]]. apply lang_Star_Class in H2.
    simpl. rewrite Pc, H2. split; [discriminate | reflexivity].
  - intros [N F]. destruct s as [|c s]; [congruence|]. simpl in F.
    apply andb_prop in F as [Pc F].
    exists [c], s; repeat split; auto. apply lang_Star_Class; exact F.
Qed.

Lemma lang_Rep_Class (p : ascii -> bool) (n : nat) (s : jsstring) :
  lang (Rep n (Class p)) s <-> length s = n /\ forallb p s = true.
Proof.
  revert s; induction n as [|n IH]; intros s; simpl.
  - split.
    + intros H; lang_inv H; subst; auto.
    + intros [E _]. apply length_zero_iff_nil in E. subst; auto.
  - rewrite lang_Seq. split.
    + intros [s1 [s2 [-> [H1 H2]]]].
      apply lang_Class in H1 as [c [-> Pc]]. apply IH in H2 as [E F].
      simpl. rewrite Pc, F, E. auto.
    + intros [E F]. destruct s as [|c s]; [discriminate|]. simpl in *.
      apply andb_prop in F as [Pc F]. injection E as E.
      exists [c], s; repeat split; auto. apply IH; auto.
Qed.

Lemma respects_deriv (f : ascii -> ascii) (c : ascii) (r : regex) :
  respects f r -> deriv (f c) r = deriv c r /\ respects f (deriv c r).
Proof.
  induction r as [| |p|r1 IH1 r2 IH2|r1 IH1 r2 IH2|r1 IH1]; simpl; auto.
  - intros H; rewrite H. destruct (p c); simpl; auto.
  - intros [H1 H2]. destruct (IH1 H1) as [E1 R1], (IH2 H2) as [E2 R2].
    rewrite E1, E2. destruct (nullable r1); simpl; auto.
  - intros [H1 H2]. destruct (IH1 H1) as [E1 R1], (IH2 H2) as [E2 R2].
    rewrite E1, E2; simpl; auto.
  - intros H1. destruct (IH1 H1) as [E1 R1]. rewrite E1; simpl; auto.
Qed.

Lemma matches_map (f : ascii -> ascii) (s : jsstring) :
  forall r, respects f r -> matches r (map f s) = matches r s.
Proof.
  induction s as [|c s IH]; intros r R; simpl; auto.
  destruct (respects_deriv f c r R) as [E R']. rewrite E. apply IH, R'.
Qed.

(* ================================================================== *)
(** * slugify: runs, padding and the shape of a slug                   *)
(* ================================================================== *)

Lemma trim_split (s : jsstring) :
  exists a b, s = a ++ trim s ++ b
              /\ forallb isWhiteSpace a = true
              /\ forallb isWhiteSpace b = true.
Proof.
  destruct (dropWhile_split isWhiteSpace s) as [a [Ea Fa]].
  destruct (dropWhileEnd_split isWhiteSpace (dropWhile isWhiteSpace s))
    as [b [Eb Fb]].
  exists a, b; unfold trim; split; [|split]; auto.
  rewrite <- Eb; exact Ea.
Qed.

Section RunLemmas.
Variable p : ascii -> bool.
Hypothesis p_hyphen : forall c, isHyphen c = true -> p c = true.

Local Abbreviation rr := (replaceRuns p hyphen).

Lemma replaceRuns_ext (q : ascii -> bool) (s : jsstring) :
  Forall (fun c => q c = p c) s ->
  forall b, replaceRuns q hyphen b s = rr b s.
Proof.
  induction 1 as [|c r E F IH]; intros b; simpl; auto.
  rewrite E, !IH; reflexivity.
Qed.

(** Inside a run, a prefix of class characters disappears; outside, it
    becomes the one separator. *)
Lemma replaceRuns_prefix_in (a x : jsstring) :
  forallb p a = true -> rr true (a ++ x) = rr true x.
Proof.
  induction a as [|c r IH]; simpl; auto.
  destruct (p c); simpl; [exact IH | discriminate].
Qed.

Lemma replaceRuns_prefix_out (a x : jsstring) :
  forallb p a = true -> a <> [] ->
  rr false (a ++ x) = hyphen :: rr true x.
Proof.
  destruct a as [|c r]; [congruence|]; simpl.
  destruct (p c); simpl; [|discriminate].
  intros F _; rewrite replaceRuns_prefix_in; auto.
Qed.

Lemma lstrip_run_flag (x : jsstring) :
  dropWhile isHyphen (rr false x) = dropWhile isHyphen (rr true x).
Proof.
  destruct x as [|c r]; simpl; auto.
  destruct (p c); reflexivity.
Qed.

Lemma replaceRuns_suffix (x t : jsstring) :
  forallb p t = true -> t <> [] ->
  forall b, rr b (x ++ t) = rr b x ++ (if endsInRun p b x then [] else [hyphen]).
Proof.
  intros F N; induction x as [|c r IH]; intros b.
  - simpl. destruct b.
    + rewrite <- (app_nil_r t), replaceRuns_prefix_in; auto.
    + rewrite <- (app_nil_r t), replaceRuns_prefix_out; auto.
  - simpl. unfold endsInRun; simpl. fold (endsInRun p (p c) r).
    destruct (p c); [destruct b|]; rewrite IH; reflexivity.
Qed.

Lemma strip_snoc_hyphen (y : jsstring) :
  stripHyphens (y ++ [hyphen]) = stripHyphens y.
Proof.
  unfold stripHyphens.
  rewrite !drop_ends_comm, dropWhileEnd_app_all; reflexivity.
Qed.

(** Class characters around a title do not show in the slug. *)
Lemma strip_runs_padding (a x t : jsstring) :
  forallb p a = true -> forallb p t = true ->
  stripHyphens (rr false (a ++ x ++ t)) = stripHyphens (rr false x).
Proof.
  intros Fa Ft.
  assert (S1 : stripHyphens (rr false (x ++ t)) = stripHyphens (rr false x)).
  { destruct t as [|c r]; [rewrite app_nil_r; reflexivity|].
    rewrite replaceRuns_suffix by (auto; discriminate).
    destruct (endsInRun p false x);
      [rewrite app_nil_r; reflexivity | apply strip_snoc_hyphen]. }
  destruct a as [|c r]; [exact S1|].
  rewrite replaceRuns_prefix_out by (auto; discriminate).
  rewrite <- S1. unfold stripHyphens. simpl dropWhile at 1.
  rewrite <- lstrip_run_flag. reflexivity.
Qed.

Lemma hyphenated_replaceRuns (s : jsstring) :
  forall b, hyphenated p b (rr b s) = true.
Proof.
  induction s as [|c r IH]; intros b; simpl; auto.
  destruct (p c) eqn:Pc.
  - destruct b; [apply IH|]. simpl.
    rewrite (p_hyphen hyphen eq_refl). simpl. apply IH.
  - simpl. rewrite Pc. apply IH.
Qed.

Lemma hyphenated_fixed (s : jsstring) :
  forall b, hyphenated p b s = true -> rr b s = s.
Proof.
  induction s as [|c r IH]; intros b; simpl; auto.
  destruct (p c).
  - intros H. apply andb_prop in H as [H H3]. apply andb_prop in H as [H1 H2].
    destruct b; [discriminate|].
    rewrite (isHyphen_eq _ H1), IH; auto.
  - intros H; rewrite IH; auto.
Qed.

Lemma hyphenated_weaken (s : jsstring) :
  forall b, hyphenated p b s = true -> hyphenated p false s = true.
Proof.
  destruct s as [|c r]; simpl; auto.
  intros b. destruct (p c); auto.
  intros H. apply andb_prop in H as [H H3]. apply andb_prop in H as [H1 H2].
  rewrite H1, H3; reflexivity.
Qed.

Lemma hyphenated_dropWhile (s : jsstring) :
  hyphenated p false s = true ->
  hyphenated p false (dropWhile isHyphen s) = true.
Proof.
  induction s as [|c r IH]; simpl; auto.
  destruct (isHyphen c) eqn:Hc.
  - rewrite (p_hyphen _ Hc). simpl. intros H.
    apply IH, (hyphenated_weaken _ _ H).
  - simpl. destruct (p c); [discriminate | auto].
Qed.

Lemma hyphenated_prefix (u v : jsstring) :
  forall b, hyphenated p b (u ++ v) = true -> hyphenated p b u = true.
Proof.
  induction u as [|c r IH]; intros b; simpl; auto.
  destruct (p c); [|apply IH].
  intros H. apply andb_prop in H as [H H3]. rewrite H. simpl.
  apply (IH _ H3).
Qed.

Lemma hyphenated_strip (s : jsstring) :
  hyphenated p false s = true -> hyphenated p false (stripHyphens s) = true.
Proof.
  intros H. apply hyphenated_dropWhile in H. unfold stripHyphens.
  destruct (dropWhileEnd_split isHyphen (dropWhile isHyphen s)) as [t [E _]].
  rewrite E in H. apply (hyphenated_prefix _ _ _ H).
Qed.

Lemma hyphenated_chars (s : jsstring) :
  forall b, hyphenated p b s = true ->
  Forall (fun c => p c = false \/ isHyphen c = true) s.
Proof.
  induction s as [|c r IH]; intros b; simpl; auto.
  destruct (p c) eqn:Pc; intros H.
  - apply andb_prop in H as [H H3]. apply andb_prop in H as [H1 H2].
    constructor; eauto.
  - constructor; eauto.
Qed.
End RunLemmas.

(** What the two replacements of [slugify] do, in the words of their
    patterns: a maximal run matched by [[^a-z0-9]+] becomes one hyphen
    and the text around it is treated on its own; hyphens matched by
    [^-+] and [-+$] disappear and the text between them is kept. *)
Lemma replaceRuns_app (p : ascii -> bool) (u w : jsstring) :
  forall b,
    replaceRuns p hyphen b (u ++ w) =
    replaceRuns p hyphen b u ++ replaceRuns p hyphen (endsInRun p b u) w.
Proof.
  induction u as [|c r IH]; intros b; simpl; [reflexivity|].
  unfold endsInRun; simpl. fold (endsInRun p (p c) r).
  destruct (p c); [destruct b|]; rewrite IH; reflexivity.
Qed.

Lemma replaceRuns_maximal_run (u run v : jsstring) :
  lang (Plus (Class notSlugChar)) run ->
  endsInRun notSlugChar false u = false ->
  match v with [] => True | c :: _ => notSlugChar c = false end ->
  replaceRuns notSlugChar hyphen false (u ++ run ++ v) =
  replaceRuns notSlugChar hyphen false u
    ++ hyphen :: replaceRuns notSlugChar hyphen false v.
Proof.
  intros R U V. rewrite replaceRuns_app, U. f_equal.
  assert (F : run <> [] /\ forallb notSlugChar run = true).
  { apply lang_inv in R. simpl in R. destruct R as [a [b [-> [A B]]]].
    apply lang_inv in A. simpl in A. destruct A as [c [-> Pc]].
    split; [discriminate|]. simpl. rewrite Pc. simpl.
    clear - B. remember (Star (Class notSlugChar)) as r eqn:Er.
    induction B as [| | | | | |r0 s1 s2 L1 _ L2 IH2]; try discriminate; auto.
    injection Er as ->. apply lang_inv in L1. simpl in L1.
    destruct L1 as [c [-> Pc]]. simpl. rewrite Pc. auto. }
  destruct F as [N F].
  rewrite (replaceRuns_prefix_out notSlugChar run v F N). f_equal.
  destruct v as [|c r]; [reflexivity|]. simpl. rewrite V. reflexivity.
Qed.

Lemma replaceRuns_no_match (u : jsstring) :
  forallb isSlugChar u = true ->
  forall b, replaceRuns notSlugChar hyphen b u = u.
Proof.
  induction u as [|c r IH]; intros F b; simpl in *; [reflexivity|].
  apply andb_prop in F as [Fc F]. unfold notSlugChar at 1. rewrite Fc. simpl.
  rewrite IH by exact F. reflexivity.
Qed.

Lemma stripHyphens_core (h1 core h2 : jsstring) :
  forallb isHyphen h1 = true -> forallb isHyphen h2 = true ->
  dropWhile isHyphen core = core -> dropWhileEnd isHyphen core = core ->
  stripHyphens (h1 ++ core ++ h2) = core.
Proof.
  intros F1 F2 L R. unfold stripHyphens.
  rewrite dropWhile_app_all by exact F1.
  destruct core as [|c r].
  - simpl. rewrite dropWhile_all by exact F2. reflexivity.
  - simpl in L. destruct (isHyphen c) eqn:Hc.
    + exfalso. pose proof (dropWhile_split isHyphen r) as [a [E _]].
      assert (Len : length (dropWhile isHyphen r) = S (length r))
        by (rewrite L; reflexivity).
      rewrite E in Len at 2. rewrite length_app in Len. lia.
    + simpl. rewrite Hc.
      change (c :: r ++ h2) with ((c :: r) ++ h2).
      rewrite dropWhileEnd_app_all by exact F2. exact R.
Qed.

Lemma stripHyphens_idem (s : jsstring) :
  stripHyphens (stripHyphens s) = stripHyphens s.
Proof.
  unfold stripHyphens.
  rewrite <- (drop_ends_comm isHyphen (dropWhile isHyphen s)).
  rewrite dropWhile_idem, dropWhileEnd_idem. reflexivity.
Qed.

Lemma forallb_lower (p : ascii -> bool) (s : jsstring) :
  (forall c, p (toLowerChar c) = p c) ->
  forallb p (toLowerCase s) = forallb p s.
Proof.
  intros H; induction s as [|c r IH]; simpl; auto.
  rewrite H, IH; reflexivity.
Qed.

Lemma forallb_impl (p q : ascii -> bool) (s : jsstring) :
  (forall c, p c = true -> q c = true) ->
  forallb p s = true -> forallb q s = true.
Proof.
  intros H; induction s as [|c r IH]; simpl; auto.
  intros E; apply andb_prop in E as [E1 E2].
  rewrite (H _ E1), (IH E2); reflexivity.
Qed.

(** The slug of a title is built from [a-z], [0-9] and single hyphens. *)
Lemma slugify_hyphenated (title : jsstring) :
  hyphenated notSlugChar false (slugify title) = true.
Proof.
  unfold slugify. apply hyphenated_strip; [exact hyphen_not_slug|].
  apply hyphenated_replaceRuns. exact hyphen_not_slug.
Qed.

Lemma slug_chars (s : jsstring) :
  hyphenated notSlugChar false s = true ->
  Forall (fun c => isWhiteSpace c = false) s /\ toLowerCase s = s.
Proof.
  intros H. apply hyphenated_chars in H. split.
  - eapply Forall_impl; [|exact H]. simpl.
    intros c [E|E]; [apply slug_not_ws | apply hyphen_not_ws]; exact E.
  - induction H as [|c r E F IH]; simpl; auto.
    fold (toLowerCase r). rewrite IH. f_equal.
    destruct E as [E|E]; [apply slug_lower_fixed | apply hyphen_lower_fixed];
      exact E.
Qed.

Lemma trim_none (s : jsstring) :
  Forall (fun c => isWhiteSpace c = false) s -> trim s = s.
Proof.
  intros F; unfold trim. rewrite dropWhile_none by exact F.
  apply dropWhileEnd_none; exact F.
Qed.

(** [slugify] leaves a slug unchanged. *)
Lemma slugify_fixed (s : jsstring) :
  hyphenated notSlugChar false s = true ->
  stripHyphens s = s ->
  slugify s = s.
Proof.
  intros H S. destruct (slug_chars s H) as [W L].
  unfold slugify. rewrite (trim_none s W), L.
  rewrite hyphenated_fixed; auto.
Qed.

(* ------------------------------------------------------------------ *)
(** ** C3 and C5                                                       *)
(* ------------------------------------------------------------------ *)

(** The [trim] of [slugify] does not show in its result. *)
Lemma slugify_no_trim (title : jsstring) :
  slugify title =
  stripHyphens (replaceRuns notSlugChar hyphen false (toLowerCase title)).
Proof.
  unfold slugify.
  destruct (trim_split title) as [a [b [E [Fa Fb]]]].
  rewrite E at 2. unfold toLowerCase. rewrite !map_app.
  symmetry. apply strip_runs_padding.
  - apply (forallb_impl isWhiteSpace notSlugChar _ ws_not_slug).
    fold (toLowerCase a). rewrite forallb_lower; [exact Fa | apply lower_ws].
  - apply (forallb_impl isWhiteSpace notSlugChar _ ws_not_slug).
    fold (toLowerCase b). rewrite forallb_lower; [exact Fb | apply lower_ws].
Qed.

Lemma stripHyphens_no_leading (s r : jsstring) :
  stripHyphens s <> hyphen :: r.
Proof.
  unfold stripHyphens. intros E.
  destruct (dropWhileEnd_split isHyphen (dropWhile isHyphen s)) as [t [Et _]].
  rewrite E in Et. simpl in Et.
  apply dropWhile_head in Et. discriminate.
Qed.

Lemma dropWhileEnd_no_trailing (s r : jsstring) :
  dropWhileEnd isHyphen s <> r ++ [hyphen].
Proof.
  unfold dropWhileEnd. intros E.
  apply (f_equal (@rev ascii)) in E.
  rewrite rev_involutive, rev_app_distr in E. simpl in E.
  apply dropWhile_head in E. discriminate.
Qed.

(** *** The reference definition *)

Lemma reference_alphanumeric (c : ascii) :
  SlugReference.alphanumeric c = isAlphanumeric c.
Proof. all_chars c. Qed.

Lemma reference_lowerCased (c : ascii) :
  SlugReference.lowerCased c = toLowerChar c.
Proof. all_chars c. Qed.

Lemma reference_lowered (title : jsstring) :
  map SlugReference.lowerCased title = toLowerCase title.
Proof. apply map_ext. apply reference_lowerCased. Qed.

Lemma classesAgree_lowered (title : jsstring) :
  classesAgree (toLowerCase title).
Proof.
  unfold classesAgree, toLowerCase. apply Forall_forall. intros c Hc.
  apply in_map_iff in Hc as [x [<- _]].
  rewrite reference_alphanumeric, lower_alnum_is_slug. reflexivity.
Qed.

Lemma run_forallb (run : jsstring) :
  classesAgree run ->
  Forall (fun c => SlugReference.alphanumeric c = false) run ->
  forallb notSlugChar run = true.
Proof.
  unfold classesAgree.
  induction run as [|c r IH]; intros A F; [reflexivity|].
  inversion A as [|? ? Ac Ar]; subst. inversion F as [|? ? Fc Fr]; subst.
  simpl. rewrite Ac, Fc, IH by assumption. reflexivity.
Qed.

Lemma replaceRuns_after_run (rest : jsstring) :
  classesAgree rest -> SlugReference.endsRun rest ->
  replaceRuns notSlugChar hyphen true rest
  = replaceRuns notSlugChar hyphen false rest.
Proof.
  destruct rest as [|c r]; [reflexivity|]. intros A E.
  inversion A as [|? ? Ac Ar]; subst. simpl in E. simpl.
  rewrite Ac, E. reflexivity.
Qed.

(** What the reference's second step relates a text to is what the
    code's first replacement computes. *)
Lemma RunsReplaced_replaceRuns (s u : jsstring) :
  SlugReference.RunsReplaced s u -> classesAgree s ->
  u = replaceRuns notSlugChar hyphen false s.
Proof.
  induction 1 as [|c s u Ac R IH|run rest u [N F] E R IH]; intros A.
  - reflexivity.
  - inversion A as [|? ? Cc Cs]; subst. simpl. rewrite Cc, Ac. simpl.
    rewrite <- IH by exact Cs. reflexivity.
  - apply Forall_app in A as [Arun Arest].
    rewrite (replaceRuns_prefix_out notSlugChar run rest
               (run_forallb run Arun F) N).
    rewrite replaceRuns_after_run by assumption.
    rewrite <- IH by exact Arest. reflexivity.
Qed.

(** Every text has its runs replaced. *)
Lemma RunsReplaced_total (n : nat) :
  forall s : jsstring,
    length s <= n -> exists u, SlugReference.RunsReplaced s u.
Proof.
  induction n as [|n IH]; intros s L.
  - destruct s; [|simpl in L; lia].
    exists []. constructor.
  - destruct s as [|c r]; [exists []; constructor|].
    simpl in L. destruct (SlugReference.alphanumeric c) eqn:Ac.
    + destruct (IH r ltac:(lia)) as [u R].
      exists (c :: u). constructor; assumption.
    + set (q := fun x => negb (SlugReference.alphanumeric x)).
      destruct (dropWhile_split q r) as [a [Er Fa]].
      assert (Lrest : length (dropWhile q r) <= n).
      { rewrite Er in L at 1. rewrite length_app in L. lia. }
      destruct (IH _ Lrest) as [u R].
      exists (hyphen :: u).
      replace (c :: r) with ((c :: a) ++ dropWhile q r)
        by (simpl; rewrite <- Er; reflexivity).
      apply SlugReference.replaced_run; [split| |exact R].
      * discriminate.
      * constructor; [exact Ac|].
        apply Forall_forall. intros x Hx.
        rewrite forallb_forall in Fa. specialize (Fa x Hx).
        unfold q in Fa. apply negb_true_iff in Fa. exact Fa.
      * destruct (dropWhile q r) as [|x t] eqn:D; [exact I|]. simpl.
        apply dropWhile_head in D. unfold q in D.
        apply negb_false_iff in D. exact D.
Qed.

Lemma hyphens_forallb (s : jsstring) :
  SlugReference.hyphens s <-> forallb isHyphen s = true.
Proof.
  unfold SlugReference.hyphens. rewrite forallb_forall, Forall_forall.
  split; intros H c Hc.
  - rewrite (H c Hc). reflexivity.
  - apply isHyphen_eq. exact (H c Hc).
Qed.

(** What the reference's third step relates a text to is what the
    code's second replacement computes. *)
Lemma Stripped_stripHyphens (s : jsstring) :
  SlugReference.Stripped s (stripHyphens s).
Proof.
  unfold SlugReference.Stripped, stripHyphens.
  destruct (dropWhile_split isHyphen s) as [a [Ea Fa]].
  destruct (dropWhileEnd_split isHyphen (dropWhile isHyphen s))
    as [b [Eb Fb]].
  exists a, b. split; [rewrite <- Eb; exact Ea|].
  split; [apply hyphens_forallb; exact Fa|].
  split; [apply hyphens_forallb; exact Fb|].
  split; intros r.
  - apply (stripHyphens_no_leading s r).
  - apply dropWhileEnd_no_trailing.
Qed.

Lemma Stripped_unique (s slug : jsstring) :
  SlugReference.Stripped s slug -> slug = stripHyphens s.
Proof.
  intros [a [b [-> [Ha [Hb [Lead Trail]]]]]]. symmetry.
  apply stripHyphens_core.
  - apply hyphens_forallb; exact Ha.
  - apply hyphens_forallb; exact Hb.
  - apply dropWhile_keep. intros c r ->.
    destruct (isHyphen c) eqn:Hc; [|reflexivity].
    apply isHyphen_eq in Hc. subst c. exfalso. apply (Lead r). reflexivity.
  - unfold dropWhileEnd. rewrite dropWhile_keep; [apply rev_involutive|].
    intros c r E. destruct (isHyphen c) eqn:Hc; [|reflexivity].
    apply isHyphen_eq in Hc. subst c. exfalso. apply (Trail (rev r)).
    rewrite <- (rev_involutive slug), E. reflexivity.
Qed.

(** C3: for every title, the slug that [slugify] returns is the slug of
    the reference definition: the title lower-cased, every run of one or
    more non-alphanumeric characters replaced by a single hyphen, leading
    and trailing hyphens removed; and it is the only one, so the slug is
    a function of the title alone.  Alphanumeric is read as the letters
    A-Z, a-z and the digits 0-9. *)
Theorem C3_slugify_refines_reference :
  forall title : jsstring,
    SlugReference.slugify_reference title (slugify title)
    /\ forall slug : jsstring,
         SlugReference.slugify_reference title slug -> slug = slugify title.
Proof.
  intros title. unfold SlugReference.slugify_reference.
  rewrite reference_lowered, slugify_no_trim.
  pose proof (classesAgree_lowered title) as A.
  split.
  - destruct (RunsReplaced_total _ (toLowerCase title) (le_n _)) as [u R].
    exists u. split; [exact R|].
    rewrite <- (RunsReplaced_replaceRuns _ _ R A).
    apply Stripped_stripHyphens.
  - intros slug [u [R S]].
    rewrite <- (RunsReplaced_replaceRuns _ _ R A).
    apply Stripped_unique. exact S.
Qed.

(** The reference slug of "  Re-Act  Conf! " is "re-act-conf". *)
Example slugify_reference_example :
  SlugReference.slugify_reference (str "  Re-Act  Conf! ")
    (str "re-act-conf").
Proof.
  exists (str "-re-act-conf-"). split.
  - apply (@SlugReference.replaced_run (str "  ") (str "re-act  conf! "));
      [split; [discriminate | repeat constructor] | reflexivity |].
    repeat (apply SlugReference.replaced_keep; [reflexivity|]).
    apply (@SlugReference.replaced_run (str "-") (str "act  conf! "));
      [split; [discriminate | repeat constructor] | reflexivity |].
    repeat (apply SlugReference.replaced_keep; [reflexivity|]).
    apply (@SlugReference.replaced_run (str "  ") (str "conf! "));
      [split; [discriminate | repeat constructor] | reflexivity |].
    repeat (apply SlugReference.replaced_keep; [reflexivity|]).
    apply (@SlugReference.replaced_run (str "! ") []);
      [split; [discriminate | repeat constructor] | exact I |].
    constructor.
  - exists (str "-"), (str "-"). split; [reflexivity|].
    split; [repeat constructor|]. split; [repeat constructor|].
    split; intros r E; [discriminate E|].
    apply (f_equal (@rev ascii)) in E. rewrite rev_app_distr in E.
    discriminate E.
Qed.

(** C5: [slugify] is idempotent. *)
Theorem C5_slugify_idempotent :
  forall T : jsstring, slugify (slugify T) = slugify T.
Proof.
  intros T. apply slugify_fixed.
  - apply slugify_hyphenated.
  - unfold slugify. apply stripHyphens_idem.
Qed.

(* ================================================================== *)
(** * normalizeTime                                                    *)
(* ================================================================== *)

Lemma jsstring_eqb_eq (a b : jsstring) : jsstring_eqb a b = true <-> a = b.
Proof.
  revert b; induction a as [|x a IH]; destruct b as [|y b]; simpl;
    try (split; [discriminate | congruence]).
  - tauto.
  - unfold char_eqb. rewrite andb_true_iff, Ascii.eqb_eq, IH.
    split; [intros [-> ->]; reflexivity | intros E; injection E; auto].
Qed.

Lemma range_forallb (P : Z -> bool) (n : nat) :
  forallb P (map Z.of_nat (seq 0 n)) = true ->
  forall z, (0 <= z < Z.of_nat n)%Z -> P z = true.
Proof.
  intros F z Hz. rewrite forallb_forall in F. apply F.
  apply in_map_iff. exists (Z.to_nat z). split; [lia|].
  apply in_seq. lia.
Qed.

Lemma pad2_digits (n : Z) :
  (0 <= n <= 99)%Z ->
  pad 2 n = [digitChar (n / 10); digitChar (n mod 10)]%Z.
Proof.
  intros H. apply jsstring_eqb_eq.
  apply (range_forallb
           (fun z => jsstring_eqb (pad 2 z)
                       [digitChar (z / 10); digitChar (z mod 10)]%Z) 100);
    [vm_compute; reflexivity | lia].
Qed.

Lemma digit_not_colon (c : ascii) : isDigit c = true -> char_eqb c colon = false.
Proof. all_chars c. Qed.

Lemma digitVal_range (c : ascii) :
  isDigit c = true -> (0 <= digitVal c <= 9)%Z.
Proof. all_chars c; intros _; split; discriminate. Qed.

Lemma takeWhile_app_stop (p : ascii -> bool) (u : jsstring) (c : ascii)
    (v : jsstring) :
  forallb p u = true -> p c = false -> takeWhile p (u ++ c :: v) = u.
Proof.
  intros F Pc; induction u as [|x u IH]; simpl in *.
  - rewrite Pc; reflexivity.
  - apply andb_prop in F as [Px F]. rewrite Px, IH; auto.
Qed.

Lemma test_timePattern (t : jsstring) :
  test timePattern t = true <-> exists hs ms, TimeShape t hs ms.
Proof.
  rewrite test_lang. unfold timePattern, TimeShape.
  rewrite lang_Seq. split.
  - intros [s1 [s2 [-> [H1 H2]]]].
    apply lang_Seq in H1 as [a [b [-> [Ha Hb]]]].
    apply lang_Class in Ha as [c [-> Pc]]. apply lang_Opt in Hb.
    apply lang_Seq in H2 as [k [ms [-> [Hk Hms]]]].
    apply lang_Lit in Hk as ->. apply lang_Rep_Class in Hms as [Lm Fm].
    exists ([c] ++ b), ms. split; [rewrite <- app_assoc; reflexivity|].
    destruct Hb as [->|Hb].
    + simpl; rewrite Pc; auto.
    + apply lang_Class in Hb as [c' [-> Pc']]. simpl. rewrite Pc, Pc'. auto.
  - intros [hs [ms [-> [Lh [Lm [Fh Fm]]]]]].
    exists hs, (colon :: ms). split; [reflexivity|]. split.
    + apply lang_Seq. destruct hs as [|c [|c' [|]]]; simpl in *;
        try (destruct Lh; discriminate).
      * rewrite andb_true_r in Fh. exists [c], []. repeat split; auto.
        apply lang_Opt; auto.
      * apply andb_prop in Fh as [Pc Fh]. rewrite andb_true_r in Fh.
        exists [c], [c']. repeat split; auto. apply lang_Opt; auto.
    + apply lang_Seq. exists [colon], ms. repeat split.
      * apply lang_Lit; reflexivity.
      * apply lang_Rep_Class; auto.
Qed.

Lemma TimeShape_groups (t hs ms : jsstring) :
  TimeShape t hs ms ->
  takeWhile isDigit t = hs /\ skipn (S (length hs)) t = ms.
Proof.
  intros [-> [_ [_ [Fh _]]]]. split.
  - apply takeWhile_app_stop; auto.
  - clear Fh. induction hs as [|x u IH]; simpl; auto.
Qed.

Lemma exec_timePattern_Some (t hs ms : jsstring) :
  exec_timePattern t = Some (hs, ms) <-> TimeShape t hs ms.
Proof.
  unfold exec_timePattern. split.
  - destruct (test timePattern t) eqn:T; [|discriminate].
    apply test_timePattern in T as [hs' [ms' S]].
    destruct (TimeShape_groups _ _ _ S) as [E1 E2].
    rewrite E1, E2. intros E; injection E as <- <-. exact S.
  - intros S. destruct (TimeShape_groups _ _ _ S) as [E1 E2].
    assert (T : test timePattern t = true) by (apply test_timePattern; eauto).
    rewrite T, E1, E2. reflexivity.
Qed.

Lemma exec_timePattern_None (t : jsstring) :
  exec_timePattern t = None <-> ~ exists hs ms, TimeShape t hs ms.
Proof.
  split.
  - intros E [hs [ms S]]. apply exec_timePattern_Some in S. congruence.
  - intros N. destruct (exec_timePattern t) as [[hs ms]|] eqn:E; auto.
    exfalso. apply N. exists hs, ms. apply exec_timePattern_Some; exact E.
Qed.

Lemma Number_two_digits (s : jsstring) :
  (length s = 1 \/ length s = 2) -> forallb isDigit s = true ->
  (0 <= Number s <= 99)%Z.
Proof.
  intros L F. destruct s as [|a [|b [|]]]; simpl in *;
    try (destruct L; discriminate).
  - rewrite andb_true_r in F. pose proof (digitVal_range _ F).
    unfold Number; simpl. lia.
  - apply andb_prop in F as [Fa Fb]. rewrite andb_true_r in Fb.
    pose proof (digitVal_range _ Fa). pose proof (digitVal_range _ Fb).
    unfold Number; simpl. lia.
Qed.

Lemma time_guard (h m : Z) :
  negb (Number_isInteger h) || negb (Number_isInteger m)
    || (h <? 0)%Z || (h >? 23)%Z || (m <? 0)%Z || (m >? 59)%Z = false
  <-> (0 <= h <= 23 /\ 0 <= m <= 59)%Z.
Proof.
  unfold Number_isInteger; simpl.
  rewrite !orb_false_iff, !Z.ltb_ge, !Z.gtb_ltb, !Z.ltb_ge. lia.
Qed.

(** What [normalizeTime] returns, by the shape of the trimmed input. *)
Lemma normalizeTime_shape (value hs ms : jsstring) :
  TimeShape (trim value) hs ms ->
  normalizeTime value =
    if ((Number hs <=? 23) && (Number ms <=? 59))%Z
    then Ok (HHmm (Number hs) (Number ms))
    else Throw (MkError (str "Invalid time value: " ++ quoted value ++ str ".")).
Proof.
  intros S. unfold normalizeTime.
  pose proof S as [E [Lh [Lm [Fh Fm]]]].
  assert (Rh := Number_two_digits _ Lh Fh).
  assert (Rm := Number_two_digits _ (or_intror Lm) Fm).
  destruct (trim value) as [|c r] eqn:Et.
  { destruct hs; discriminate. }
  change (negb (truthy (c :: r))) with false. cbv iota.
  apply exec_timePattern_Some in S. rewrite S. cbv zeta.
  match goal with
  | |- (if ?g then _ else _) = _ => destruct g eqn:G
  end.
  - destruct ((Number hs <=? 23)%Z && (Number ms <=? 59)%Z) eqn:B; auto.
    apply andb_prop in B as [B1 B2]. apply Z.leb_le in B1, B2.
    assert (G' : (0 <= Number hs <= 23 /\ 0 <= Number ms <= 59)%Z) by lia.
    apply time_guard in G'. congruence.
  - apply time_guard in G.
    assert (B : ((Number hs <=? 23) && (Number ms <=? 59))%Z = true).
    { apply andb_true_intro; split; apply Z.leb_le; lia. }
    rewrite B. fold (pad 2 (Number hs)). fold (pad 2 (Number ms)).
    rewrite !pad2_digits by lia. reflexivity.
Qed.

Lemma normalizeTime_no_shape (value : jsstring) :
  (~ exists hs ms, TimeShape (trim value) hs ms) ->
  exists e, normalizeTime value = Throw e.
Proof.
  intros N. unfold normalizeTime.
  destruct (negb (truthy (trim value))); [eauto|].
  apply exec_timePattern_None in N. rewrite N. eauto.
Qed.

Lemma TimeShape_unique (t hs ms hs' ms' : jsstring) :
  TimeShape t hs ms -> TimeShape t hs' ms' -> hs = hs' /\ ms = ms'.
Proof.
  intros S S'. apply TimeShape_groups in S as [<- <-].
  apply TimeShape_groups in S' as [<- E]. rewrite <- E. auto.
Qed.

Lemma normalizeTime_Ok_iff (value out : jsstring) :
  normalizeTime value = Ok out <->
  exists hs ms,
    TimeShape (trim value) hs ms
    /\ (0 <= Number hs <= 23)%Z /\ (0 <= Number ms <= 59)%Z
    /\ out = HHmm (Number hs) (Number ms).
Proof.
  split.
  - intros E.
    destruct (exec_timePattern (trim value)) as [[hs ms]|] eqn:X.
    + apply exec_timePattern_Some in X. exists hs, ms.
      pose proof X as [_ [Lh [Lm [Fh Fm]]]].
      assert (Rh := Number_two_digits _ Lh Fh).
      assert (Rm := Number_two_digits _ (or_intror Lm) Fm).
      rewrite (normalizeTime_shape _ _ _ X) in E.
      destruct ((Number hs <=? 23)%Z && (Number ms <=? 59)%Z) eqn:B;
        [|discriminate].
      apply andb_prop in B as [B1 B2]. apply Z.leb_le in B1, B2.
      injection E as <-. split; [exact X|]. repeat split; lia.
    + apply exec_timePattern_None in X.
      destruct (normalizeTime_no_shape _ X) as [e Ee]. congruence.
  - intros [hs [ms [S [Rh [Rm ->]]]]].
    rewrite (normalizeTime_shape _ _ _ S).
    assert (B : ((Number hs <=? 23) && (Number ms <=? 59))%Z = true).
    { apply andb_true_intro; split; apply Z.leb_le; lia. }
    rewrite B. reflexivity.
Qed.

(** C2: [normalizeTime] succeeds exactly when the trimmed input is a
    1-or-2-digit hour, a colon and a 2-digit minute with the hour in
    [0,23] and the minute in [0,59]; the result is then the zero-padded
    [HH:mm]; every other input fails.  "9:5", "24:00" and "12:60" fail,
    "09:05" and "23:59" are returned as they are. *)
Theorem C2_normalizeTime :
  forall value : jsstring,
    (forall out,
        normalizeTime value = Ok out <->
        exists hs ms,
          TimeShape (trim value) hs ms
          /\ (0 <= Number hs <= 23)%Z /\ (0 <= Number ms <= 59)%Z
          /\ out = HHmm (Number hs) (Number ms))
    /\ ((exists e, normalizeTime value = Throw e) <->
        ~ exists hs ms,
            TimeShape (trim value) hs ms
            /\ (0 <= Number hs <= 23)%Z /\ (0 <= Number ms <= 59)%Z)
    /\ isOk (normalizeTime (str "9:5")) = false
    /\ isOk (normalizeTime (str "24:00")) = false
    /\ isOk (normalizeTime (str "12:60")) = false
    /\ normalizeTime (str "09:05") = Ok (str "09:05")
    /\ normalizeTime (str "23:59") = Ok (str "23:59").
Proof.
  intros value.
  pose proof (normalizeTime_Ok_iff value) as A.
  split; [exact A|]. split.
  - split.
    + intros [e Ee] [hs [ms [S [Rh Rm]]]].
      assert (O : normalizeTime value = Ok (HHmm (Number hs) (Number ms))).
      { apply A. exists hs, ms. auto. }
      congruence.
    + intros N. destruct (normalizeTime value) as [out|e]; [|eauto].
      exfalso. apply N.
      destruct (proj1 (A out) eq_refl) as [hs [ms [S [Rh [Rm _]]]]].
      exists hs, ms; auto.
  - repeat split; vm_compute; reflexivity.
Qed.

(* ================================================================== *)
(** * Dates                                                            *)
(* ================================================================== *)

Lemma holdsFrom_spec (p : Z -> bool) (n : nat) :
  forall z, holdsFrom p n z = true ->
  forall i, (z <= i < z + Z.of_nat n)%Z -> p i = true.
Proof.
  induction n as [|k IH]; intros z H i Hi; [lia|].
  simpl in H. apply andb_prop in H as [Hz H].
  destruct (Z.eq_dec i z) as [->|Ne]; [exact Hz|].
  apply (IH (z + 1)%Z H). lia.
Qed.

Open Scope Z_scope.

Lemma sub_div_mono (k x x' : Z) :
  0 < k -> x <= x' -> x - x / k <= x' - x' / k.
Proof.
  intros K H.
  assert (x' / k <= (x + (x' - x) * k) / k) by (apply Z.div_le_mono; nia).
  rewrite Z.div_add in * by lia. lia.
Qed.

Lemma yearOfEra_mono (x x' : Z) : x <= x' -> yearOfEra x <= yearOfEra x'.
Proof.
  intros H. unfold yearOfEra. apply Z.div_le_mono; [lia|].
  pose proof (sub_div_mono 1460 x x' ltac:(lia) H).
  assert (B : x / 36524 <= x' / 36524) by (apply Z.div_le_mono; lia).
  pose proof (sub_div_mono 4 _ _ ltac:(lia) B) as Q.
  rewrite !Z.div_div in Q by lia. change (36524 * 4) with 146096 in Q. lia.
Qed.

(** Every year of the era starts and ends where [yearOfEra] says, and has
    365 or 366 days. *)
Lemma yearOfEra_at_bounds (y : Z) :
  0 <= y < 400 ->
  yearOfEra (yearStart y) = y
  /\ yearOfEra (yearStart (y + 1) - 1) = y
  /\ yearStart (y + 1) - yearStart y <= 366.
Proof.
  intros H.
  assert (C : holdsFrom
                (fun y => (yearOfEra (yearStart y) =? y)
                          && (yearOfEra (yearStart (y + 1) - 1) =? y)
                          && (yearStart (y + 1) - yearStart y <=? 366))
                400 0 = true) by (vm_compute; reflexivity).
  pose proof (holdsFrom_spec _ _ _ C y ltac:(lia)) as R. cbv beta in R.
  rewrite !andb_true_iff, !Z.eqb_eq, Z.leb_le in R.
  destruct R as [[R1 R2] R3]; auto.
Qed.

Lemma dayOfYear_range (doe : Z) :
  0 <= doe < 146097 ->
  0 <= doe - yearStart (yearOfEra doe) <= 365.
Proof.
  intros H. remember (yearOfEra doe) as y eqn:Ey.
  assert (Y : 0 <= y < 400).
  { pose proof (yearOfEra_mono 0 doe ltac:(lia)) as L.
    pose proof (yearOfEra_mono doe 146096 ltac:(lia)) as U.
    change (yearOfEra 0) with 0 in L. change (yearOfEra 146096) with 399 in U.
    lia. }
  destruct (yearOfEra_at_bounds y Y) as [S [E L]].
  assert (Lo : yearStart y <= doe).
  { destruct (Z.eq_dec y 0) as [Z0|N];
      [rewrite Z0; change (yearStart 0) with 0; lia|].
    destruct (Z_lt_le_dec doe (yearStart y)) as [Lt|]; [|assumption].
    destruct (yearOfEra_at_bounds (y - 1) ltac:(lia)) as [_ [E' _]].
    replace (y - 1 + 1) with y in E' by lia.
    pose proof (yearOfEra_mono doe (yearStart y - 1) ltac:(lia)).
    lia. }
  assert (Hi : doe <= yearStart y + 365).
  { destruct (Z.eq_dec y 399) as [Z9|N];
      [rewrite Z9; change (yearStart 399) with 145731; lia|].
    enough (doe <= yearStart (y + 1) - 1) by lia.
    destruct (Z_lt_le_dec (yearStart (y + 1) - 1) doe) as [Lt|]; [|assumption].
    destruct (yearOfEra_at_bounds (y + 1) ltac:(lia)) as [S' _].
    pose proof (yearOfEra_mono (yearStart (y + 1)) doe ltac:(lia)).
    lia. }
  lia.
Qed.

Lemma monthDay_range (doy : Z) :
  0 <= doy <= 365 ->
  1 <= fst (monthDay doy) <= 12 /\ 1 <= snd (monthDay doy) <= 31.
Proof.
  intros H.
  assert (C : holdsFrom
                (fun z => (1 <=? fst (monthDay z)) && (fst (monthDay z) <=? 12)
                          && (1 <=? snd (monthDay z))
                          && (snd (monthDay z) <=? 31))
                366 0 = true) by (vm_compute; reflexivity).
  pose proof (holdsFrom_spec _ _ _ C doy ltac:(lia)) as R. cbv beta in R.
  rewrite !andb_true_iff, !Z.leb_le in R. lia.
Qed.

Lemma civilFromDays_range (z : Z) :
  1 <= snd (fst (civilFromDays z)) <= 12 /\ 1 <= snd (civilFromDays z) <= 31.
Proof.
  unfold civilFromDays. cbv zeta.
  set (doe := (z + 719468) mod 146097).
  assert (D : 0 <= doe < 146097) by (apply Z.mod_pos_bound; lia).
  pose proof (monthDay_range _ (dayOfYear_range doe D)) as R.
  destruct (monthDay (doe - yearStart (yearOfEra doe))) as [m d].
  exact R.
Qed.

Lemma MonthFromTime_range (t : Z) : 1 <= MonthFromTime t <= 12.
Proof. apply civilFromDays_range. Qed.

Lemma DateFromTime_range (t : Z) : 1 <= DateFromTime t <= 31.
Proof. apply civilFromDays_range. Qed.

Close Scope Z_scope.

(* ------------------------------------------------------------------ *)
(** ** Rendering of dates                                              *)
(* ------------------------------------------------------------------ *)

Lemma digitChar_props (d : Z) :
  (0 <= d <= 9)%Z -> isDigit (digitChar d) = true /\ noSpace (digitChar d) = true.
Proof.
  intros H.
  assert (C : holdsFrom
                (fun z => isDigit (digitChar z) && noSpace (digitChar z))
                10 0 = true) by (vm_compute; reflexivity).
  pose proof (holdsFrom_spec _ _ _ C d ltac:(lia)) as R. cbv beta in R.
  apply andb_prop in R. exact R.
Qed.

Lemma toDigits_chars (p : ascii -> bool) :
  (forall d, (0 <= d <= 9)%Z -> p (digitChar d) = true) ->
  forall fuel n acc,
    forallb p acc = true -> forallb p (toDigits fuel n acc) = true.
Proof.
  intros P fuel; induction fuel as [|f IH]; intros n acc A; simpl; auto.
  assert (D : p (digitChar (n mod 10)) = true).
  { apply P. pose proof (Z.mod_pos_bound n 10). lia. }
  destruct (n / 10 =? 0)%Z.
  - simpl. rewrite D, A. reflexivity.
  - apply IH. simpl. rewrite D, A. reflexivity.
Qed.

Lemma toString_noSpace (n : Z) : forallb noSpace (toString n) = true.
Proof.
  unfold toString.
  destruct (n <? 0)%Z;
    [change (forallb noSpace (hyphen :: ?x)) with (forallb noSpace x)|];
    apply toDigits_chars; auto; intros d Hd; apply digitChar_props; exact Hd.
Qed.

Lemma forallb_repeat (p : ascii -> bool) (c : ascii) (n : nat) :
  p c = true -> forallb p (repeat c n) = true.
Proof. intros H; induction n; simpl; auto. rewrite H; auto. Qed.

Lemma pad_noSpace (w : nat) (n : Z) : forallb noSpace (pad w n) = true.
Proof.
  unfold pad, padStart. rewrite forallb_app, toString_noSpace.
  rewrite forallb_repeat; reflexivity.
Qed.

Lemma toISOString_noSpace (t : Z) : forallb noSpace (toISOString t) = true.
Proof.
  unfold toISOString, isoYear.
  destruct ((0 <=? YearFromTime t)%Z && (YearFromTime t <=? 9999)%Z);
    [|destruct (YearFromTime t <? 0)%Z];
    repeat (rewrite forallb_app || simpl forallb || rewrite pad_noSpace);
    reflexivity.
Qed.

Lemma forallb_firstn (p : ascii -> bool) (n : nat) (s : jsstring) :
  forallb p s = true -> forallb p (firstn n s) = true.
Proof.
  revert s; induction n as [|n IH]; intros [|c s]; simpl; auto.
  intros H; apply andb_prop in H as [Pc H]. rewrite Pc; simpl; auto.
Qed.

Lemma noSpace_Forall (s : jsstring) :
  forallb noSpace s = true -> Forall (fun c => isWhiteSpace c = false) s.
Proof.
  intros H. apply Forall_forall. intros c Hc.
  rewrite forallb_forall in H. specialize (H c Hc).
  unfold noSpace in H. destruct (isWhiteSpace c); [discriminate | reflexivity].
Qed.

Lemma pad4_digits (y : Z) :
  (0 <= y <= 9999)%Z ->
  length (pad 4 y) = 4 /\ forallb isDigit (pad 4 y) = true.
Proof.
  intros H.
  assert (C : holdsFrom
                (fun z => (length (pad 4 z) =? 4) && forallb isDigit (pad 4 z))
                (Z.to_nat 10000) 0 = true) by (vm_compute; reflexivity).
  pose proof (holdsFrom_spec _ _ _ C y ltac:(lia)) as R. cbv beta in R.
  apply andb_prop in R as [R1 R2]. apply Nat.eqb_eq in R1. auto.
Qed.

Lemma pad2_shape (n : Z) :
  (0 <= n <= 99)%Z ->
  length (pad 2 n) = 2 /\ forallb isDigit (pad 2 n) = true.
Proof.
  intros H. rewrite pad2_digits by exact H.
  assert (M : (0 <= n mod 10 <= 9)%Z) by (Z.div_mod_to_equations; lia).
  assert (Q : (0 <= n / 10 <= 9)%Z) by (Z.div_mod_to_equations; lia).
  simpl. rewrite (proj1 (digitChar_props _ Q)).
  rewrite (proj1 (digitChar_props _ M)). auto.
Qed.

(** For years 0..9999 the first ten characters of the ISO rendering are
    the UTC calendar date, in the [YYYY-MM-DD] shape. *)
Lemma slice_toISOString (t : Z) :
  (0 <= YearFromTime t <= 9999)%Z ->
  slice0 10 (toISOString t) = utcDate t /\ IsoDateShape (utcDate t).
Proof.
  intros Y.
  destruct (pad4_digits _ Y) as [Ly Dy].
  pose proof (MonthFromTime_range t) as Rm.
  pose proof (DateFromTime_range t) as Rd.
  destruct (pad2_shape (MonthFromTime t) ltac:(lia)) as [Lm Dm].
  destruct (pad2_shape (DateFromTime t) ltac:(lia)) as [Ld Dd].
  split.
  - assert (E : isoYear (YearFromTime t) = pad 4 (YearFromTime t)).
    { unfold isoYear.
      destruct (0 <=? YearFromTime t)%Z eqn:A;
        [|apply Z.leb_gt in A; lia].
      destruct (YearFromTime t <=? 9999)%Z eqn:B;
        [reflexivity | apply Z.leb_gt in B; lia]. }
    assert (L : length (utcDate t) = 10).
    { unfold utcDate. rewrite !length_app, Ly, Lm, Ld. reflexivity. }
    unfold slice0, toISOString. rewrite E.
    replace (pad 4 (YearFromTime t) ++ [hyphen] ++ pad 2 (MonthFromTime t)
               ++ [hyphen] ++ pad 2 (DateFromTime t) ++ _)
      with (utcDate t ++
              (str "T" ++ pad 2 (HourFromTime t)
                 ++ [colon] ++ pad 2 (MinFromTime t)
                 ++ [colon] ++ pad 2 (SecFromTime t)
                 ++ str "." ++ pad 3 (msFromTime t) ++ str "Z")).
    + rewrite <- L, firstn_app, Nat.sub_diag, firstn_all. simpl.
      apply app_nil_r.
    + unfold utcDate. repeat rewrite <- app_assoc. reflexivity.
  - exists (pad 4 (YearFromTime t)), (pad 2 (MonthFromTime t)),
      (pad 2 (DateFromTime t)).
    repeat split; auto.
Qed.

Lemma test_isoDatePattern (t : jsstring) :
  test isoDatePattern t = true <-> IsoDateShape t.
Proof.
  rewrite test_lang. unfold isoDatePattern, IsoDateShape. split.
  - intros H.
    apply lang_Seq in H as [y [r1 [-> [Hy H]]]].
    apply lang_Seq in H as [h1 [r2 [-> [Hh1 H]]]].
    apply lang_Seq in H as [m [r3 [-> [Hm H]]]].
    apply lang_Seq in H as [h2 [d [-> [Hh2 Hd]]]].
    apply lang_Lit in Hh1 as ->. apply lang_Lit in Hh2 as ->.
    apply lang_Rep_Class in Hy as [Ly Fy].
    apply lang_Rep_Class in Hm as [Lm Fm].
    apply lang_Rep_Class in Hd as [Ld Fd].
    exists y, m, d. repeat split; auto.
  - intros [y [m [d [-> [Ly [Lm [Ld [Fy [Fm Fd]]]]]]]]].
    apply lang_Seq. exists y, (hyphen :: m ++ hyphen :: d).
    split; [reflexivity|]. split; [apply lang_Rep_Class; auto|].
    apply lang_Seq. exists [hyphen], (m ++ hyphen :: d).
    split; [reflexivity|]. split; [apply lang_Lit; reflexivity|].
    apply lang_Seq. exists m, (hyphen :: d).
    split; [reflexivity|]. split; [apply lang_Rep_Class; auto|].
    apply lang_Seq. exists [hyphen], d.
    split; [reflexivity|]. split; [apply lang_Lit; reflexivity|].
    apply lang_Rep_Class; auto.
Qed.

Lemma IsoDateShape_dec (t : jsstring) : IsoDateShape t \/ ~ IsoDateShape t.
Proof.
  destruct (test isoDatePattern t) eqn:E.
  - left. apply test_isoDatePattern; exact E.
  - right. intros S. apply test_isoDatePattern in S. congruence.
Qed.

Lemma IsoDateShape_nonempty (t : jsstring) : IsoDateShape t -> truthy t = true.
Proof.
  intros [y [m [d [-> [Ly _]]]]]. destruct y; [discriminate | reflexivity].
Qed.

Section NormalizeDateFacts.
Variable Date_parse : jsstring -> option Z.

Lemma normalizeDate_iso (value : jsstring) :
  IsoDateShape (trim value) -> normalizeDate Date_parse value = Ok (trim value).
Proof.
  intros S. unfold normalizeDate.
  rewrite (IsoDateShape_nonempty _ S). simpl.
  apply test_isoDatePattern in S. rewrite S. reflexivity.
Qed.

Lemma normalizeDate_empty (value : jsstring) :
  trim value = [] ->
  normalizeDate Date_parse value =
    Throw (MkError (str "Date is required and cannot be empty.")).
Proof. intros E. unfold normalizeDate. rewrite E. reflexivity. Qed.

Lemma normalizeDate_general (value : jsstring) :
  trim value <> [] -> ~ IsoDateShape (trim value) ->
  normalizeDate Date_parse value =
    match Date_parse (trim value) with
    | None =>
        Throw (MkError (str "Invalid date format: " ++ quoted value ++ str "."))
    | Some parsed => Ok (slice0 10 (toISOString parsed))
    end.
Proof.
  intros N S. unfold normalizeDate.
  destruct (trim value) as [|c r] eqn:E; [congruence|].
  change (negb (truthy (c :: r))) with false. cbv iota.
  destruct (test isoDatePattern (c :: r)) eqn:T; [|reflexivity].
  apply test_isoDatePattern in T. contradiction.
Qed.

(** Whatever [normalizeDate] returns has no white space in it: the [trim]
    setter of the [date] path leaves it as it is. *)
Lemma normalizeDate_trimmed (value out : jsstring) :
  normalizeDate Date_parse value = Ok out -> trim out = out.
Proof.
  unfold normalizeDate.
  destruct (negb (truthy (trim value))); [discriminate|].
  destruct (test isoDatePattern (trim value)) eqn:T.
  - intros E; injection E as <-.
    apply test_isoDatePattern in T.
    destruct T as [y [m [d [E [_ [_ [_ [Fy [Fm Fd]]]]]]]]].
    rewrite E. apply trim_none, noSpace_Forall.
    rewrite forallb_app. simpl. rewrite forallb_app. simpl.
    rewrite !(forallb_impl isDigit noSpace) by
      (auto; intros c; all_chars c).
    reflexivity.
  - destruct (Date_parse (trim value)) as [t|]; [|discriminate].
    intros E. replace out with (slice0 10 (toISOString t)) by congruence.
    apply trim_none, noSpace_Forall, forallb_firstn, toISOString_noSpace.
Qed.
End NormalizeDateFacts.

(* ------------------------------------------------------------------ *)
(** ** C1 and C10                                                      *)
(* ------------------------------------------------------------------ *)

Lemma slice_of_day (t : Z) (y m d : Z) :
  civilFromDays (Day t) = (y, m, d) ->
  (0 <= y <= 9999)%Z ->
  slice0 10 (toISOString t)
  = pad 4 y ++ [hyphen] ++ pad 2 m ++ [hyphen] ++ pad 2 d.
Proof.
  intros E Y.
  assert (Ey : YearFromTime t = y)
    by (unfold YearFromTime; rewrite E; reflexivity).
  assert (Em : MonthFromTime t = m)
    by (unfold MonthFromTime; rewrite E; reflexivity).
  assert (Ed : DateFromTime t = d)
    by (unfold DateFromTime; rewrite E; reflexivity).
  rewrite <- Ey in Y. destruct (slice_toISOString t Y) as [S _].
  rewrite S. unfold utcDate. rewrite Ey, Em, Ed. reflexivity.
Qed.

(** What [normalizeDate] computes, for every input and every host date
    parser: a trimmed input of the shape YYYY-MM-DD is returned as it is;
    an input that is empty after trimming, or that the parser rejects,
    fails; any other input is parsed by the host and, when the UTC year
    of the parsed instant is within 0..9999, the result is the UTC
    calendar date of that instant, whatever the date the input names. *)
Lemma normalizeDate_utc_date_of_instant :
  forall (Date_parse : jsstring -> option Z) (value : jsstring),
    let trimmed := trim value in
    (IsoDateShape trimmed -> normalizeDate Date_parse value = Ok trimmed)
    /\ (trimmed = [] \/ (~ IsoDateShape trimmed /\ Date_parse trimmed = None) ->
        exists e, normalizeDate Date_parse value = Throw e)
    /\ (forall t,
          trimmed <> [] -> ~ IsoDateShape trimmed ->
          Date_parse trimmed = Some t ->
          (0 <= YearFromTime t <= 9999)%Z ->
          normalizeDate Date_parse value = Ok (utcDate t)
          /\ IsoDateShape (utcDate t))
    /\ normalizeDate Date_parse (str "2024-05-01") = Ok (str "2024-05-01")
    /\ (forall t,
          Date_parse (str "May 1, 2024") = Some t ->
          civilFromDays (Day t) = (2024, 5, 1)%Z ->
          normalizeDate Date_parse (str "May 1, 2024") = Ok (str "2024-05-01")).
Proof.
  intros Date_parse value trimmed. subst trimmed.
  split; [apply normalizeDate_iso|]. split; [|split; [|split]].
  - intros [E|[S E]].
    + rewrite normalizeDate_empty by exact E. eauto.
    + destruct (trim value) as [|c r] eqn:Et.
      * rewrite normalizeDate_empty by exact Et. eauto.
      * rewrite normalizeDate_general, Et, E; eauto.
        -- rewrite Et; discriminate.
        -- rewrite Et; exact S.
  - intros t N S E Y.
    rewrite normalizeDate_general, E by assumption.
    destruct (slice_toISOString t Y) as [-> Sh]. auto.
  - reflexivity.
  - intros t E D.
    rewrite normalizeDate_general.
    + change (trim (str "May 1, 2024")) with (str "May 1, 2024").
      rewrite E, (slice_of_day t _ _ _ D) by lia. reflexivity.
    + discriminate.
    + intros S. apply test_isoDatePattern in S. discriminate.
Qed.

(** On a host in UTC, "May 1, 2024" is normalized to "2024-05-01". *)
Example normalizeDate_on_utc_host :
  hostDateParse 0 (str "May 1, 2024") = Some 1714521600000%Z
  /\ normalizeDate (hostDateParse 0) (str "May 1, 2024") = Ok (str "2024-05-01").
Proof.
  split; [reflexivity|].
  apply (proj2 (proj2 (proj2 (proj2
           (normalizeDate_utc_date_of_instant (hostDateParse 0) (str "May 1, 2024")))))
         1714521600000%Z); reflexivity.
Qed.

(** C1 fails on the code.  The claim has "May 1, 2024" normalized to
    "2024-05-01".  A host two hours east of UTC reads "May 1, 2024" as
    midnight of its own time, the instant 2024-04-30T22:00:00Z, and
    [normalizeDate] prints the UTC date of that instant: the date comes
    out as "2024-04-30", the day before the one written.  The same host
    keeps the date when it is written "2024-05-01", and a host in UTC
    returns "2024-05-01" for both.  The day is lost on every host from
    one minute to fourteen hours east of UTC. *)
Theorem C1_local_midnight_printed_as_utc_date :
  hostDateParse 120 (str "May 1, 2024") = Some 1714514400000%Z
  /\ toISOString 1714514400000 = str "2024-04-30T22:00:00.000Z"
  /\ normalizeDate (hostDateParse 120) (str "May 1, 2024")
     = Ok (str "2024-04-30")
  /\ normalizeDate (hostDateParse 120) (str "May 1, 2024")
     <> Ok (str "2024-05-01")
  /\ normalizeDate (hostDateParse 120) (str "2024-05-01")
     = Ok (str "2024-05-01")
  /\ normalizeDate (hostDateParse 0) (str "May 1, 2024")
     = Ok (str "2024-05-01")
  /\ (forall offsetMinutes : Z,
        (0 < offsetMinutes <= 840)%Z ->
        normalizeDate (hostDateParse offsetMinutes) (str "May 1, 2024")
        = Ok (str "2024-04-30")).
Proof.
  split; [reflexivity|]. split; [reflexivity|]. split; [reflexivity|].
  split; [intros E; vm_compute in E; discriminate|].
  split; [reflexivity|]. split; [reflexivity|].
  intros offsetMinutes H.
  pose (check := fun z : Z =>
          match normalizeDate (hostDateParse z) (str "May 1, 2024") with
          | Ok d => jsstring_eqb d (str "2024-04-30")
          | Throw _ => false
          end).
  assert (C : check offsetMinutes = true).
  { apply (holdsFrom_spec check 840 1%Z); [vm_compute; reflexivity | lia]. }
  unfold check in C.
  destruct (normalizeDate (hostDateParse offsetMinutes) (str "May 1, 2024"))
    as [d|e]; [|discriminate C].
  apply jsstring_eqb_eq in C. rewrite C. reflexivity.
Qed.

(** C10: a trimmed input of four digits, a hyphen, two digits, a hyphen
    and two digits is returned unchanged whatever the host's parser would
    make of it: the parser is not consulted, and no calendar check is
    made. *)
Theorem C10_iso_shape_returned_unchecked :
  forall (Date_parse : jsstring -> option Z) (value : jsstring),
    IsoDateShape (trim value) ->
    normalizeDate Date_parse value = Ok (trim value)
    /\ forall other_parse : jsstring -> option Z,
         normalizeDate other_parse value = normalizeDate Date_parse value.
Proof.
  intros Date_parse value S. split; [apply normalizeDate_iso; exact S|].
  intros other. rewrite !normalizeDate_iso by exact S. reflexivity.
Qed.

(** "2024-13-99" has the shape, is returned unchanged, and is the date of
    no day. *)
Lemma C10_witness_month_13 :
  IsoDateShape (trim (str "2024-13-99"))
  /\ normalizeDate (hostDateParse 0) (str "2024-13-99") = Ok (str "2024-13-99")
  /\ (forall z, civilFromDays z <> (2024, 13, 99)%Z).
Proof.
  assert (S : IsoDateShape (trim (str "2024-13-99")))
    by (apply test_isoDatePattern; reflexivity).
  split; [exact S|]. split.
  - exact (proj1 (C10_iso_shape_returned_unchecked
                    (hostDateParse 0) (str "2024-13-99") S)).
  - intros z E. pose proof (civilFromDays_range z) as R.
    rewrite E in R. simpl in R. lia.
Defined.

(* ================================================================== *)
(** * The Event pre-save hook                                          *)
(* ================================================================== *)

Lemma trim_slugify (title : jsstring) : trim (slugify title) = slugify title.
Proof.
  apply trim_none. apply (slug_chars _ (slugify_hyphenated title)).
Qed.

Lemma normalizeTime_trimmed (value out : jsstring) :
  normalizeTime value = Ok out -> trim out = out.
Proof.
  intros E.
  destruct (proj1 (normalizeTime_Ok_iff value out) E)
    as [hs [ms [_ [Rh [Rm ->]]]]].
  assert (D : forall n, (0 <= n <= 59)%Z ->
                noSpace (digitChar (n / 10)) = true
                /\ noSpace (digitChar (n mod 10)) = true).
  { intros n Hn. split; apply digitChar_props; Z.div_mod_to_equations; lia. }
  destruct (D (Number hs) ltac:(lia)) as [H1 H2].
  destruct (D (Number ms) Rm) as [M1 M2].
  apply trim_none, noSpace_Forall. unfold HHmm.
  cbn [forallb]. rewrite H1, H2, M1, M2. reflexivity.
Qed.

Lemma assign_slug_frame (v : jsstring) (this : EventDocument) :
  let this' := set_slug v this in
  slug (doc this') = trim v
  /\ title (doc this') = title (doc this)
  /\ date (doc this') = date (doc this)
  /\ time (doc this') = time (doc this).
Proof. repeat split. Qed.

Lemma assign_date_frame (v : jsstring) (this : EventDocument) :
  let this' := set_date v this in
  date (doc this') = trim v
  /\ title (doc this') = title (doc this)
  /\ slug (doc this') = slug (doc this)
  /\ time (doc this') = time (doc this).
Proof. repeat split. Qed.

Lemma assign_time_frame (v : jsstring) (this : EventDocument) :
  let this' := set_time v this in
  time (doc this') = trim v
  /\ title (doc this') = title (doc this)
  /\ slug (doc this') = slug (doc this)
  /\ date (doc this') = date (doc this).
Proof. repeat split. Qed.

(** The hook, path by path. *)
Lemma event_pre_save_spec (Date_parse : jsstring -> option Z)
    (this : EventDocument) :
  let out := event_pre_save Date_parse this in
  slug (doc (fst out)) =
    (if isModified "title" this then slugify (title (doc this))
     else slug (doc this))
  /\ title (doc (fst out)) = title (doc this)
  /\ snd out =
       match normalizeDate Date_parse (date (doc this)) with
       | Throw e => Throw e
       | Ok _ =>
           match normalizeTime (time (doc this)) with
           | Throw e => Throw e
           | Ok _ => Ok tt
           end
       end
  /\ (forall d t,
        normalizeDate Date_parse (date (doc this)) = Ok d ->
        normalizeTime (time (doc this)) = Ok t ->
        date (doc (fst out)) = d /\ time (doc (fst out)) = t).
Proof.
  cbv zeta. unfold event_pre_save.
  set (this1 := if isModified "title" this
                then set_slug (slugify (title (doc this))) this else this).
  assert (F : slug (doc this1) =
                (if isModified "title" this then slugify (title (doc this))
                 else slug (doc this))
              /\ title (doc this1) = title (doc this)
              /\ date (doc this1) = date (doc this)
              /\ time (doc this1) = time (doc this)).
  { subst this1. destruct (isModified "title" this); [|auto].
    destruct (assign_slug_frame (slugify (title (doc this))) this)
      as [E1 [E2 [E3 E4]]].
    rewrite trim_slugify in E1. auto. }
  destruct F as [F1 [F2 [F3 F4]]]. rewrite F3.
  destruct (normalizeDate Date_parse (date (doc this))) as [d|e] eqn:D.
  - change (time (doc (set_date d this1))) with (time (doc this1)).
    rewrite F4.
    destruct (normalizeTime (time (doc this))) as [t|e] eqn:T;
      cbn [fst snd]; (split; [exact F1|]); (split; [exact F2|]);
      (split; [reflexivity|]); intros d' t' Ed Et; [|discriminate].
    injection Ed as <-. injection Et as <-.
    change (date (doc (set_time t (set_date d this1)))) with (trim d).
    change (time (doc (set_time t (set_date d this1)))) with (trim t).
    rewrite (normalizeDate_trimmed _ _ _ D).
    rewrite (normalizeTime_trimmed _ _ T). auto.
  - cbn [fst snd]. (split; [exact F1|]); (split; [exact F2|]);
      (split; [reflexivity|]); intros d' t' Ed Et; discriminate.
Qed.

(** C6: on every save the hook sets [slug] to [slugify title] when the
    title is new or changed and leaves it as it was otherwise, while
    [date] and [time] are normalized again on every save: the outcome
    and the stored date and time are the same whichever paths are
    marked modified. *)
Theorem C6_event_pre_save_slug_and_normalization :
  forall (Date_parse : jsstring -> option Z) (this : EventDocument),
    let out := event_pre_save Date_parse this in
    slug (doc (fst out)) =
      (if isModified "title" this then slugify (title (doc this))
       else slug (doc this))
    /\ (snd out = Ok tt <->
        exists d t,
          normalizeDate Date_parse (date (doc this)) = Ok d
          /\ normalizeTime (time (doc this)) = Ok t
          /\ date (doc (fst out)) = d
          /\ time (doc (fst out)) = t)
    /\ (forall paths : list string,
          let out' :=
            event_pre_save Date_parse
              {| doc := doc this; modifiedPaths := paths |} in
          snd out' = snd out
          /\ (snd out = Ok tt ->
              date (doc (fst out')) = date (doc (fst out))
              /\ time (doc (fst out')) = time (doc (fst out)))).
Proof.
  intros Date_parse this out.
  destruct (event_pre_save_spec Date_parse this) as [S [_ [R DT]]].
  fold out in S, R, DT.
  split; [exact S|]. split.
  - rewrite R. split.
    + destruct (normalizeDate Date_parse (date (doc this))) as [d|e] eqn:D;
        [|discriminate].
      destruct (normalizeTime (time (doc this))) as [t|e] eqn:T;
        [|discriminate].
      intros _. destruct (DT d t eq_refl eq_refl). exists d, t. auto.
    + intros [d [t [-> [-> _]]]]. reflexivity.
  - intros paths out'.
    destruct (event_pre_save_spec Date_parse
                {| doc := doc this; modifiedPaths := paths |})
      as [_ [_ [R' DT']]].
    fold out' in R', DT'. simpl doc in R', DT'.
    split; [congruence|].
    rewrite R.
    destruct (normalizeDate Date_parse (date (doc this))) as [d|e] eqn:D;
      [|discriminate].
    destruct (normalizeTime (time (doc this))) as [t|e] eqn:T;
      [|discriminate].
    intros _. destruct (DT d t eq_refl eq_refl) as [-> ->].
    destruct (DT' d t eq_refl eq_refl) as [-> ->]. auto.
Qed.

(* ================================================================== *)
(** * Further properties of [slugify]                                  *)
(* ================================================================== *)

Lemma lower_slug_is_alnum (c : ascii) :
  isSlugChar (toLowerChar c) = isAlphanumeric c.
Proof. all_chars c. Qed.

Lemma lower_idem (c : ascii) : toLowerChar (toLowerChar c) = toLowerChar c.
Proof. all_chars c. Qed.

Lemma hyphen_is_no_slug_char (c : ascii) :
  isHyphen c = true -> isSlugChar c = false.
Proof. all_chars c. Qed.

Lemma toLowerCase_idem (s : jsstring) :
  toLowerCase (toLowerCase s) = toLowerCase s.
Proof.
  unfold toLowerCase. rewrite map_map. apply map_ext. apply lower_idem.
Qed.

Lemma hyphenated_suffix (p : ascii -> bool) (u w : jsstring) :
  forall b,
    hyphenated p b (u ++ w) = true ->
    hyphenated p (endsInRun p b u) w = true.
Proof.
  induction u as [|c r IH]; intros b; simpl; [auto|].
  unfold endsInRun; simpl. fold (endsInRun p (p c) r).
  destruct (p c).
  - intros H. apply andb_prop in H as [_ H]. apply IH; exact H.
  - apply IH.
Qed.

Lemma slugify_alphabet (title : jsstring) :
  forallb (fun c => isSlugChar c || isHyphen c) (slugify title) = true.
Proof.
  pose proof (slugify_hyphenated title) as H.
  apply hyphenated_chars in H. apply forallb_forall. intros c Hc.
  rewrite Forall_forall in H. destruct (H c Hc) as [E|E].
  - unfold notSlugChar in E. apply negb_false_iff in E. rewrite E.
    reflexivity.
  - rewrite E. apply orb_true_r.
Qed.

(** X1: The slug is URL-safe: it is made of [a-z], [0-9] and hyphens, it
    neither starts nor ends with a hyphen, and it has no two hyphens in
    a row. *)
Theorem slugify_url_safe :
  forall title : jsstring,
    forallb (fun c => isSlugChar c || isHyphen c) (slugify title) = true
    /\ (forall r, slugify title <> hyphen :: r)
    /\ (forall r, slugify title <> r ++ [hyphen])
    /\ (forall u v, slugify title <> u ++ hyphen :: hyphen :: v).
Proof.
  intros title. pose proof (slugify_hyphenated title) as H.
  split; [|split; [|split]].
  - apply slugify_alphabet.
  - intros r. apply stripHyphens_no_leading.
  - intros r. unfold slugify, stripHyphens. apply dropWhileEnd_no_trailing.
  - intros u v E. rewrite E in H. apply hyphenated_suffix in H.
    simpl in H. rewrite !andb_false_r in H.
    destruct (endsInRun notSlugChar false u); discriminate.
Qed.

Lemma filter_dropWhile (p q : ascii -> bool) (s : jsstring) :
  (forall c, p c = true -> q c = false) ->
  filter q (dropWhile p s) = filter q s.
Proof.
  intros H; induction s as [|c r IH]; simpl; [reflexivity|].
  destruct (p c) eqn:Pc; [|reflexivity].
  rewrite (H c Pc). exact IH.
Qed.

Lemma filter_dropWhileEnd (p q : ascii -> bool) (s : jsstring) :
  (forall c, p c = true -> q c = false) ->
  filter q (dropWhileEnd p s) = filter q s.
Proof.
  intros H. unfold dropWhileEnd.
  rewrite filter_rev, filter_dropWhile, <- filter_rev, rev_involutive by exact H.
  reflexivity.
Qed.

Lemma filter_replaceRuns (s : jsstring) :
  forall b,
    filter isSlugChar (replaceRuns notSlugChar hyphen b s)
    = filter isSlugChar s.
Proof.
  induction s as [|c r IH]; intros b; simpl; [reflexivity|].
  unfold notSlugChar at 1. destruct (isSlugChar c) eqn:Sc; simpl.
  - rewrite Sc, IH. reflexivity.
  - destruct b; simpl; apply IH.
Qed.

Lemma length_dropWhile {A : Type} (p : A -> bool) (s : list A) :
  length (dropWhile p s) <= length s.
Proof.
  induction s as [|c r IH]; simpl; [lia|]. destruct (p c); simpl; [|lia].
  apply Nat.le_trans with (length r); [exact IH | lia].
Qed.

Lemma length_dropWhileEnd {A : Type} (p : A -> bool) (s : list A) :
  length (dropWhileEnd p s) <= length s.
Proof.
  unfold dropWhileEnd. rewrite length_rev.
  pose proof (length_dropWhile p (rev s)) as L. rewrite length_rev in L.
  exact L.
Qed.

Lemma length_replaceRuns (p : ascii -> bool) (s : jsstring) :
  forall b, length (replaceRuns p hyphen b s) <= length s.
Proof.
  induction s as [|c r IH]; intros b; simpl; [lia|].
  pose proof (IH true). pose proof (IH false).
  destruct (p c); [destruct b|]; simpl; lia.
Qed.

Lemma slugify_filter (title : jsstring) :
  filter isSlugChar (slugify title)
  = filter isSlugChar (toLowerCase (trim title)).
Proof.
  unfold slugify, stripHyphens.
  rewrite filter_dropWhileEnd, filter_dropWhile
    by apply hyphen_is_no_slug_char.
  apply filter_replaceRuns.
Qed.

(** X2: The slug keeps every character a-z and 0-9 of the trimmed,
    lower-cased title, in order, adds nothing but hyphens, and is never
    longer than that lower-cased text. *)
Theorem slugify_keeps_letters_and_digits :
  forall title : jsstring,
    filter isSlugChar (slugify title)
    = filter isSlugChar (toLowerCase (trim title))
    /\ forallb (fun c => isSlugChar c || isHyphen c) (slugify title) = true
    /\ length (slugify title) <= length (toLowerCase (trim title)).
Proof.
  intros title. split; [|split].
  - apply slugify_filter.
  - apply slugify_alphabet.
  - unfold slugify, stripHyphens.
    eapply Nat.le_trans; [apply length_dropWhileEnd|].
    eapply Nat.le_trans; [apply length_dropWhile|].
    apply length_replaceRuns.
Qed.

Lemma filter_nil_forallb (s : jsstring) :
  filter isSlugChar s = [] <-> forallb notSlugChar s = true.
Proof.
  induction s as [|c r IH]; simpl; [tauto|].
  unfold notSlugChar at 1. destruct (isSlugChar c); simpl.
  - split; discriminate.
  - exact IH.
Qed.

Lemma slugify_nil_iff (title : jsstring) :
  slugify title = []
  <-> forallb notSlugChar (toLowerCase (trim title)) = true.
Proof.
  rewrite <- filter_nil_forallb, <- slugify_filter. split.
  - intros ->. reflexivity.
  - intros K. destruct (slugify title) as [|c r] eqn:E; [reflexivity|].
    exfalso.
    pose proof (slugify_alphabet title) as C.
    pose proof (stripHyphens_no_leading
                  (replaceRuns notSlugChar hyphen false
                     (toLowerCase (trim title))) r) as L.
    fold (slugify title) in L. rewrite E in C, L.
    simpl in C, K. apply andb_prop in C as [Cc _].
    destruct (isSlugChar c) eqn:S; [discriminate K|].
    simpl in Cc. apply isHyphen_eq in Cc. subst c. apply L. reflexivity.
Qed.

Lemma alnum_not_ws (c : ascii) :
  isAlphanumeric c = true -> isWhiteSpace c = false.
Proof. all_chars c. Qed.

Lemma In_trim (c : ascii) (s : jsstring) :
  In c s -> isWhiteSpace c = false -> In c (trim s).
Proof.
  intros I W. destruct (trim_split s) as [a [b [E [Fa Fb]]]].
  rewrite E in I. rewrite forallb_forall in Fa, Fb.
  apply in_app_or in I as [I|I]; [rewrite (Fa c I) in W; discriminate|].
  apply in_app_or in I as [I|I]; [exact I|].
  rewrite (Fb c I) in W; discriminate.
Qed.

(** X3: The slug is empty exactly when the trimmed, lower-cased title
    has no character a-z or 0-9; a title with a letter A-Z or a-z or a
    digit never has an empty slug. *)
Theorem slugify_empty_iff :
  forall title : jsstring,
    (slugify title = []
     <-> forallb notSlugChar (toLowerCase (trim title)) = true)
    /\ (existsb isAlphanumeric title = true -> slugify title <> []).
Proof.
  intros title. split; [apply slugify_nil_iff|].
  intros X E. apply slugify_nil_iff in E.
  apply existsb_exists in X as [c [Hc Ac]].
  pose proof (In_trim c title Hc (alnum_not_ws c Ac)) as I.
  rewrite forallb_forall in E.
  specialize (E (toLowerChar c) (in_map toLowerChar _ _ I)).
  unfold notSlugChar in E. rewrite lower_slug_is_alnum, Ac in E.
  discriminate E.
Qed.

Lemma replaceRuns_run_any (run v : jsstring) (b : bool) :
  forallb notSlugChar run = true -> run <> [] ->
  replaceRuns notSlugChar hyphen b (run ++ v)
  = (if b then [] else [hyphen]) ++ replaceRuns notSlugChar hyphen true v.
Proof.
  intros F N. destruct b.
  - apply replaceRuns_prefix_in; exact F.
  - apply replaceRuns_prefix_out; assumption.
Qed.

(** X4: Titles that differ only in the case of their letters, or in
    which separators stand between their words and how many, or in what
    separators surround them, have the same slug; a separator is a
    character whose lower-casing holds no a-z and no 0-9. *)
Theorem slugify_ignores_case_and_separators :
  (forall t : jsstring, slugify (toLowerCase t) = slugify t)
  /\ (forall u r1 r2 v : jsstring,
        r1 <> [] -> r2 <> [] ->
        forallb notSlugChar (toLowerCase r1) = true ->
        forallb notSlugChar (toLowerCase r2) = true ->
        slugify (u ++ r1 ++ v) = slugify (u ++ r2 ++ v))
  /\ (forall a t b : jsstring,
        forallb notSlugChar (toLowerCase a) = true ->
        forallb notSlugChar (toLowerCase b) = true ->
        slugify (a ++ t ++ b) = slugify t).
Proof.
  split; [|split].
  - intros t. rewrite !slugify_no_trim, toLowerCase_idem. reflexivity.
  - intros u r1 r2 v N1 N2 F1 F2. rewrite !slugify_no_trim.
    unfold toLowerCase. rewrite !map_app.
    fold (toLowerCase u) (toLowerCase r1) (toLowerCase r2) (toLowerCase v).
    rewrite (replaceRuns_app notSlugChar (toLowerCase u)
               (toLowerCase r1 ++ toLowerCase v)).
    rewrite (replaceRuns_app notSlugChar (toLowerCase u)
               (toLowerCase r2 ++ toLowerCase v)).
    rewrite !replaceRuns_run_any; auto;
      unfold toLowerCase; intros E; apply map_eq_nil in E; contradiction.
  - intros a t b Fa Fb. rewrite !slugify_no_trim.
    unfold toLowerCase. rewrite !map_app.
    apply strip_runs_padding; assumption.
Qed.

(** "Re-Act Conf!" and "  re act   CONF " have the slug "re-act-conf". *)
Lemma slugify_same_slug_witness :
  slugify (str "Re-Act Conf!") = slugify (str "  re act   CONF ")
  /\ slugify (str "Re-Act Conf!") = str "re-act-conf".
Proof.
  split; [|reflexivity].
  destruct slugify_ignores_case_and_separators as [C [R P]].
  rewrite <- (C (str "Re-Act Conf!")), <- (C (str "  re act   CONF ")).
  change (toLowerCase (str "Re-Act Conf!"))
    with (str "re" ++ str "-" ++ str "act conf!").
  change (toLowerCase (str "  re act   CONF "))
    with (str "  " ++ (str "re" ++ str " " ++ str "act   conf") ++ str " ").
  rewrite (P (str "  ") _ (str " ")) by reflexivity.
  rewrite (R (str "re") (str "-") (str " ") (str "act conf!"));
    try reflexivity; try discriminate.
Defined.

(* ================================================================== *)
(** * Further properties of [trim] and of the two normalizations       *)
(* ================================================================== *)

Lemma trim_idem (s : jsstring) : trim (trim s) = trim s.
Proof.
  unfold trim.
  rewrite <- (drop_ends_comm isWhiteSpace (dropWhile isWhiteSpace s)).
  rewrite dropWhile_idem, dropWhileEnd_idem. reflexivity.
Qed.

Lemma trim_padding (a s b : jsstring) :
  forallb isWhiteSpace a = true -> forallb isWhiteSpace b = true ->
  trim (a ++ s ++ b) = trim s.
Proof.
  intros Fa Fb. unfold trim.
  rewrite dropWhile_app_all by exact Fa.
  rewrite !drop_ends_comm, dropWhileEnd_app_all by exact Fb. reflexivity.
Qed.

Lemma trim_nil_iff (s : jsstring) :
  trim s = [] <-> forallb isWhiteSpace s = true.
Proof.
  unfold trim. split.
  - intros E. apply dropWhile_nil_all.
    destruct (dropWhile isWhiteSpace s) as [|c r] eqn:D; [reflexivity|].
    exfalso. pose proof (dropWhile_head _ _ _ _ D) as Hc.
    rewrite dropWhileEnd_cons, Hc in E. discriminate.
  - intros F. rewrite dropWhile_all by exact F. reflexivity.
Qed.

Lemma Number_of_two_digits (n : Z) :
  (0 <= n <= 99)%Z ->
  Number [digitChar (n / 10); digitChar (n mod 10)]%Z = n.
Proof.
  intros H. apply Z.eqb_eq.
  apply (holdsFrom_spec
           (fun z => (Number [digitChar (z / 10); digitChar (z mod 10)]
                      =? z)%Z) 100 0%Z);
    [vm_compute; reflexivity | lia].
Qed.

Lemma HHmm_shape (h m : Z) :
  (0 <= h <= 99)%Z -> (0 <= m <= 99)%Z ->
  TimeShape (HHmm h m)
    [digitChar (h / 10); digitChar (h mod 10)]%Z
    [digitChar (m / 10); digitChar (m mod 10)]%Z.
Proof.
  intros Hh Hm. unfold TimeShape, HHmm.
  assert (D : forall n, (0 <= n <= 99)%Z ->
                isDigit (digitChar (n / 10)) = true
                /\ isDigit (digitChar (n mod 10)) = true).
  { intros n Hn. split; apply digitChar_props; Z.div_mod_to_equations; lia. }
  destruct (D h Hh) as [H1 H2]. destruct (D m Hm) as [M1 M2].
  repeat split; auto; simpl; rewrite ?H1, ?H2, ?M1, ?M2; reflexivity.
Qed.

Lemma normalizeTime_by_trim (value value' out : jsstring) :
  trim value' = trim value ->
  normalizeTime value = Ok out -> normalizeTime value' = Ok out.
Proof.
  intros E H. apply normalizeTime_Ok_iff. rewrite E.
  apply normalizeTime_Ok_iff. exact H.
Qed.

Lemma normalizeTime_fixed (value out : jsstring) :
  normalizeTime value = Ok out -> normalizeTime out = Ok out.
Proof.
  intros H. pose proof (normalizeTime_trimmed _ _ H) as T.
  apply normalizeTime_Ok_iff in H as [hs [ms [S [Rh [Rm ->]]]]].
  set (h := Number hs) in *. set (m := Number ms) in *.
  apply normalizeTime_Ok_iff. rewrite T.
  eexists _, _. split; [exact (HHmm_shape h m ltac:(lia) ltac:(lia))|].
  rewrite (Number_of_two_digits h ltac:(lia)).
  rewrite (Number_of_two_digits m ltac:(lia)).
  repeat split; lia.
Qed.

(** X5: What [normalizeTime] returns is in canonical form: five characters,
    two digits on either side of the colon, and a fixed point of
    [normalizeTime]; white space around the input does not change it. *)
Theorem normalizeTime_canonical :
  forall value out : jsstring,
    normalizeTime value = Ok out ->
    normalizeTime out = Ok out
    /\ length out = 5
    /\ (exists hh mm,
          TimeShape out hh mm /\ length hh = 2
          /\ (0 <= Number hh <= 23)%Z /\ (0 <= Number mm <= 59)%Z)
    /\ (forall a b : jsstring,
          forallb isWhiteSpace a = true -> forallb isWhiteSpace b = true ->
          normalizeTime (a ++ value ++ b) = Ok out).
Proof.
  intros value out H.
  pose proof (normalizeTime_fixed _ _ H) as Fx.
  pose proof H as H0.
  apply normalizeTime_Ok_iff in H as [hs [ms [S [Rh [Rm ->]]]]].
  set (h := Number hs) in *. set (m := Number ms) in *.
  pose proof (HHmm_shape h m ltac:(lia) ltac:(lia)) as Sh.
  pose proof (Number_of_two_digits h ltac:(lia)) as Nh.
  pose proof (Number_of_two_digits m ltac:(lia)) as Nm.
  split; [|split; [reflexivity|split]].
  - exact Fx.
  - eexists _, _. split; [exact Sh|]. rewrite Nh, Nm.
    repeat split; lia.
  - intros a b Fa Fb.
    apply (normalizeTime_by_trim value); [|exact H0].
    apply trim_padding; assumption.
Qed.

(** " 9:05 " is normalized to "09:05", which normalizes to itself. *)
Lemma normalizeTime_canonical_witness :
  normalizeTime (str " 9:05 ") = Ok (str "09:05")
  /\ normalizeTime (str "09:05") = Ok (str "09:05").
Proof.
  split; [reflexivity|].
  exact (proj1 (normalizeTime_canonical (str " 9:05 ") (str "09:05")
                  eq_refl)).
Defined.

Section NormalizeDateMore.
Variable Date_parse : jsstring -> option Z.

Lemma normalizeDate_by_trim (value value' out : jsstring) :
  trim value' = trim value ->
  normalizeDate Date_parse value = Ok out ->
  normalizeDate Date_parse value' = Ok out.
Proof.
  unfold normalizeDate. intros ->.
  destruct (negb (truthy (trim value))); [discriminate|].
  destruct (test isoDatePattern (trim value)); [auto|].
  destruct (Date_parse (trim value)); [auto | discriminate].
Qed.

Lemma normalizeDate_result (value out : jsstring) :
  normalizeDate Date_parse value = Ok out ->
  IsoDateShape out
  \/ exists t, Date_parse (trim value) = Some t
               /\ out = slice0 10 (toISOString t)
               /\ ~ (0 <= YearFromTime t <= 9999)%Z.
Proof.
  intros H. destruct (IsoDateShape_dec (trim value)) as [S|S].
  - rewrite normalizeDate_iso in H by exact S.
    left. congruence.
  - destruct (trim value) as [|c r] eqn:E.
    + rewrite normalizeDate_empty in H by exact E. discriminate.
    + rewrite normalizeDate_general in H;
        [|rewrite E; discriminate | rewrite E; exact S].
      rewrite E in H. destruct (Date_parse (c :: r)) as [t|]; [|discriminate].
      destruct (Z_le_dec 0 (YearFromTime t)) as [A|A];
        [destruct (Z_le_dec (YearFromTime t) 9999) as [B|B]|].
      * left. destruct (slice_toISOString t (conj A B)) as [Es Sh].
        replace out with (utcDate t) by congruence. exact Sh.
      * right. exists t. repeat split; [congruence | lia].
      * right. exists t. repeat split; [congruence | lia].
Qed.
End NormalizeDateMore.

(** X6: A date returned by [normalizeDate] is of the shape YYYY-MM-DD unless
    the host parsed the input to a year outside 0..9999; a returned date
    of that shape is returned again unchanged, on every host; and white
    space around the input does not change the result. *)
Theorem normalizeDate_canonical :
  forall (Date_parse : jsstring -> option Z) (value out : jsstring),
    normalizeDate Date_parse value = Ok out ->
    (IsoDateShape out
     \/ exists t, Date_parse (trim value) = Some t
                  /\ ~ (0 <= YearFromTime t <= 9999)%Z)
    /\ (IsoDateShape out ->
        forall other_parse : jsstring -> option Z,
          normalizeDate other_parse out = Ok out)
    /\ (forall a b : jsstring,
          forallb isWhiteSpace a = true -> forallb isWhiteSpace b = true ->
          normalizeDate Date_parse (a ++ value ++ b) = Ok out).
Proof.
  intros Date_parse value out H. split; [|split].
  - destruct (normalizeDate_result _ _ _ H) as [S|[t [E [_ Y]]]]; eauto.
  - intros S other.
    pose proof (normalizeDate_trimmed _ _ _ H) as T.
    rewrite <- T at 2. apply normalizeDate_iso. rewrite T. exact S.
  - intros a b Fa Fb.
    apply (normalizeDate_by_trim Date_parse value); [|exact H].
    apply trim_padding; assumption.
Qed.

(** On a host in UTC " May 1, 2024 " is normalized to "2024-05-01", which
    every host returns unchanged. *)
Lemma normalizeDate_canonical_witness :
  normalizeDate (hostDateParse 0) (str "May 1, 2024") = Ok (str "2024-05-01")
  /\ normalizeDate (hostDateParse 120) (str "2024-05-01")
     = Ok (str "2024-05-01")
  /\ normalizeDate (hostDateParse 0) (str " May 1, 2024 ")
     = Ok (str "2024-05-01").
Proof.
  assert (H : normalizeDate (hostDateParse 0) (str "May 1, 2024")
              = Ok (str "2024-05-01")) by reflexivity.
  destruct (normalizeDate_canonical _ _ _ H) as [_ [F P]].
  split; [exact H|]. split.
  - apply F. apply test_isoDatePattern. reflexivity.
  - exact (P (str " ") (str " ") eq_refl eq_refl).
Defined.

(* ================================================================== *)
(** * Further properties of the Event pre-save hook                    *)
(* ================================================================== *)

Section EventPreSaveMore.
Variable Date_parse : jsstring -> option Z.

Lemma event_pre_save_others (this : EventDocument) :
  sameOtherFields (doc this) (doc (fst (event_pre_save Date_parse this))).
Proof.
  unfold sameOtherFields, event_pre_save.
  destruct (isModified "title" this);
    (match goal with
     | |- context [normalizeDate Date_parse ?d] =>
         destruct (normalizeDate Date_parse d) as [d'|]
     end;
     [match goal with
      | |- context [normalizeTime ?t] => destruct (normalizeTime t)
      end|]);
    repeat split.
Qed.

(** X7: The hook assigns [slug], [date] and [time] and nothing else: every
    other field of the document is as it was, whether the hook succeeds
    or fails. *)
Theorem event_pre_save_frame :
  forall this : EventDocument,
    let e := doc this in
    let e' := doc (fst (event_pre_save Date_parse this)) in
    title e' = title e
    /\ description e' = description e
    /\ overview e' = overview e
    /\ image e' = image e
    /\ venue e' = venue e
    /\ location e' = location e
    /\ mode e' = mode e
    /\ audience e' = audience e
    /\ agenda e' = agenda e
    /\ organizer e' = organizer e
    /\ tags e' = tags e
    /\ createdAt e' = createdAt e
    /\ updatedAt e' = updatedAt e.
Proof.
  intros this. cbv zeta. exact (event_pre_save_others this).
Qed.

(** X8: When a normalization fails the hook passes its error on, and the
    date is handled first: if the date is rejected, [date] and [time]
    are left as they were; if the date is accepted and the time is
    rejected, the document already holds the normalized date, and the
    old time. *)
Theorem event_pre_save_failure :
  forall this : EventDocument,
    let out := event_pre_save Date_parse this in
    (forall error,
        normalizeDate Date_parse (date (doc this)) = Throw error ->
        snd out = Throw error
        /\ date (doc (fst out)) = date (doc this)
        /\ time (doc (fst out)) = time (doc this))
    /\ (forall d error,
          normalizeDate Date_parse (date (doc this)) = Ok d ->
          normalizeTime (time (doc this)) = Throw error ->
          snd out = Throw error
          /\ date (doc (fst out)) = d
          /\ time (doc (fst out)) = time (doc this)).
Proof.
  intros this out. subst out. unfold event_pre_save.
  set (this1 := if isModified "title" this
                then set_slug (slugify (title (doc this))) this else this).
  assert (F : date (doc this1) = date (doc this)
              /\ time (doc this1) = time (doc this))
    by (subst this1; destruct (isModified "title" this); split; reflexivity).
  destruct F as [Fd Ft]. rewrite Fd. split.
  - intros error E. rewrite E. cbn [fst snd]. auto.
  - intros d error D T. rewrite D.
    change (time (doc (set_date d this1))) with (time (doc this1)).
    rewrite Ft, T. cbn [fst snd].
    change (date (doc (set_date d this1))) with (trim d).
    rewrite (normalizeDate_trimmed _ _ _ D). auto.
Qed.

Lemma assign_isModified_title (path : string) (get : Event -> jsstring)
    (put : jsstring -> Event -> Event) (v : jsstring) (this : EventDocument) :
  String.eqb "title" path = false ->
  isModified "title" (assign path get put v this) = isModified "title" this.
Proof.
  intros N. unfold assign, isModified. cbn [modifiedPaths].
  destruct (jsstring_eqb (trim v) (get (doc this))); [reflexivity|].
  cbn [existsb]. rewrite N. reflexivity.
Qed.

Lemma with_slug_same (e : Event) : with_slug (slug e) e = e.
Proof. destruct e; reflexivity. Qed.

Lemma with_date_same (e : Event) : with_date (date e) e = e.
Proof. destruct e; reflexivity. Qed.

Lemma with_time_same (e : Event) : with_time (time e) e = e.
Proof. destruct e; reflexivity. Qed.

Lemma event_pre_save_title_flag (this : EventDocument) :
  isModified "title" (fst (event_pre_save Date_parse this))
  = isModified "title" this.
Proof.
  unfold event_pre_save.
  set (this1 := if isModified "title" this
                then set_slug (slugify (title (doc this))) this else this).
  assert (F : isModified "title" this1 = isModified "title" this).
  { subst this1. destruct (isModified "title" this) eqn:M; [|exact M].
    unfold set_slug. rewrite assign_isModified_title; [exact M | reflexivity]. }
  destruct (normalizeDate Date_parse (date (doc this1))) as [d|];
    [|exact F].
  destruct (normalizeTime (time (doc (set_date d this1)))) as [t|];
    cbn [fst]; unfold set_time, set_date;
    rewrite ?assign_isModified_title by reflexivity; exact F.
Qed.
End EventPreSaveMore.

Lemma Event_ext (e e' : Event) :
  sameOtherFields e e' -> slug e' = slug e -> date e' = date e ->
  time e' = time e -> e' = e.
Proof.
  unfold sameOtherFields. destruct e, e'; cbn.
  intros [-> [-> [-> [-> [-> [-> [-> [-> [-> [-> [-> [-> ->]]]]]]]]]]]].
  intros -> -> ->. reflexivity.
Qed.

(** X9: Saving twice changes nothing the second time: on a document the
    hook has accepted, with a date of the shape YYYY-MM-DD, the hook
    succeeds again, on every host, and leaves every field as it is. *)
Theorem event_pre_save_idempotent :
  forall (Date_parse : jsstring -> option Z) (this this' : EventDocument),
    event_pre_save Date_parse this = (this', Ok tt) ->
    IsoDateShape (date (doc this')) ->
    forall other_parse : jsstring -> option Z,
      snd (event_pre_save other_parse this') = Ok tt
      /\ doc (fst (event_pre_save other_parse this')) = doc this'.
Proof.
  intros Date_parse this this' H S other.
  pose proof (event_pre_save_spec Date_parse this) as [Sl [Ti [R DT]]].
  pose proof (event_pre_save_title_flag Date_parse this) as Fl.
  rewrite H in Sl, Ti, R, DT, Fl. cbn [fst snd] in *.
  destruct (normalizeDate Date_parse (date (doc this))) as [d|] eqn:D;
    [|discriminate].
  destruct (normalizeTime (time (doc this))) as [t|] eqn:T; [|discriminate].
  destruct (DT d t eq_refl eq_refl) as [Ed Et].
  assert (ND : normalizeDate other (date (doc this')) = Ok (date (doc this'))).
  { pose proof (normalizeDate_trimmed _ _ _ D) as Tr. rewrite <- Ed in Tr.
    rewrite <- Tr at 2. apply normalizeDate_iso. rewrite Tr. exact S. }
  assert (NT : normalizeTime (time (doc this')) = Ok (time (doc this'))).
  { rewrite Et. exact (normalizeTime_fixed _ _ T). }
  pose proof (event_pre_save_spec other this') as [Sl2 [Ti2 [R2 DT2]]].
  rewrite ND, NT in R2. split; [exact R2|].
  destruct (DT2 _ _ ND NT) as [Ed2 Et2].
  assert (Es : slug (doc (fst (event_pre_save other this'))) = slug (doc this')).
  { rewrite Sl2, Fl. destruct (isModified "title" this); [|reflexivity].
    rewrite Ti, Sl. reflexivity. }
  apply Event_ext; [exact (event_pre_save_others other this') | | |];
    congruence.
Qed.

(** A new event dated "May 1, 2024" at "9:05" is saved on a host in UTC
    with slug "react-conf-2024", date "2024-05-01" and time "09:05";
    saved again, on a host east of UTC, it is unchanged. *)
Lemma event_pre_save_idempotent_witness :
  let this := sampleEvent (str "May 1, 2024") (str "9:05") in
  let saved := fst (event_pre_save (hostDateParse 0) this) in
  snd (event_pre_save (hostDateParse 0) this) = Ok tt
  /\ slug (doc saved) = str "react-conf-2024"
  /\ date (doc saved) = str "2024-05-01"
  /\ time (doc saved) = str "09:05"
  /\ snd (event_pre_save (hostDateParse 120) saved) = Ok tt
  /\ doc (fst (event_pre_save (hostDateParse 120) saved)) = doc saved.
Proof.
  intros this saved.
  assert (H : event_pre_save (hostDateParse 0) this = (saved, Ok tt))
    by reflexivity.
  assert (S : IsoDateShape (date (doc saved)))
    by (apply test_isoDatePattern; reflexivity).
  destruct (event_pre_save_idempotent _ _ _ H S (hostDateParse 120))
    as [R D].
  repeat split; try reflexivity; assumption.
Defined.

(** With the time "25:00" the hook fails on the time, and the document
    already holds the normalized date. *)
Lemma event_pre_save_failure_witness :
  let this := sampleEvent (str "May 1, 2024") (str "25:00") in
  let out := event_pre_save (hostDateParse 0) this in
  (exists error,
      normalizeTime (str "25:00") = Throw error /\ snd out = Throw error)
  /\ date (doc (fst out)) = str "2024-05-01"
  /\ time (doc (fst out)) = str "25:00".
Proof.
  intros this out.
  destruct (normalizeTime (str "25:00")) as [t|error] eqn:T;
    [discriminate T|].
  destruct (proj2 (event_pre_save_failure (hostDateParse 0) this)
              (str "2024-05-01") error eq_refl T) as [R [D Ti]].
  split; [exists error; split; [reflexivity | exact R]|].
  split; [exact D | exact Ti].
Defined.

(* ================================================================== *)
(** * The validators of the Event schema                               *)
(* ================================================================== *)

Lemma nonblank_iff (s : jsstring) :
  (0 <? length (trim s)) = true <-> existsb noSpace s = true.
Proof.
  rewrite Nat.ltb_lt. split.
  - intros L. destruct (existsb noSpace s) eqn:E; [reflexivity|].
    exfalso.
    assert (F : forallb isWhiteSpace s = true).
    { apply forallb_forall. intros c Hc.
      destruct (isWhiteSpace c) eqn:W; [reflexivity|].
      assert (X : existsb noSpace s = true)
        by (apply existsb_exists; exists c; unfold noSpace; rewrite W; auto).
      congruence. }
    apply trim_nil_iff in F. rewrite F in L. simpl in L. lia.
  - intros E. destruct (trim s) as [|c r] eqn:T; [|simpl; lia].
    exfalso. apply trim_nil_iff in T.
    apply existsb_exists in E as [c [Hc N]].
    rewrite forallb_forall in T. specialize (T c Hc).
    unfold noSpace in N. rewrite T in N. discriminate.
Qed.

(** X10: A string field passes its validator exactly when it is a string with
    a character that is not white space, before or after trimming; a
    list field passes exactly when it is an array, not empty (an empty
    array is rejected although [every] holds of it), whose slots, the
    empty ones apart, all hold such strings; [tags] is held to the test
    of [agenda]. *)
Theorem event_validators_accept :
  (forall value : JsValue,
      nonEmptyStringValidator value = true <->
      exists s, value = JString s /\ existsb noSpace s = true)
  /\ (forall s : jsstring,
        nonEmptyStringValidator (JString (trim s))
        = nonEmptyStringValidator (JString s))
  /\ (forall value : JsValue,
        agendaValidator value = true <->
        exists items,
          value = JArray items /\ items <> []
          /\ Forall (fun item =>
                       item = IHole
                       \/ exists s, item = IString s
                                    /\ existsb noSpace s = true) items)
  /\ agendaValidator (JArray []) = false
  /\ (forall value : JsValue, tagsValidator value = agendaValidator value).
Proof.
  split; [|split; [|split; [|split]]].
  - intros [s|items|]; simpl.
    + rewrite nonblank_iff. split; [eauto|].
      intros [s' [E H]]. injection E as <-. exact H.
    + split; [discriminate | intros [s [E _]]; discriminate].
    + split; [discriminate | intros [s [E _]]; discriminate].
  - intros s. simpl. rewrite trim_idem. reflexivity.
  - intros [s|items|]; simpl.
    + split; [discriminate | intros [i [E _]]; discriminate].
    + rewrite andb_true_iff, Nat.ltb_lt, forallb_forall. split.
      * intros [L F]. exists items. split; [reflexivity|]. split.
        -- intros ->. simpl in L. lia.
        -- apply Forall_forall. intros [s| |] Hi; specialize (F _ Hi);
             [|discriminate|left; reflexivity].
           right. exists s.
           split; [reflexivity | apply nonblank_iff; exact F].
      * intros [items' [E [N F]]]. injection E as <-. split.
        -- destruct items; [congruence | simpl; lia].
        -- intros i Hi. rewrite Forall_forall in F.
           destruct (F i Hi) as [->|[s [-> H]]]; [reflexivity|].
           apply nonblank_iff; exact H.
    + split; [discriminate | intros [i [E _]]; discriminate].
  - reflexivity.
  - intros value. reflexivity.
Qed.

(* ================================================================== *)
(** * Booking: the email path                                          *)
(* ================================================================== *)

Import BookingModel.

Lemma lower_notSpaceAt (c : ascii) : notSpaceAt (toLowerChar c) = notSpaceAt c.
Proof. all_chars c. Qed.

Lemma lower_at (c : ascii) :
  char_eqb at_sign (toLowerChar c) = char_eqb at_sign c.
Proof. all_chars c. Qed.

Lemma lower_dot (c : ascii) : char_eqb dot (toLowerChar c) = char_eqb dot c.
Proof. all_chars c. Qed.

Lemma test_emailRegex_lower (s : jsstring) :
  test emailRegex (toLowerCase s) = test emailRegex s.
Proof.
  unfold test, toLowerCase. apply matches_map.
  unfold emailRegex, Plus, Lit; simpl.
  repeat split; first [apply lower_notSpaceAt | apply lower_at | apply lower_dot].
Qed.

Lemma dropWhile_map (f : ascii -> ascii) (p : ascii -> bool) (s : jsstring) :
  (forall c, p (f c) = p c) ->
  dropWhile p (map f s) = map f (dropWhile p s).
Proof.
  intros H; induction s as [|c r IH]; simpl; auto.
  rewrite H. destruct (p c); auto.
Qed.

(** Trimming and lower-casing commute: the order of the two setters does
    not matter. *)
Lemma trim_toLowerCase (s : jsstring) :
  trim (toLowerCase s) = toLowerCase (trim s).
Proof.
  unfold trim, toLowerCase, dropWhileEnd.
  rewrite dropWhile_map by apply lower_ws.
  rewrite <- map_rev, dropWhile_map by apply lower_ws.
  rewrite map_rev. reflexivity.
Qed.

Lemma test_emailRegex (s : jsstring) :
  test emailRegex s = true <-> EmailShape s.
Proof.
  rewrite test_lang. unfold emailRegex, EmailShape. split.
  - intros H.
    apply lang_Seq in H as [l [r1 [-> [Hl H]]]].
    apply lang_Seq in H as [a [r2 [-> [Ha H]]]].
    apply lang_Seq in H as [d [r3 [-> [Hd H]]]].
    apply lang_Seq in H as [o [x [-> [Ho Hx]]]].
    apply lang_Lit in Ha as ->. apply lang_Lit in Ho as ->.
    apply lang_Plus_Class in Hl as [Nl Fl].
    apply lang_Plus_Class in Hd as [Nd Fd].
    apply lang_Plus_Class in Hx as [Nx Fx].
    exists l, d, x. repeat split; auto.
  - intros [l [d [x [-> [Nl [Nd [Nx [Fl [Fd Fx]]]]]]]]].
    apply lang_Seq. exists l, (at_sign :: d ++ dot :: x).
    split; [reflexivity|]. split; [apply lang_Plus_Class; auto|].
    apply lang_Seq. exists [at_sign], (d ++ dot :: x).
    split; [reflexivity|]. split; [apply lang_Lit; reflexivity|].
    apply lang_Seq. exists d, (dot :: x).
    split; [reflexivity|]. split; [apply lang_Plus_Class; auto|].
    apply lang_Seq. exists [dot], x.
    split; [reflexivity|]. split; [apply lang_Lit; reflexivity|].
    apply lang_Plus_Class; auto.
Qed.

Lemma EmailShape_nonempty (s : jsstring) : EmailShape s -> truthy s = true.
Proof.
  intros [l [d [x [-> [Nl _]]]]]. destruct l; [congruence | reflexivity].
Qed.

Lemma email_validate_shape (value : jsstring) :
  email_validate value = Ok tt <-> EmailShape value.
Proof.
  unfold email_validate. split.
  - destruct (negb (truthy value)); [discriminate|].
    destruct (test emailRegex value) eqn:T; [|discriminate].
    intros _. apply test_emailRegex; exact T.
  - intros S. rewrite (EmailShape_nonempty _ S). simpl.
    apply test_emailRegex in S. rewrite S. reflexivity.
Qed.

Lemma EmailShape_lower (s : jsstring) :
  EmailShape (toLowerCase s) <-> EmailShape s.
Proof.
  rewrite <- !test_emailRegex, test_emailRegex_lower. reflexivity.
Qed.

Lemma email_accept_iff (input stored : jsstring) :
  email_accept input = Ok stored <->
  EmailShape (trim input) /\ stored = toLowerCase (trim input).
Proof.
  unfold email_accept, email_setter. rewrite trim_toLowerCase.
  destruct (email_validate (toLowerCase (trim input))) as [[]|e] eqn:V.
  - apply email_validate_shape in V. apply (proj1 (EmailShape_lower _)) in V.
    split; [intros E; injection E as <-; auto | intros [_ ->]; reflexivity].
  - split; [discriminate|]. intros [S _].
    apply (proj2 (EmailShape_lower _)) in S.
    apply email_validate_shape in S. congruence.
Qed.

(** C9, as the code has it: the [trim] and [lowercase] setters run before
    the validator, so validation fails exactly when the trimmed input
    does not match the local@domain.suffix shape; on success the stored
    value is the input trimmed and lower-cased.  "a@b.com" is stored
    unchanged, "A@B.COM" is stored as "a@b.com", "not-an-email" fails. *)
Theorem C9_email_validated_after_trimming :
  forall input : jsstring,
    (forall stored,
        email_accept input = Ok stored <->
        EmailShape (trim input) /\ stored = toLowerCase (trim input))
    /\ ((exists e, email_accept input = Throw e) <-> ~ EmailShape (trim input))
    /\ email_accept (str "a@b.com") = Ok (str "a@b.com")
    /\ email_accept (str "A@B.COM") = Ok (str "a@b.com")
    /\ isOk (email_accept (str "not-an-email")) = false.
Proof.
  intros input. split; [intros stored; apply email_accept_iff|]. split.
  - split.
    + intros [e E] S.
      assert (O : email_accept input = Ok (toLowerCase (trim input)))
        by (apply email_accept_iff; auto).
      congruence.
    + intros N. destruct (email_accept input) as [stored|e] eqn:E; [|eauto].
      apply email_accept_iff in E as [S _]. contradiction.
  - repeat split; reflexivity.
Qed.

(** C9 as stated fails: an input with a blank on either side does not
    match the pattern, yet it is accepted, because the pattern is tested
    on the trimmed value. *)
Lemma C9_counterexample_padded_input :
  test emailRegex (str " a@b.com ") = false
  /\ ~ EmailShape (str " a@b.com ")
  /\ email_accept (str " a@b.com ") = Ok (str "a@b.com").
Proof.
  split; [reflexivity|]. split; [|reflexivity].
  intros S. apply test_emailRegex in S. discriminate.
Qed.

(* ================================================================== *)
(** * Booking: the reference check                                     *)
(* ================================================================== *)

Lemma notConnected_distinct : notConnected <> ReferenceNotFound.
Proof. intros E. vm_compute in E. discriminate. Qed.

Lemma booking_pre_save_unmodified (db : Storage) (this : BookingDocument) :
  isModified "eventId" this = false -> booking_pre_save db this = Ok tt.
Proof. intros M. unfold booking_pre_save. rewrite M. reflexivity. Qed.

Lemma booking_pre_save_ReferenceNotFound (db : Storage)
    (this : BookingDocument) :
  booking_pre_save db this = Throw ReferenceNotFound <->
  isModified "eventId" this = true
  /\ EventModel_exists db (eventId (doc this)) = Ok false.
Proof.
  unfold booking_pre_save.
  destruct (isModified "eventId" this); simpl.
  - destruct (EventModel_exists db (eventId (doc this))) as [[|]|e] eqn:X;
      simpl.
    + split; [discriminate | intros [_ E]; discriminate].
    + split; auto.
    + split; [|intros [_ E]; discriminate].
      intros E. exfalso. unfold EventModel_exists in X.
      destruct (connected db); [discriminate|].
      apply notConnected_distinct. congruence.
  - split; [discriminate | intros [E _]; discriminate].
Qed.

Lemma save_clears_modified (db : Storage) (this saved : BookingDocument) :
  save db this = Ok saved ->
  doc saved = doc this /\ modifiedPaths saved = [] /\ connected db = true
  /\ isOk (email_validate (email (doc this))) = true.
Proof.
  unfold save.
  destruct (email_validate (email (doc this))); [|discriminate].
  destruct (booking_pre_save db this); [|discriminate].
  destruct (connected db); [|discriminate].
  intros E; injection E as <-. auto.
Qed.

Lemma set_email_keeps_reference (input : jsstring) (this : BookingDocument) :
  modifiedPaths this = [] ->
  isModified "eventId" (set_email input this) = false
  /\ eventId (doc (set_email input this)) = eventId (doc this)
  /\ email (doc (set_email input this)) = email_setter input.
Proof.
  intros M. unfold set_email, isModified; simpl. rewrite M.
  destruct (jsstring_eqb (email_setter input) (email (doc this))); auto.
Qed.

Lemma email_validate_not_ReferenceNotFound (value : jsstring) (e : Error) :
  email_validate value = Throw e -> e <> ReferenceNotFound.
Proof.
  intros V. unfold email_validate in V.
  destruct (negb (truthy value)).
  - injection V as <-. intros E; vm_compute in E; discriminate.
  - destruct (test emailRegex value); [discriminate|].
    injection V as <-. intros E; vm_compute in E; discriminate.
Qed.

Lemma save_ReferenceNotFound (db : Storage) (this : BookingDocument) :
  save db this = Throw ReferenceNotFound <->
  email_validate (email (doc this)) = Ok tt
  /\ isModified "eventId" this = true
  /\ EventModel_exists db (eventId (doc this)) = Ok false.
Proof.
  unfold save.
  destruct (email_validate (email (doc this))) as [[]|e] eqn:V.
  - destruct (booking_pre_save db this) as [[]|e] eqn:H.
    + split.
      * destruct (connected db); [discriminate|].
        intros E. exfalso. apply notConnected_distinct. congruence.
      * intros [_ R]. apply booking_pre_save_ReferenceNotFound in R.
        congruence.
    + split.
      * intros E. injection E as ->.
        apply booking_pre_save_ReferenceNotFound in H. tauto.
      * intros [_ R]. apply booking_pre_save_ReferenceNotFound in R.
        congruence.
  - split; [|intros [E _]; discriminate].
    intros E. injection E as ->.
    exfalso. exact (email_validate_not_ReferenceNotFound _ _ V eq_refl).
Qed.

(** C4: the hook fails with [ReferenceNotFound] exactly when [eventId] is
    new or changed and the Event collection holds no event of that
    identity; when [eventId] is not modified the lookup is not made,
    whatever the state of the collection; after a successful save a
    further save that only changes the email succeeds on every reachable
    collection, also one from which the event has been deleted; a save
    (validation, then the hook) fails with [ReferenceNotFound] exactly
    when the email is valid and the hook fails with it; and
    [ReferenceNotFound] is neither the failure of the lookup itself nor a
    failure of the email validation. *)
Theorem C4_reference_checked_only_when_modified :
  forall (db : Storage) (this : BookingDocument),
    (booking_pre_save db this = Throw ReferenceNotFound <->
     isModified "eventId" this = true
     /\ EventModel_exists db (eventId (doc this)) = Ok false)
    /\ (isModified "eventId" this = false ->
        forall db' : Storage, booking_pre_save db' this = Ok tt)
    /\ (forall (saved : BookingDocument) (input : jsstring) (db' : Storage),
          save db this = Ok saved ->
          connected db' = true ->
          email_validate (email_setter input) = Ok tt ->
          exists saved',
            save db' (set_email input saved) = Ok saved'
            /\ eventId (doc saved') = eventId (doc this)
            /\ email (doc saved') = email_setter input)
    /\ (save db this = Throw ReferenceNotFound <->
        email_validate (email (doc this)) = Ok tt
        /\ isModified "eventId" this = true
        /\ EventModel_exists db (eventId (doc this)) = Ok false)
    /\ (ReferenceNotFound <> notConnected
        /\ forall value e,
             email_validate value = Throw e -> e <> ReferenceNotFound).
Proof.
  intros db this. split; [apply booking_pre_save_ReferenceNotFound|].
  split; [|split; [|split; [apply save_ReferenceNotFound|]]].
  - intros M db'. apply booking_pre_save_unmodified; exact M.
  - intros saved input db' S C V.
    destruct (save_clears_modified _ _ _ S) as [D [M _]].
    destruct (set_email_keeps_reference input saved M) as [U [Ei Em]].
    exists {| doc := doc (set_email input saved); modifiedPaths := [] |}.
    split; [|split].
    + unfold save. rewrite Em, V.
      rewrite (booking_pre_save_unmodified db' _ U), C. reflexivity.
    + simpl. rewrite D. reflexivity.
    + reflexivity.
  - split.
    + intros E. apply notConnected_distinct. congruence.
    + apply email_validate_not_ReferenceNotFound.
Qed.

(** A booking of event 7 is saved; event 7 is deleted; changing the email
    and saving again succeeds, while a new booking of event 7 fails with
    [ReferenceNotFound]. *)
Lemma C4_witness_event_deleted_after_save :
  let db := {| connected := true; events := [7%N] |} in
  let db' := deleteEvent 7%N db in
  exists saved saved',
    save db (create 7%N (str "a@b.com")) = Ok saved
    /\ events db' = []
    /\ save db' (set_email (str "c@d.org") saved) = Ok saved'
    /\ email (doc saved') = str "c@d.org"
    /\ save db' (create 7%N (str "a@b.com")) = Throw ReferenceNotFound.
Proof.
  intros db db'.
  set (this := create 7%N (str "a@b.com")).
  set (saved := {| doc := doc this; modifiedPaths := [] |}).
  assert (S : save db this = Ok saved) by reflexivity.
  destruct (proj1 (proj2 (proj2
              (C4_reference_checked_only_when_modified db this)))
              saved (str "c@d.org") db' S eq_refl eq_refl)
    as [saved' [S' [_ E]]].
  exists saved, saved'. repeat split; auto.
Defined.

(* ================================================================== *)
(** * Booking: the stored email and new bookings                       *)
(* ================================================================== *)

Lemma notSpaceAt_count (s : jsstring) :
  forallb notSpaceAt s = true ->
  count_occ ascii_dec s at_sign = 0 /\ forallb noSpace s = true.
Proof.
  induction s as [|c r IH]; simpl; [auto|].
  intros H. apply andb_prop in H as [Hc H]. destruct (IH H) as [C N].
  unfold notSpaceAt in Hc. apply negb_true_iff, orb_false_iff in Hc.
  destruct Hc as [W A]. split.
  - destruct (ascii_dec c at_sign) as [->|_]; [discriminate A | exact C].
  - unfold noSpace at 1. rewrite W. exact N.
Qed.

Lemma EmailShape_facts (s : jsstring) :
  EmailShape s ->
  count_occ ascii_dec s at_sign = 1
  /\ forallb noSpace s = true
  /\ 5 <= length s.
Proof.
  intros [l [d [x [-> [Nl [Nd [Nx [Fl [Fd Fx]]]]]]]]].
  destruct (notSpaceAt_count _ Fl) as [Cl Sl].
  destruct (notSpaceAt_count _ Fd) as [Cd Sd].
  destruct (notSpaceAt_count _ Fx) as [Cx Sx].
  split; [|split].
  - rewrite count_occ_app. simpl.
    destruct (ascii_dec at_sign at_sign) as [_|N]; [|congruence].
    rewrite count_occ_app. simpl.
    destruct (ascii_dec dot at_sign) as [E|_]; [discriminate E|]. lia.
  - rewrite forallb_app. simpl. rewrite forallb_app. simpl.
    rewrite Sl, Sd, Sx. reflexivity.
  - rewrite length_app. simpl. rewrite length_app. simpl.
    destruct l; [congruence|]. destruct d; [congruence|].
    destruct x; [congruence|]. simpl. lia.
Qed.

Lemma email_setter_fixed (input : jsstring) :
  email_setter (email_setter input) = email_setter input.
Proof.
  unfold email_setter.
  rewrite (trim_toLowerCase input), toLowerCase_idem.
  rewrite trim_toLowerCase, trim_idem. reflexivity.
Qed.

Lemma email_setter_padding (a input b : jsstring) :
  forallb isWhiteSpace a = true -> forallb isWhiteSpace b = true ->
  email_setter (a ++ input ++ b) = email_setter input.
Proof.
  intros Fa Fb. unfold email_setter.
  rewrite !trim_toLowerCase, trim_padding by assumption. reflexivity.
Qed.

Lemma email_setter_lower (input : jsstring) :
  email_setter (toLowerCase input) = email_setter input.
Proof. unfold email_setter. rewrite toLowerCase_idem. reflexivity. Qed.

Lemma email_accept_setter (input input' : jsstring) :
  email_setter input' = email_setter input ->
  email_accept input' = email_accept input.
Proof. intros E. unfold email_accept. rewrite E. reflexivity. Qed.

Lemma email_accept_stored (input stored : jsstring) :
  email_accept input = Ok stored -> stored = email_setter input.
Proof.
  unfold email_accept.
  destruct (email_validate (email_setter input)); [|discriminate].
  congruence.
Qed.

(** X11: An email the model stores has exactly one at sign, no white space and
    at least five characters; it is in lower case and trimmed; and
    submitted again it is accepted and stored as it is. *)
Theorem stored_email_canonical :
  forall input stored : jsstring,
    email_accept input = Ok stored ->
    count_occ ascii_dec stored at_sign = 1
    /\ forallb noSpace stored = true
    /\ 5 <= length stored
    /\ toLowerCase stored = stored
    /\ trim stored = stored
    /\ email_accept stored = Ok stored.
Proof.
  intros input stored H.
  pose proof (email_accept_stored _ _ H) as S.
  pose proof H as H0.
  apply email_accept_iff in H as [Sh E].
  apply (proj2 (EmailShape_lower _)) in Sh. rewrite <- E in Sh.
  destruct (EmailShape_facts _ Sh) as [C [N L]].
  split; [exact C|]. split; [exact N|]. split; [exact L|].
  split; [rewrite E; apply toLowerCase_idem|].
  split; [rewrite E, <- trim_toLowerCase, trim_idem; reflexivity|].
  rewrite <- H0. rewrite S at 1.
  apply email_accept_setter, email_setter_fixed.
Qed.

(** " Ann@Example.COM " is stored as "ann@example.com". *)
Lemma stored_email_canonical_witness :
  email_accept (str " Ann@Example.COM ") = Ok (str "ann@example.com")
  /\ count_occ ascii_dec (str "ann@example.com") at_sign = 1
  /\ email_accept (str "ann@example.com") = Ok (str "ann@example.com").
Proof.
  destruct (stored_email_canonical (str " Ann@Example.COM ")
              (str "ann@example.com") eq_refl) as [C [_ [_ [_ [_ A]]]]].
  split; [reflexivity|]. split; [exact C | exact A].
Defined.

(** X12: Inputs that differ only in the case of their letters or in the white
    space around them are the same address to the model: both are
    rejected, or both are stored as the same value. *)
Theorem email_accept_ignores_case_and_padding :
  forall input a b : jsstring,
    forallb isWhiteSpace a = true -> forallb isWhiteSpace b = true ->
    email_accept (a ++ input ++ b) = email_accept input
    /\ email_accept (toLowerCase input) = email_accept input
    /\ email_accept (a ++ toLowerCase input ++ b) = email_accept input.
Proof.
  intros input a b Fa Fb. split; [|split]; apply email_accept_setter.
  - apply email_setter_padding; assumption.
  - apply email_setter_lower.
  - rewrite email_setter_padding by assumption. apply email_setter_lower.
Qed.

Lemma email_accept_ignores_case_and_padding_witness :
  email_accept (str "  Ann@Example.COM ") = email_accept (str "Ann@Example.COM")
  /\ email_accept (str "ann@example.com") = email_accept (str "Ann@Example.COM")
  /\ email_accept (str "Ann@Example.COM") = Ok (str "ann@example.com").
Proof.
  destruct (email_accept_ignores_case_and_padding
              (str "Ann@Example.COM") (str "  ") (str " ")
              eq_refl eq_refl) as [P [L _]].
  split; [exact P|]. split; [exact L | reflexivity].
Defined.

Lemma existsb_eqb_In (id : ObjectId) (l : list ObjectId) :
  existsb (N.eqb id) l = true <-> In id l.
Proof.
  rewrite existsb_exists. split.
  - intros [x [I E]]. apply N.eqb_eq in E. subst x. exact I.
  - intros I. exists id. split; [exact I | apply N.eqb_refl].
Qed.

Lemma booking_pre_save_new (db : Storage) (id : ObjectId)
    (input : jsstring) :
  booking_pre_save db (create id input) =
    if connected db
    then if existsb (N.eqb id) (events db) then Ok tt
         else Throw ReferenceNotFound
    else Throw notConnected.
Proof.
  unfold booking_pre_save, EventModel_exists, create, isModified.
  cbn [modifiedPaths doc eventId existsb]. simpl.
  destruct (connected db); [|reflexivity].
  destruct (existsb (N.eqb id) (events db)); reflexivity.
Qed.

(** X13: A new booking is saved exactly when the trimmed email has the
    shape of an address, the store is connected and the event is in the
    store; what is saved holds the event's identity and the email
    trimmed and in lower case, with no path left modified.  The hook on
    a new booking always makes the lookup, and with a store that is
    connected and does not hold the event it fails with
    [ReferenceNotFound]; an email that is not an address fails the save
    the same way on every store. *)
Theorem new_booking_saved_iff :
  forall (db : Storage) (id : ObjectId) (input : jsstring),
    ((exists saved : BookingDocument,
         save db (create id input) = Ok saved) <->
     EmailShape (trim input)
     /\ connected db = true
     /\ In id (events db))
    /\ (forall saved : BookingDocument,
          save db (create id input) = Ok saved ->
          eventId (doc saved) = id
          /\ email (doc saved) = toLowerCase (trim input)
          /\ modifiedPaths saved = [])
    /\ (booking_pre_save db (create id input) = Ok tt <->
        connected db = true /\ In id (events db))
    /\ (connected db = true -> ~ In id (events db) ->
        booking_pre_save db (create id input) = Throw ReferenceNotFound)
    /\ (~ EmailShape (trim input) ->
        forall db' : Storage,
          save db' (create id input) = save db (create id input)
          /\ isOk (save db (create id input)) = false).
Proof.
  intros db id input.
  assert (V : email_validate (email_setter input) = Ok tt
              <-> EmailShape (trim input)).
  { rewrite email_validate_shape. unfold email_setter.
    rewrite trim_toLowerCase. apply EmailShape_lower. }
  assert (P : booking_pre_save db (create id input) = Ok tt <->
              connected db = true /\ In id (events db)).
  { rewrite booking_pre_save_new. destruct (connected db).
    - destruct (existsb (N.eqb id) (events db)) eqn:X.
      + apply existsb_eqb_In in X. tauto.
      + split; [discriminate|]. intros [_ I].
        apply existsb_eqb_In in I. congruence.
    - split; [discriminate | intros [C _]; discriminate]. }
  split; [|split; [|split; [exact P|split]]].
  - unfold save.
    change (email (doc (create id input))) with (email_setter input).
    split.
    + intros [saved S].
      destruct (email_validate (email_setter input)) as [[]|e] eqn:Ev;
        [|discriminate S].
      destruct (booking_pre_save db (create id input)) as [[]|e] eqn:Eh;
        [|discriminate S].
      split; [apply V; reflexivity|]. apply P. reflexivity.
    + intros [Sh [C I]].
      rewrite (proj2 V Sh), (proj2 P (conj C I)), C. eauto.
  - intros saved S. unfold save in S.
    change (email (doc (create id input))) with (email_setter input) in S.
    destruct (email_validate (email_setter input)); [|discriminate S].
    destruct (booking_pre_save db (create id input)); [|discriminate S].
    destruct (connected db); [|discriminate S].
    injection S as <-. cbn [doc modifiedPaths create eventId email].
    unfold email_setter. rewrite trim_toLowerCase. auto.
  - intros C N. rewrite booking_pre_save_new, C.
    destruct (existsb (N.eqb id) (events db)) eqn:X; [|reflexivity].
    apply existsb_eqb_In in X. contradiction.
  - intros N db'. unfold save.
    change (email (doc (create id input))) with (email_setter input).
    destruct (email_validate (email_setter input)) as [[]|e] eqn:Ev.
    + exfalso. apply N, V. reflexivity.
    + split; reflexivity.
Qed.

(** With event 7 in the store a booking of it by " Ann@Example.COM " is
    saved with the email "ann@example.com"; a booking of event 8 fails
    with [ReferenceNotFound]. *)
Lemma new_booking_saved_iff_witness :
  let db := {| connected := true; events := [7%N] |} in
  (exists saved,
      save db (create 7%N (str " Ann@Example.COM ")) = Ok saved
      /\ eventId (doc saved) = 7%N
      /\ email (doc saved) = str "ann@example.com")
  /\ booking_pre_save db (create 8%N (str "ann@example.com"))
     = Throw ReferenceNotFound.
Proof.
  intros db.
  pose proof (new_booking_saved_iff db 7%N (str " Ann@Example.COM "))
    as [S [F _]].
  split.
  - destruct (proj2 S) as [saved E].
    + split; [apply test_emailRegex; reflexivity|].
      split; [reflexivity | left; reflexivity].
    + exists saved. split; [exact E|].
      destruct (F saved E) as [I [M _]]. split; [exact I | exact M].
  - apply (proj1 (proj2 (proj2 (proj2
             (new_booking_saved_iff db 8%N (str "ann@example.com"))))));
      [reflexivity|].
    intros [E|[]]. discriminate E.
Defined.

(* ================================================================== *)
(** * The connection cache                                             *)
(* ================================================================== *)

Import Connection.

Section ConnectionFacts.
Variable Mongoose : Type.
Variable mongoose : Mongoose.

Local Abbreviation Heap := (Heap Mongoose).
Local Abbreviation System := (System Mongoose).
Local Abbreviation fire := (@fire Mongoose mongoose).
Local Abbreviation run := (@run Mongoose mongoose).
Local Abbreviation start := (start Mongoose).
Local Abbreviation delivered := (@delivered Mongoose mongoose).

Lemma length_update {A : Type} (i : nat) (x : A) (l : list A) :
  length (update i x l) = length l.
Proof.
  revert i; induction l as [|y r IH]; intros [|k]; simpl; auto.
Qed.

Lemma nth_error_update {A : Type} (i j : nat) (x y : A) (l : list A) :
  nth_error (update i x l) j = Some y -> y = x \/ nth_error l j = Some y.
Proof.
  revert i j; induction l as [|z r IH]; intros i j; simpl.
  - destruct i; auto.
  - destruct i as [|i], j as [|j]; simpl; auto.
    + intros E; injection E as <-; auto.
    + apply IH.
Qed.

(** *** The two halves of [connectToDatabase] *)

Lemma call_with_connection (h : Heap) (c : Mongoose) :
  conn (cached h) = Some c -> connectToDatabase_call h = (h, Returned c).
Proof. intros E. unfold connectToDatabase_call. rewrite E. reflexivity. Qed.

Lemma call_joins_attempt (h : Heap) (p : PromiseId) :
  conn (cached h) = None -> promise (cached h) = Some p ->
  connectToDatabase_call h = (h, Awaiting Mongoose p).
Proof.
  intros E1 E2. unfold connectToDatabase_call. rewrite E1, E2. reflexivity.
Qed.

Lemma call_starts_attempt (h : Heap) :
  conn (cached h) = None -> promise (cached h) = None ->
  connectToDatabase_call h =
    ({| cached := {| conn := None; promise := Some (attempts h) |};
        promises := promises h ++ [Pending Mongoose] |},
     Awaiting Mongoose (attempts h)).
Proof.
  intros E1 E2. unfold connectToDatabase_call. rewrite E1, E2. reflexivity.
Qed.

Lemma resume_fulfilled (h : Heap) (p : PromiseId) (m : Mongoose) :
  nth_error (promises h) p = Some (Fulfilled m) ->
  connectToDatabase_resume h p =
    Some ({| cached := {| conn := Some m; promise := promise (cached h) |};
             promises := promises h |},
          Returned m).
Proof. intros E. unfold connectToDatabase_resume. rewrite E. reflexivity. Qed.

Lemma resume_rejected (h : Heap) (p : PromiseId) (error : Error) :
  nth_error (promises h) p = Some (Rejected Mongoose error) ->
  connectToDatabase_resume h p =
    Some ({| cached := {| conn := conn (cached h); promise := None |};
             promises := promises h |},
          Threw Mongoose error).
Proof. intros E. unfold connectToDatabase_resume. rewrite E. reflexivity. Qed.

(** *** Runs *)

Lemma run_app (l1 l2 : list action) :
  forall s, run s (l1 ++ l2) =
            match run s l1 with
            | Some s' => run s' l2
            | None => None
            end.
Proof.
  induction l1 as [|a r IH]; intros s; simpl; auto.
  destruct (fire s a); auto.
Qed.

(** A property kept by every step holds along every run. *)
Lemma run_invariant (I : System -> Prop) :
  (forall s a s', I s -> fire s a = Some s' -> I s') ->
  forall l s s', I s -> run s l = Some s' -> I s'.
Proof.
  intros Step l; induction l as [|a r IH]; intros s s' H R; simpl in R.
  - injection R as <-; exact H.
  - destruct (fire s a) as [s1|] eqn:F; [|discriminate].
    apply (IH s1); [apply (Step s a) |]; assumption.
Qed.

Lemma nth_error_snoc_pending (l : list (PromiseState Mongoose))
    (p : nat) (m : Mongoose) :
  nth_error (l ++ [Pending Mongoose]) p = Some (Fulfilled m) ->
  nth_error l p = Some (Fulfilled m).
Proof.
  intros E. destruct (Nat.lt_ge_cases p (length l)) as [L|L].
  - rewrite nth_error_app1 in E by assumption. exact E.
  - rewrite nth_error_app2 in E by assumption.
    destruct (p - length l) as [|[|k]]; discriminate.
Qed.

Lemma fire_delivered (s : System) (a : action) (s' : System) :
  delivered (heap s) -> fire s a = Some s' -> delivered (heap s').
Proof.
  intros D F. destruct a as [|p o|i]; simpl in F.
  - unfold connectToDatabase_call in F.
    destruct (conn (cached (heap s))) as [c|] eqn:Ec;
      [injection F as <-; exact D|].
    destruct (promise (cached (heap s))) as [p|] eqn:Ep;
      injection F as <-; [exact D|].
    destruct D as [P C]. split; simpl.
    + intros p m E. apply nth_error_snoc_pending in E. eauto.
    + discriminate.
  - destruct (nth_error (promises (heap s)) p) as [[| |]|] eqn:E;
      try discriminate.
    injection F as <-. destruct D as [P C]. split; simpl; [|exact C].
    intros q m Eq. apply nth_error_update in Eq as [Eq|Eq]; [|eauto].
    destruct o; simpl in Eq; [injection Eq as ->; reflexivity | discriminate].
  - destruct (nth_error (callers s) i) as [[p| |]|]; try discriminate.
    unfold connectToDatabase_resume in F.
    destruct D as [P C].
    destruct (nth_error (promises (heap s)) p) as [[|m|e]|] eqn:E;
      try discriminate; injection F as <-; split; simpl; auto.
    intros m' Em. injection Em as <-. eauto.
Qed.

Lemma run_delivered (l : list action) (s : System) :
  run start l = Some s -> delivered (heap s).
Proof.
  apply (run_invariant (fun s => delivered (heap s))).
  - apply fire_delivered.
  - split; [intros [|p] m E; discriminate | discriminate].
Qed.

(** Once [cached.conn] is set it stays set, and no attempt is made. *)
Lemma fire_connected (s : System) (a : action) (s' : System) :
  conn (cached (heap s)) <> None -> fire s a = Some s' ->
  conn (cached (heap s')) <> None /\ attempts (heap s') = attempts (heap s).
Proof.
  intros C F. destruct a as [|p o|i]; simpl in F.
  - unfold connectToDatabase_call in F.
    destruct (conn (cached (heap s))) as [c|] eqn:Ec; [|congruence].
    injection F as <-. simpl. rewrite Ec. auto.
  - destruct (nth_error (promises (heap s)) p) as [[| |]|]; try discriminate.
    injection F as <-. simpl. unfold attempts; simpl.
    rewrite length_update. auto.
  - destruct (nth_error (callers s) i) as [[p| |]|]; try discriminate.
    unfold connectToDatabase_resume in F.
    destruct (nth_error (promises (heap s)) p) as [[|m|e]|];
      try discriminate; injection F as <-; simpl; split; auto; discriminate.
Qed.

Lemma run_connected (l : list action) :
  forall s s',
    conn (cached (heap s)) <> None -> run s l = Some s' ->
    conn (cached (heap s')) <> None /\ attempts (heap s') = attempts (heap s).
Proof.
  induction l as [|a r IH]; intros s s' C R; simpl in R.
  - injection R as <-; auto.
  - destruct (fire s a) as [s1|] eqn:F; [|discriminate].
    destruct (fire_connected _ _ _ C F) as [C1 A1].
    destruct (IH _ _ C1 R) as [C2 A2]. split; [exact C2 | congruence].
Qed.

(** Callers that arrive while one attempt is in flight all await it. *)
Lemma run_calls_join (p : PromiseId) (n : nat) :
  forall s,
    conn (cached (heap s)) = None -> promise (cached (heap s)) = Some p ->
    run s (repeat Call n) =
      Some {| heap := heap s;
              callers := callers s ++ repeat (Awaiting Mongoose p) n |}.
Proof.
  induction n as [|n IH]; intros s C P; simpl.
  - rewrite app_nil_r. destruct s; reflexivity.
  - rewrite (call_joins_attempt _ _ C P). rewrite IH by assumption.
    simpl. rewrite <- app_assoc. reflexivity.
Qed.

Lemma fire_neverSucceeded (s : System) (a : action) (s' : System) :
  isSuccess a = false ->
  neverSucceeded s -> fire s a = Some s' -> neverSucceeded s'.
Proof.
  intros NS [C P] F. destruct a as [|p o|i]; simpl in F.
  - unfold connectToDatabase_call in F. rewrite C in F.
    destruct (promise (cached (heap s))) as [p|];
      injection F as <-; split; simpl; auto.
    intros p m E. apply nth_error_snoc_pending in E. apply (P _ _ E).
  - destruct (nth_error (promises (heap s)) p) as [[| |]|]; try discriminate.
    injection F as <-. split; [exact C|]. simpl.
    intros q m Eq. apply nth_error_update in Eq as [Eq|Eq]; [|apply (P _ _ Eq)].
    destruct o; [discriminate NS | discriminate Eq].
  - destruct (nth_error (callers s) i) as [[p| |]|]; try discriminate.
    unfold connectToDatabase_resume in F.
    destruct (nth_error (promises (heap s)) p) as [[|m|e]|] eqn:E;
      try discriminate.
    + exfalso. apply (P _ _ E).
    + injection F as <-. split; [exact C | exact P].
Qed.

Lemma run_neverSucceeded (l : list action) :
  forall s s',
    forallb (fun a => negb (isSuccess a)) l = true ->
    neverSucceeded s -> run s l = Some s' -> neverSucceeded s'.
Proof.
  induction l as [|a r IH]; intros s s' A N R; simpl in *.
  - injection R as <-; exact N.
  - apply andb_prop in A as [A1 A2].
    destruct (fire s a) as [s1|] eqn:F; [|discriminate].
    apply (IH s1); auto. apply (fire_neverSucceeded s a); auto.
    destruct (isSuccess a); [discriminate | reflexivity].
Qed.

(* ------------------------------------------------------------------ *)
(** ** C7 and C8                                                       *)
(* ------------------------------------------------------------------ *)

(** C7: a caller resumed on a rejected attempt clears [cached.promise],
    leaves [cached.conn] as it was and throws the rejection to its own
    caller; with no connection resolved, the next call then starts a
    fresh attempt.  Along a run in which no attempt succeeds,
    [cached.conn] is never set. *)
Theorem C7_failure_resets_attempt :
  (forall (h : Heap) (p : PromiseId) (error : Error),
      nth_error (promises h) p = Some (Rejected Mongoose error) ->
      exists h',
        connectToDatabase_resume h p = Some (h', Threw Mongoose error)
        /\ promise (cached h') = None
        /\ conn (cached h') = conn (cached h)
        /\ promises h' = promises h
        /\ (conn (cached h) = None ->
            connectToDatabase_call h' =
              ({| cached := {| conn := None; promise := Some (attempts h) |};
                  promises := promises h ++ [Pending Mongoose] |},
               Awaiting Mongoose (attempts h))))
  /\ (forall (l : list action) (s : System),
        forallb (fun a => negb (isSuccess a)) l = true ->
        run start l = Some s ->
        conn (cached (heap s)) = None).
Proof.
  split.
  - intros h p error E.
    exists {| cached := {| conn := conn (cached h); promise := None |};
              promises := promises h |}.
    split; [apply resume_rejected; exact E|].
    repeat split. intros C.
    exact (call_starts_attempt
             {| cached := {| conn := conn (cached h); promise := None |};
                promises := promises h |} C eq_refl).
  - intros l s A R.
    apply (run_neverSucceeded l start s A); [|exact R].
    split; [reflexivity | intros [|p] m; discriminate].
Qed.

End ConnectionFacts.

(** Two callers share an attempt that fails: each clears the slot and
    throws, no connection is stored, and the next call starts the second
    attempt. *)
Lemma C7_witness_failed_attempt :
  let boom := MkError (str "ECONNREFUSED") in
  run tt (start unit) [Call; Call; Settle 0 (Failure boom)] =
    Some {| heap := {| cached := {| conn := None; promise := Some 0 |};
                       promises := [Rejected unit boom] |};
            callers := [Awaiting unit 0; Awaiting unit 0] |}
  /\ (exists h',
        connectToDatabase_resume
          {| cached := {| conn := None; promise := Some 0 |};
             promises := [Rejected unit boom] |} 0
        = Some (h', Threw unit boom)
        /\ promise (cached h') = None
        /\ conn (cached h') = None)
  /\ run tt (start unit)
        [Call; Call; Settle 0 (Failure boom); Resume 0; Resume 1; Call] =
      Some {| heap := {| cached := {| conn := None; promise := Some 1 |};
                         promises := [Rejected unit boom; Pending unit] |};
              callers := [Threw unit boom; Threw unit boom; Awaiting unit 1] |}.
Proof.
  intros boom. split; [reflexivity|]. split; [|reflexivity].
  destruct (proj1 (C7_failure_resets_attempt unit tt)
              {| cached := {| conn := None; promise := Some 0 |};
                 promises := [Rejected unit boom] |} 0 boom eq_refl)
    as [h' [R [P [C _]]]].
  exists h'. auto.
Defined.

(** A caller that joined an attempt after it was rejected resets the slot
    when it resumes, also when a newer attempt has been recorded in the
    meantime; the call after that starts a third attempt beside the
    second. *)
Example late_reset_forgets_newer_attempt :
  let boom := MkError (str "ECONNREFUSED") in
  run tt (start unit)
    [Call; Settle 0 (Failure boom); Call; Resume 0; Call; Resume 1; Call] =
    Some {| heap := {| cached := {| conn := None; promise := Some 2 |};
                       promises := [Rejected unit boom; Pending unit;
                                    Pending unit] |};
            callers := [Threw unit boom; Threw unit boom;
                        Awaiting unit 1; Awaiting unit 2] |}.
Proof. reflexivity. Qed.

(** C8 fails on the code.  The claim has a recorded attempt shared by
    every caller that arrives while it is in flight.  Here the first
    attempt fails while two callers hold it: the first caller resumes and
    clears [cached.promise], a third call starts the second attempt and
    records it, and then the second caller resumes on the failed first
    attempt and clears [cached.promise] again, although the attempt now
    recorded there is the second one.  No connection is resolved, the
    second attempt is in flight and the third caller awaits it, yet its
    record is gone: the next call starts a third attempt of its own.  So
    it is not so that in every reachable state a call made while an
    attempt is in flight starts no attempt. *)
Theorem C8_stale_reset_starts_duplicate_attempt :
  let boom := MkError (str "ECONNREFUSED") in
  let calls := [Call; Settle 0 (Failure boom); Call; Resume 0; Call;
                Resume 1] in
  (exists s,
      run tt (start unit) calls = Some s
      /\ conn (cached (heap s)) = None
      /\ nth_error (promises (heap s)) 1 = Some (Pending unit)
      /\ nth_error (callers s) 2 = Some (Awaiting unit 1)
      /\ promise (cached (heap s)) = None
      /\ snd (connectToDatabase_call (heap s)) = Awaiting unit 2
      /\ attempts (heap s) = 2
      /\ attempts (fst (connectToDatabase_call (heap s))) = 3
      /\ promises (fst (connectToDatabase_call (heap s)))
         = [Rejected unit boom; Pending unit; Pending unit])
  /\ ~ (forall (l : list action) (s : System unit) (p : PromiseId),
          run tt (start unit) l = Some s ->
          conn (cached (heap s)) = None ->
          nth_error (promises (heap s)) p = Some (Pending unit) ->
          attempts (fst (connectToDatabase_call (heap s)))
          = attempts (heap s)).
Proof.
  intros boom calls. split.
  - eexists. split; [reflexivity|]. repeat split.
  - intros H.
    specialize (H calls _ 1 eq_refl eq_refl eq_refl).
    vm_compute in H. discriminate H.
Qed.

(* ================================================================== *)
(** * The connection cache along every interleaving                    *)
(* ================================================================== *)

Section ConnectionTraces.
Variable Mongoose : Type.
Variable mongoose : Mongoose.

Local Abbreviation Heap := (Heap Mongoose).
Local Abbreviation System := (System Mongoose).
Local Abbreviation fire := (@fire Mongoose mongoose).
Local Abbreviation run := (@run Mongoose mongoose).
Local Abbreviation start := (start Mongoose).

Lemma nth_error_update_same {A : Type} (i : nat) (x : A) (l : list A) :
  i < length l -> nth_error (update i x l) i = Some x.
Proof.
  revert i; induction l as [|y r IH]; intros [|k]; simpl; try lia; auto.
  intros L. apply IH. lia.
Qed.

Lemma nth_error_update_other {A : Type} (i j : nat) (x : A) (l : list A) :
  i <> j -> nth_error (update i x l) j = nth_error l j.
Proof.
  revert i j; induction l as [|y r IH]; intros [|i] [|j] N; simpl; auto.
  congruence.
Qed.

Lemma nth_error_snoc {A : Type} (l : list A) (x y : A) (i : nat) :
  nth_error (l ++ [x]) i = Some y ->
  nth_error l i = Some y \/ (i = length l /\ y = x).
Proof.
  intros E. destruct (Nat.lt_ge_cases i (length l)) as [L|L].
  - rewrite nth_error_app1 in E by assumption. auto.
  - rewrite nth_error_app2 in E by assumption.
    destruct (i - length l) as [|[|k]] eqn:D; try discriminate.
    injection E as <-. right. split; [lia | reflexivity].
Qed.

Lemma nth_error_keep_snoc {A : Type} (l : list A) (x y : A) (i : nat) :
  nth_error l i = Some y -> nth_error (l ++ [x]) i = Some y.
Proof.
  intros E. rewrite nth_error_app1; [exact E|].
  apply nth_error_Some. congruence.
Qed.

(** A settled attempt stays as it is when a pending one is settled. *)
Lemma nth_error_keep_update (l : list (PromiseState Mongoose))
    (p q : nat) (x y : PromiseState Mongoose) :
  nth_error l p = Some (Pending Mongoose) ->
  nth_error l q = Some y -> y <> Pending Mongoose ->
  nth_error (update p x l) q = Some y.
Proof.
  intros P Q N. rewrite nth_error_update_other; [exact Q|].
  intros ->. congruence.
Qed.

Lemma filter_update_count (l : list (Caller Mongoose)) :
  forall (i : nat) (c c' : Caller Mongoose),
    nth_error l i = Some c -> hasThrown c = false ->
    length (filter hasThrown (update i c' l))
    = length (filter hasThrown l) + (if hasThrown c' then 1 else 0).
Proof.
  induction l as [|y r IH]; intros [|i] c c' E T; simpl in *;
    try discriminate.
  - injection E as ->. rewrite T. destruct (hasThrown c'); simpl; lia.
  - pose proof (IH i c c' E T) as H.
    destruct (hasThrown y); simpl; lia.
Qed.

(** The six ways a step can be taken. *)
Lemma fire_cases (s : System) (a : action) (s' : System) :
  fire s a = Some s' ->
  (exists c,
      a = Call /\ conn (cached (heap s)) = Some c
      /\ s' = {| heap := heap s; callers := callers s ++ [Returned c] |})
  \/ (exists p,
        a = Call /\ conn (cached (heap s)) = None
        /\ promise (cached (heap s)) = Some p
        /\ s' = {| heap := heap s;
                   callers := callers s ++ [Awaiting Mongoose p] |})
  \/ (a = Call /\ conn (cached (heap s)) = None
      /\ promise (cached (heap s)) = None
      /\ s' = {| heap := {| cached := {| conn := None;
                                         promise := Some (attempts (heap s)) |};
                            promises := promises (heap s)
                                        ++ [Pending Mongoose] |};
                 callers := callers s
                            ++ [Awaiting Mongoose (attempts (heap s))] |})
  \/ (exists p o,
        a = Settle p o
        /\ nth_error (promises (heap s)) p = Some (Pending Mongoose)
        /\ s' = {| heap := {| cached := cached (heap s);
                              promises := update p (settled mongoose o)
                                            (promises (heap s)) |};
                   callers := callers s |})
  \/ (exists i p m,
        a = Resume i
        /\ nth_error (callers s) i = Some (Awaiting Mongoose p)
        /\ nth_error (promises (heap s)) p = Some (Fulfilled m)
        /\ s' = {| heap := {| cached := {| conn := Some m;
                                           promise := promise (cached (heap s)) |};
                              promises := promises (heap s) |};
                   callers := update i (Returned m) (callers s) |})
  \/ (exists i p e,
        a = Resume i
        /\ nth_error (callers s) i = Some (Awaiting Mongoose p)
        /\ nth_error (promises (heap s)) p = Some (Rejected Mongoose e)
        /\ s' = {| heap := {| cached := {| conn := conn (cached (heap s));
                                           promise := None |};
                              promises := promises (heap s) |};
                   callers := update i (Threw Mongoose e) (callers s) |}).
Proof.
  intros F. destruct a as [|p o|i]; simpl in F.
  - unfold connectToDatabase_call in F.
    destruct (conn (cached (heap s))) as [c|] eqn:Ec.
    + injection F as <-. left. exists c. auto.
    + destruct (promise (cached (heap s))) as [p|] eqn:Ep; injection F as <-.
      * right; left. exists p. auto.
      * right; right; left. auto.
  - destruct (nth_error (promises (heap s)) p) as [[| |]|] eqn:E;
      try discriminate.
    injection F as <-. right; right; right; left. exists p, o. auto.
  - destruct (nth_error (callers s) i) as [[p| |]|] eqn:Ei; try discriminate.
    unfold connectToDatabase_resume in F.
    destruct (nth_error (promises (heap s)) p) as [[|m|e]|] eqn:E;
      try discriminate; injection F as <-.
    + right; right; right; right; left. exists i, p, m. auto.
    + right; right; right; right; right. exists i, p, e. auto.
Qed.

Ltac fire_cases F :=
  let c := fresh "c" in let p := fresh "p" in let o := fresh "o" in
  let i := fresh "i" in let m := fresh "m" in let e := fresh "e" in
  let Ea := fresh "Ea" in let Ec := fresh "Ec" in let Ep := fresh "Ep" in
  let Ei := fresh "Ei" in let Es := fresh "Es" in
  destruct (fire_cases _ _ _ F)
    as [[c [Ea [Ec Es]]]
       |[[p [Ea [Ec [Ep Es]]]]
        |[[Ea [Ec [Ep Es]]]
         |[[p [o [Ea [Ep Es]]]]
          |[[i [p [m [Ea [Ei [Ep Es]]]]]]
           |[i [p [e [Ea [Ei [Ep Es]]]]]]]]]]];
  subst.

(* ------------------------------------------------------------------ *)
(** ** How many attempts are made                                      *)
(* ------------------------------------------------------------------ *)

Lemma failures_snoc (s : System) (h : Heap) (c : Caller Mongoose) :
  hasThrown c = false ->
  failures {| heap := h; callers := callers s ++ [c] |} = failures s.
Proof.
  intros T. unfold failures. cbn [callers].
  rewrite filter_app, length_app. simpl. rewrite T. simpl. lia.
Qed.

Lemma fire_attemptBudget (s : System) (a : action) (s' : System) :
  attemptBudget s -> fire s a = Some s' -> attemptBudget s'.
Proof.
  unfold attemptBudget. intros B F. fire_cases F.
  - rewrite failures_snoc by reflexivity. exact B.
  - rewrite failures_snoc by reflexivity. exact B.
  - rewrite failures_snoc by reflexivity. rewrite Ep in B.
    cbn [heap cached promise]. unfold attempts in *. cbn [promises].
    rewrite length_app. simpl. lia.
  - unfold failures in *. cbn [heap cached callers] in *.
    unfold attempts in *. cbn [promises]. rewrite length_update. exact B.
  - unfold failures in *. cbn [heap cached callers promise] in *.
    unfold attempts in *. cbn [promises].
    rewrite (filter_update_count _ _ _ _ Ei eq_refl). simpl. lia.
  - unfold failures in *. cbn [heap cached callers promise] in *.
    unfold attempts in *. cbn [promises].
    rewrite (filter_update_count _ _ _ _ Ei eq_refl). simpl.
    destruct (promise (cached (heap s))); lia.
Qed.

Lemma fire_attempts_callers (s : System) (a : action) (s' : System) :
  attempts (heap s) <= length (callers s) -> fire s a = Some s' ->
  attempts (heap s') <= length (callers s')
  /\ length (callers s')
     = length (callers s) + (if isCall a then 1 else 0).
Proof.
  intros B F. fire_cases F; unfold attempts in *;
    cbn [heap callers promises isCall];
    rewrite ?length_app, ?length_update; simpl; lia.
Qed.

Lemma run_attempts_callers (l : list action) :
  forall s s',
    attempts (heap s) <= length (callers s) -> run s l = Some s' ->
    attempts (heap s') <= length (callers s')
    /\ length (callers s')
       = length (callers s) + length (filter isCall l).
Proof.
  induction l as [|a r IH]; intros s s' B R; simpl in R.
  - injection R as <-. simpl. split; [exact B | lia].
  - destruct (fire s a) as [s1|] eqn:F; [|discriminate].
    destruct (fire_attempts_callers _ _ _ B F) as [B1 L1].
    destruct (IH _ _ B1 R) as [B2 L2]. split; [exact B2|].
    rewrite L2, L1. simpl. destruct (isCall a); simpl; lia.
Qed.

(** Without a failed attempt nobody throws. *)
Lemma fire_noFailure (s : System) (a : action) (s' : System) :
  isFailure a = false ->
  (forall p e, nth_error (promises (heap s)) p <> Some (Rejected Mongoose e)) ->
  failures s = 0 ->
  fire s a = Some s' ->
  (forall p e, nth_error (promises (heap s')) p <> Some (Rejected Mongoose e))
  /\ failures s' = 0.
Proof.
  intros NF P T F. fire_cases F.
  - rewrite failures_snoc by reflexivity. auto.
  - rewrite failures_snoc by reflexivity. auto.
  - rewrite failures_snoc by reflexivity. split; [|exact T].
    cbn [heap promises]. intros q e E.
    apply nth_error_snoc in E as [E|[_ E]]; [exact (P _ _ E) | discriminate].
  - split; [|exact T]. cbn [heap promises]. intros q e E.
    apply nth_error_update in E as [E|E]; [|exact (P _ _ E)].
    destruct o; [discriminate E | discriminate NF].
  - split; [exact P|]. unfold failures in *. cbn [callers].
    rewrite (filter_update_count _ _ _ _ Ei eq_refl). simpl. lia.
  - exfalso. exact (P _ _ Ep).
Qed.

Lemma run_noFailure (l : list action) :
  forall s s',
    forallb (fun a => negb (isFailure a)) l = true ->
    (forall p e,
        nth_error (promises (heap s)) p <> Some (Rejected Mongoose e)) ->
    failures s = 0 ->
    run s l = Some s' -> failures s' = 0.
Proof.
  induction l as [|a r IH]; intros s s' A P T R; simpl in *.
  - injection R as <-; exact T.
  - apply andb_prop in A as [A1 A2]. apply negb_true_iff in A1.
    destruct (fire s a) as [s1|] eqn:F; [|discriminate].
    destruct (fire_noFailure _ _ _ A1 P T F) as [P1 T1].
    apply (IH s1 s'); assumption.
Qed.

(** X14: In every interleaving of calls, settlements and resumptions, the
    number of calls of [mongoose.connect] is at most one more than the
    number of activations that have thrown, and at most the number of
    calls of [connectToDatabase]; as long as no attempt has failed, at
    most one connection attempt is made, however many callers there are
    and in whatever order they run. *)
Theorem attempts_bounded_by_failures :
  forall (l : list action) (s : System),
    run start l = Some s ->
    attempts (heap s) <= 1 + failures s
    /\ attempts (heap s) <= length (callers s)
    /\ length (callers s) = length (filter isCall l)
    /\ (forallb (fun a => negb (isFailure a)) l = true ->
        attempts (heap s) <= 1).
Proof.
  intros l s R.
  assert (B : attemptBudget s).
  { apply (run_invariant Mongoose mongoose attemptBudget
             fire_attemptBudget l start s); [|exact R].
    unfold attemptBudget, failures; simpl. lia. }
  assert (L : attempts (heap start) <= length (callers start))
    by (unfold attempts; simpl; lia).
  destruct (run_attempts_callers l _ _ L R) as [A C]. simpl in C.
  assert (Bd : attempts (heap s) <= 1 + failures s).
  { unfold attemptBudget in B.
    destruct (promise (cached (heap s))); lia. }
  split; [exact Bd|]. split; [exact A|]. split; [exact C|].
  intros NF.
  assert (T : failures s = 0).
  { apply (run_noFailure l start s NF); [| reflexivity | exact R].
    intros [|p] e; discriminate. }
  lia.
Qed.

(* ------------------------------------------------------------------ *)
(** ** What callers receive                                            *)
(* ------------------------------------------------------------------ *)

Ltac six := cbv zeta; split; [|split; [|split; [|split; [|split]]]].
Ltac snoc H := apply nth_error_snoc in H as [H|[_ H]].
Ltac upd H := apply nth_error_update in H as [H|H].

Lemma fire_faithful (s : System) (a : action) (s' : System) :
  faithful mongoose s -> fire s a = Some s' -> faithful mongoose s'.
Proof.
  unfold faithful. cbv zeta.
  intros [Ret [Thr [Awa [Slot [Con Ful]]]]] F. fire_cases F;
    unfold attempts in *;
    cbn [heap callers cached conn promise promises].
  - (* a call that finds the connection *)
    destruct (Con _ Ec) as [-> Cp]. six; auto.
    + intros i m H. snoc H; [exact (Ret _ _ H)|].
      injection H as ->. auto.
    + intros i e H. snoc H; [eauto | discriminate].
    + intros i p H. snoc H; [eauto | discriminate].
  - (* a call that joins the attempt in flight *)
    six; auto.
    + intros i m H. snoc H; [exact (Ret _ _ H) | discriminate].
    + intros i e H. snoc H; [eauto | discriminate].
    + intros i q H. snoc H; [eauto|]. injection H as ->. auto.
  - (* a call that starts an attempt *)
    rewrite length_app. simpl. six.
    + intros i m H. snoc H; [|discriminate].
      destruct (Ret _ _ H) as [_ C]. congruence.
    + intros i e H. snoc H; [|discriminate].
      destruct (Thr _ _ H) as [q Q]. exists q.
      apply nth_error_keep_snoc. exact Q.
    + intros i q H. snoc H.
      * specialize (Awa _ _ H). lia.
      * injection H as ->. lia.
    + intros q H. injection H as <-. lia.
    + discriminate.
    + intros q m H. snoc H; [eauto | discriminate].
  - (* the driver settles an attempt *)
    rewrite length_update. six; auto.
    + intros i e H. destruct (Thr _ _ H) as [q Q]. exists q.
      apply nth_error_keep_update; [exact Ep | exact Q | discriminate].
    + intros m H. destruct (Con _ H) as [E [q Q]]. split; [exact E|].
      exists q.
      apply nth_error_keep_update; [exact Ep | exact Q | discriminate].
    + intros q m H. upd H; [|eauto].
      destruct o; [injection H as ->; reflexivity | discriminate].
  - (* a caller resumes on a fulfilled attempt *)
    assert (m = mongoose) by eauto. subst m. six; auto.
    + intros i' m' H. upd H.
      * injection H as ->. auto.
      * split; [exact (proj1 (Ret _ _ H)) | reflexivity].
    + intros i' e H. upd H; [discriminate | eauto].
    + intros i' q H. upd H; [discriminate | eauto].
    + intros m' H. injection H as <-. eauto.
  - (* a caller resumes on a rejected attempt *)
    six; auto.
    + intros i' m H. upd H; [discriminate | exact (Ret _ _ H)].
    + intros i' e' H. upd H; [|eauto]. injection H as ->. eauto.
    + intros i' q H. upd H; [discriminate | eauto].
    + discriminate.
Qed.

Lemma run_faithful (l : list action) (s : System) :
  run start l = Some s -> faithful mongoose s.
Proof.
  apply (run_invariant Mongoose mongoose (faithful mongoose) fire_faithful).
  unfold faithful. six; cbn [start heap callers initial cached conn promise
                              promises].
  - intros [|i] m H; discriminate H.
  - intros [|i] e H; discriminate H.
  - intros [|i] p H; discriminate H.
  - discriminate.
  - discriminate.
  - intros [|p] m H; discriminate H.
Qed.

(** X15: In every state the process can reach, a caller that returned holds
    the [mongoose] instance, which an attempt delivered and which is
    cached from then on; a caller that threw holds the rejection of an
    attempt that was made, not an error of its own; [cached.conn] is set
    only to the instance a fulfilled attempt delivered; and
    [cached.promise] refers to an attempt that was made. *)
Theorem callers_hold_attempt_outcomes :
  forall (l : list action) (s : System),
    run start l = Some s ->
    (forall i m,
        nth_error (callers s) i = Some (Returned m) ->
        m = mongoose
        /\ conn (cached (heap s)) = Some mongoose
        /\ exists p,
             nth_error (promises (heap s)) p = Some (Fulfilled mongoose))
    /\ (forall i e,
          nth_error (callers s) i = Some (Threw Mongoose e) ->
          exists p,
            nth_error (promises (heap s)) p = Some (Rejected Mongoose e))
    /\ (forall m,
          conn (cached (heap s)) = Some m ->
          m = mongoose
          /\ exists p,
               nth_error (promises (heap s)) p = Some (Fulfilled mongoose))
    /\ (forall p,
          promise (cached (heap s)) = Some p -> p < attempts (heap s)).
Proof.
  intros l s R. pose proof (run_faithful l s R) as I.
  unfold faithful in I. cbv zeta in I.
  destruct I as [Ret [Thr [Awa [Slot [Con Ful]]]]].
  split; [|split; [|split]]; auto.
  intros i m H. destruct (Ret _ _ H) as [E C].
  split; [exact E|]. split; [exact C|]. exact (proj2 (Con _ C)).
Qed.

(** X16: In every state the process can reach, a suspended caller waits for
    an attempt that was made.  While that attempt is pending the caller
    cannot resume, and the driver can settle the attempt either way; once
    it is fulfilled the caller resumes, returns the [mongoose] instance
    and leaves it in [cached.conn]; once it is rejected the caller
    resumes, throws that rejection, clears [cached.promise] and leaves
    [cached.conn] as it was. *)
Theorem suspended_caller_gets_attempt_outcome :
  forall (l : list action) (s : System) (i : nat) (p : PromiseId),
    run start l = Some s ->
    nth_error (callers s) i = Some (Awaiting Mongoose p) ->
    p < attempts (heap s)
    /\ ((nth_error (promises (heap s)) p = Some (Pending Mongoose)
         /\ fire s (Resume i) = None
         /\ forall o, exists s',
               fire s (Settle p o) = Some s'
               /\ nth_error (promises (heap s')) p
                  = Some (settled mongoose o))
        \/ (nth_error (promises (heap s)) p = Some (Fulfilled mongoose)
            /\ exists s',
                 fire s (Resume i) = Some s'
                 /\ nth_error (callers s') i = Some (Returned mongoose)
                 /\ conn (cached (heap s')) = Some mongoose)
        \/ (exists e,
              nth_error (promises (heap s)) p = Some (Rejected Mongoose e)
              /\ exists s',
                   fire s (Resume i) = Some s'
                   /\ nth_error (callers s') i = Some (Threw Mongoose e)
                   /\ promise (cached (heap s')) = None
                   /\ conn (cached (heap s')) = conn (cached (heap s)))).
Proof.
  intros l s i p R Hi. pose proof (run_faithful l s R) as I.
  unfold faithful in I. cbv zeta in I.
  destruct I as [Ret [Thr [Awa [Slot [Con Ful]]]]].
  pose proof (Awa _ _ Hi) as Lp. split; [exact Lp|].
  assert (Li : i < length (callers s))
    by (apply nth_error_Some; congruence).
  unfold attempts in Lp.
  destruct (nth_error (promises (heap s)) p) as [[|m|e]|] eqn:E.
  - left. split; [reflexivity|]. split.
    + simpl. rewrite Hi. unfold connectToDatabase_resume. rewrite E.
      reflexivity.
    + intros o. simpl. rewrite E. eexists. split; [reflexivity|].
      cbn [heap promises]. apply nth_error_update_same. exact Lp.
  - assert (m = mongoose) by eauto. subst m.
    right; left. split; [reflexivity|].
    simpl. rewrite Hi. unfold connectToDatabase_resume. rewrite E.
    eexists. split; [reflexivity|]. cbn [heap callers cached conn].
    split; [apply nth_error_update_same; exact Li | reflexivity].
  - right; right. exists e. split; [reflexivity|].
    simpl. rewrite Hi. unfold connectToDatabase_resume. rewrite E.
    eexists. split; [reflexivity|]. cbn [heap callers cached conn promise].
    split; [apply nth_error_update_same; exact Li | auto].
  - exfalso. apply nth_error_None in E. lia.
Qed.

(* ------------------------------------------------------------------ *)
(** ** Any number of first callers                                     *)
(* ------------------------------------------------------------------ *)

Lemma firstCallers_settled (n : nat) (o : Outcome) :
  exists s,
    run start (repeat Call (S n) ++ [Settle 0 o]) = Some s
    /\ firstCallers mongoose n o [] s.
Proof.
  assert (Calls : run start (repeat Call (S n)) =
                  Some {| heap := {| cached := {| conn := None;
                                                  promise := Some 0 |};
                                     promises := [Pending Mongoose] |};
                          callers := repeat (Awaiting Mongoose 0) (S n) |}).
  { change (repeat Call (S n)) with ([Call] ++ repeat Call n).
    rewrite (run_app Mongoose mongoose). simpl.
    apply (run_calls_join Mongoose mongoose 0 n); reflexivity. }
  rewrite (run_app Mongoose mongoose), Calls.
  eexists. split; [reflexivity|].
  unfold firstCallers. cbn [heap promises cached callers update cacheAfter].
  split; [reflexivity|]. split; [reflexivity|].
  split; [apply repeat_length|]. split; [intros i []|].
  intros i L _. apply nth_error_repeat. exact L.
Qed.

(** A caller of the first attempt that has not resumed yet can resume. *)
Lemma firstCallers_resume (n : nat) (o : Outcome) (resumed : list nat)
    (s : System) (i : nat) :
  firstCallers mongoose n o resumed s ->
  i < S n -> ~ In i resumed ->
  exists s',
    fire s (Resume i) = Some s'
    /\ firstCallers mongoose n o (i :: resumed) s'.
Proof.
  intros [P [C [L [Done Waiting]]]] Li Ni.
  assert (Hi : nth_error (callers s) i = Some (Awaiting Mongoose 0))
    by (apply Waiting; assumption).
  assert (Lc : i < length (callers s)) by (rewrite L; exact Li).
  assert (Others : forall (c : Caller Mongoose) (j : nat),
             j <> i ->
             nth_error (update i c (callers s)) j
             = nth_error (callers s) j).
  { intros c j N. apply nth_error_update_other. congruence. }
  simpl. rewrite Hi. unfold connectToDatabase_resume. rewrite P.
  destruct o as [|error]; cbn [nth_error settled];
    (eexists; split; [reflexivity|]);
    unfold firstCallers;
    cbn [heap promises cached callers conn promise cacheAfter outcomeOf];
    rewrite C, length_update.
  - split; [reflexivity|]. split; [destruct resumed; reflexivity|].
    split; [exact L|]. split.
    + intros j [<-|J]; [apply nth_error_update_same; exact Lc|].
      rewrite Others by (intros ->; contradiction). exact (Done j J).
    + intros j Lj Nj. rewrite Others by (intros ->; apply Nj; left; auto).
      apply Waiting; [exact Lj|]. intros J. apply Nj. right. exact J.
  - split; [reflexivity|]. split; [destruct resumed; reflexivity|].
    split; [exact L|]. split.
    + intros j [<-|J]; [apply nth_error_update_same; exact Lc|].
      rewrite Others by (intros ->; contradiction). exact (Done j J).
    + intros j Lj Nj. rewrite Others by (intros ->; apply Nj; left; auto).
      apply Waiting; [exact Lj|]. intros J. apply Nj. right. exact J.
Qed.

Lemma firstCallers_ext (n : nat) (o : Outcome) (done done' : list nat)
    (s : System) :
  (forall i, In i done <-> In i done') -> (done = [] <-> done' = []) ->
  firstCallers mongoose n o done s -> firstCallers mongoose n o done' s.
Proof.
  intros I E [P [C [L [Done Waiting]]]]. unfold firstCallers.
  split; [exact P|]. split.
  - rewrite C. destruct done as [|a t]; destruct done' as [|a' t'].
    + reflexivity.
    + pose proof (proj1 E eq_refl) as X. discriminate X.
    + pose proof (proj2 E eq_refl) as X. discriminate X.
    + destruct o; reflexivity.
  - split; [exact L|]. split.
    + intros i Hi. apply Done, I, Hi.
    + intros i Li Ni. apply Waiting; [exact Li|].
      intros Hi. apply Ni, I, Hi.
Qed.

Lemma firstCallers_resume_all (n : nat) (o : Outcome) (order : list nat) :
  forall (resumed : list nat) (s : System),
    firstCallers mongoose n o resumed s ->
    NoDup order ->
    (forall i, In i order -> i < S n /\ ~ In i resumed) ->
    exists s',
      run s (map Resume order) = Some s'
      /\ firstCallers mongoose n o (rev order ++ resumed) s'.
Proof.
  induction order as [|i rest IH]; intros resumed s F N B.
  - exists s. split; [reflexivity | exact F].
  - inversion N as [|? ? Ni Nrest]; subst.
    destruct (B i (or_introl eq_refl)) as [Li Fresh].
    destruct (firstCallers_resume n o resumed s i F Li Fresh)
      as [s1 [F1 I1]].
    destruct (IH (i :: resumed) s1 I1 Nrest) as [s' [R I']].
    { intros j J. destruct (B j (or_intror J)) as [Lj Fj].
      split; [exact Lj|]. intros [<-|K]; [exact (Ni J) | exact (Fj K)]. }
    exists s'. split.
    + cbn [map Connection.run]. rewrite F1. exact R.
    + simpl. rewrite <- app_assoc. exact I'.
Qed.

(** X17: Any number of callers that call before the first attempt is
    settled share that one attempt and its outcome, in whatever order
    they resume after the settlement and however many of them have
    resumed: one attempt has been made; each caller that has resumed
    returned the [mongoose] instance if the attempt succeeded, and threw
    the error of the attempt if it failed; the others still await the
    attempt.  After the first resumption a further call returns the
    instance at once, with still one attempt made, or starts the second
    attempt, when the first one failed. *)
Theorem first_callers_share_outcome :
  forall (n : nat) (o : Outcome) (order : list nat),
    NoDup order ->
    (forall i, In i order -> i < S n) ->
    exists s,
      run start (repeat Call (S n) ++ Settle 0 o :: map Resume order)
      = Some s
      /\ firstCallers mongoose n o order s
      /\ attempts (heap s) = 1
      /\ (order <> [] ->
          connectToDatabase_call (heap s) =
          match o with
          | Success => (heap s, Returned mongoose)
          | Failure error =>
              ({| cached := {| conn := None; promise := Some 1 |};
                  promises := [Rejected Mongoose error;
                               Pending Mongoose] |},
               Awaiting Mongoose 1)
          end).
Proof.
  intros n o order N B.
  destruct (firstCallers_settled n o) as [s0 [R0 F0]].
  destruct (firstCallers_resume_all n o order [] s0 F0 N) as [s [R F]].
  { intros i Hi. split; [exact (B i Hi) | intros []]. }
  exists s. split.
  - change (Settle 0 o :: map Resume order)
      with ([Settle 0 o] ++ map Resume order).
    rewrite app_assoc, (run_app Mongoose mongoose), R0. exact R.
  - assert (F' : firstCallers mongoose n o order s).
    { apply (firstCallers_ext n o (rev order ++ []) order s); [| |exact F].
      - intros i. rewrite app_nil_r. symmetry. apply in_rev.
      - rewrite app_nil_r. split; intros E.
        + apply (f_equal (@rev nat)) in E. rewrite rev_involutive in E.
          exact E.
        + rewrite E. reflexivity. }
    split; [exact F'|].
    destruct F' as [P [C _]]. split.
    + unfold attempts. rewrite P. reflexivity.
    + intros NE. unfold connectToDatabase_call. rewrite C.
      destruct order as [|i rest]; [congruence|].
      destruct o as [|error]; cbn [cacheAfter conn promise].
      * reflexivity.
      * rewrite P. reflexivity.
Qed.

End ConnectionTraces.

(** After a failure and the stale reset of a late caller three attempts
    have been made by four calls, two of which have thrown: the bound is
    reached. *)
Lemma attempts_bounded_by_failures_witness :
  let boom := MkError (str "ECONNREFUSED") in
  let l := [Call; Settle 0 (Failure boom); Call; Resume 0; Call; Resume 1;
            Call] in
  exists s,
    run tt (start unit) l = Some s
    /\ attempts (heap s) = 3 /\ failures s = 2
    /\ attempts (heap s) <= 1 + failures s
    /\ attempts (heap s) <= length (callers s).
Proof.
  intros boom l.
  destruct (run tt (start unit) l) as [s|] eqn:R; [|discriminate R].
  exists s.
  destruct (attempts_bounded_by_failures unit tt l s R) as [B [C _]].
  split; [reflexivity|].
  injection R as <-.
  split; [reflexivity|]. split; [reflexivity|]. split; [exact B | exact C].
Defined.

(** Two callers share an attempt that succeeds and one of them has
    resumed: it holds the instance, which is cached. *)
Lemma callers_hold_attempt_outcomes_witness :
  let l := [Call; Call; Settle 0 Success; Resume 1] in
  exists s,
    run tt (start unit) l = Some s
    /\ nth_error (callers s) 1 = Some (Returned tt)
    /\ conn (cached (heap s)) = Some tt.
Proof.
  intros l.
  destruct (run tt (start unit) l) as [s|] eqn:R; [|discriminate R].
  exists s. split; [reflexivity|].
  assert (H : nth_error (callers s) 1 = Some (Returned tt))
    by (injection R as <-; reflexivity).
  split; [exact H|].
  exact (proj1 (proj2 (proj1 (callers_hold_attempt_outcomes unit tt l s R)
                         1 tt H))).
Defined.

(** Two callers share an attempt that has failed: the second one can
    resume, and throws the error of the attempt. *)
Lemma suspended_caller_gets_attempt_outcome_witness :
  let boom := MkError (str "ECONNREFUSED") in
  let l := [Call; Call; Settle 0 (Failure boom)] in
  exists s s',
    run tt (start unit) l = Some s
    /\ fire tt s (Resume 1) = Some s'
    /\ nth_error (callers s') 1 = Some (Threw unit boom).
Proof.
  intros boom l.
  destruct (run tt (start unit) l) as [s|] eqn:R; [|discriminate R].
  assert (H : nth_error (callers s) 1 = Some (Awaiting unit 0))
    by (injection R as <-; reflexivity).
  destruct (suspended_caller_gets_attempt_outcome unit tt l s 1 0 R H)
    as [_ [[P _]|[[P _]|[e [P [s' [F [C _]]]]]]]].
  - exfalso. injection R as <-. discriminate P.
  - exfalso. injection R as <-. discriminate P.
  - exists s, s'. split; [reflexivity|]. split; [exact F|].
    assert (e = boom) by (injection R as <-; injection P as <-; reflexivity).
    subst e. exact C.
Defined.

(** Three callers call before the first attempt fails, and the third
    and the first have resumed: both threw the error, the second still
    awaits the attempt, and a further call starts the second attempt. *)
Lemma first_callers_share_outcome_witness :
  let boom := MkError (str "ECONNREFUSED") in
  exists s,
    run tt (start unit)
      [Call; Call; Call; Settle 0 (Failure boom); Resume 2; Resume 0]
    = Some s
    /\ callers s = [Threw unit boom; Awaiting unit 0; Threw unit boom]
    /\ attempts (heap s) = 1
    /\ snd (connectToDatabase_call (heap s)) = Awaiting unit 1.
Proof.
  intros boom.
  assert (N : NoDup [2; 0])
    by (constructor; [intros [E|[]]; discriminate E|];
        constructor; [intros [] | constructor]).
  assert (B : forall i, In i [2; 0] -> i < 3)
    by (intros i [<-|[<-|[]]]; lia).
  destruct (first_callers_share_outcome unit tt 2 (Failure boom) [2; 0] N B)
    as [s [R [_ [A C]]]].
  exists s. split; [exact R|].
  split; [simpl in R; injection R as <-; reflexivity|].
  split; [exact A|].
  rewrite C by discriminate. reflexivity.
Defined.
